(** * vexp: the dependency-graph resolver of the vendoring experiment

    A shallow embedding of [main.go]: the import stack, the package cache
    and the loader ([loadImport], [loadDeps], [reusePackage]), vendor-path
    expansion ([vendoredImportPath]), the case-fold collision detector
    ([toFold], [foldDup]), the aggregator ([dependencies]) and the
    prefix test of the copier ([hasPathPrefix], [isSeen]).

    Go strings are byte strings: they are modelled by [string], [len] by
    [String.length], [s[i]] by [String.get], [s[:n]] by [substring 0 n] and
    the comparison [<] by [String.ltb] (bytewise lexicographic order).
    Pointers to [Package] are locations in an explicit heap; the package
    cache maps resolved import paths to locations.  Functions of the Go
    standard library whose code is not part of the repository (the file
    system, [go/build], [path/filepath], [unicode]) are fields of an
    environment record. *)

From Stdlib Require Import ZArith Ascii.
From stdpp Require Import gmap strings list fin_maps sorting.

Local Open Scope Z_scope.
Local Open Scope nat_scope.

(** ** Outcomes of a Go computation *)

(** A call either returns, panics (nil dereference, slice bounds), ends the
    process with [os.Exit], or, in the model only, runs out of fuel. *)
Inductive Res (A : Type) : Type :=
| Ok (a : A)
| Panic (msg : string)
| Exit (code : Z)
| OutOfFuel.
Arguments Ok {A} a.
Arguments Panic {A} msg.
Arguments Exit {A} code.
Arguments OutOfFuel {A}.

Definition res_bind {A B} (r : Res A) (k : A -> Res B) : Res B :=
  match r with
  | Ok a => k a
  | Panic m => Panic m
  | Exit c => Exit c
  | OutOfFuel => OutOfFuel
  end.

Notation "'do' x <- r ; k" := (res_bind r (fun x => k))
  (at level 10, x name, r at level 100, k at level 200,
   format "'[v' 'do'  x  <-  r ; '/' k ']'").
Notation "'do' ' p <- r ; k" := (res_bind r (fun x => let 'p := x in k))
  (at level 10, p pattern, r at level 100, k at level 200,
   format "'[v' 'do'  ' p  <-  r ; '/' k ']'").

(** ** Byte strings *)

Module GoString.

Definition slash : ascii := "/"%char.
Definition dquote : string := String (ascii_of_nat 34) EmptyString.
Definition newline : ascii := ascii_of_nat 10.
Definition tab : string := String (ascii_of_nat 9) EmptyString.

(** [s[i] == c]; false when [i] is out of range (the callers check the
    length first, as the source does). *)
Definition byteIs (i : nat) (s : string) (c : ascii) : bool :=
  match String.get i s with
  | Some b => Ascii.eqb b c
  | None => false
  end.

(** [s] is not empty and its last byte is [c]. *)
Definition lastIs (s : string) (c : ascii) : bool :=
  match s with
  | EmptyString => false
  | _ => byteIs (String.length s - 1) s c
  end.

(** [s[:n]], for [n <= len(s)] *)
Definition upto (n : nat) (s : string) : string := String.substring 0 n s.

(** [strings.HasPrefix(s, prefix)] *)
Definition HasPrefix (s prefix : string) : bool := String.prefix prefix s.

(** [strings.Contains(s, substr)] *)
Fixpoint Contains (s substr : string) : bool :=
  String.prefix substr s ||
  match s with
  | EmptyString => false
  | String _ s' => Contains s' substr
  end.

(** [strings.SplitAfter(s, "\n")] *)
Fixpoint SplitAfterNewline (s : string) : list string :=
  match s with
  | EmptyString => [EmptyString]
  | String c s' =>
      if Ascii.eqb c newline
      then String c EmptyString :: SplitAfterNewline s'
      else match SplitAfterNewline s' with
           | x :: r => String c x :: r
           | [] => [String c EmptyString]
           end
  end.

(** [strings.Join] with the empty separator *)
Definition JoinEmpty (a : list string) : string :=
  foldr String.append EmptyString a.

(** [strings.Split(s, ":")] *)
Fixpoint SplitColon (s : string) : list string :=
  match s with
  | EmptyString => [EmptyString]
  | String c s' =>
      if Ascii.eqb c ":"%char
      then EmptyString :: SplitColon s'
      else match SplitColon s' with
           | x :: r => String c x :: r
           | [] => [String c EmptyString]
           end
  end.

End GoString.
Import GoString.

(** ** The data model *)

(** [token.Position] *)
Record Position := {
  Filename : string;
  Offset : Z;
  Line : Z;
  Column : Z
}.

(** The part of [go/build]'s [Package] that the program reads or writes. *)
Module build.

Record Package := {
  Dir : string;
  Name : string;
  ImportComment : string;
  ImportPath : string;
  Root : string;
  BinDir : string;
  Goroot : bool;
  GoFiles : list string;
  CgoFiles : list string;
  IgnoredGoFiles : list string;
  CFiles : list string;
  CXXFiles : list string;
  MFiles : list string;
  HFiles : list string;
  SFiles : list string;
  SwigFiles : list string;
  SwigCXXFiles : list string;
  SysoFiles : list string;
  Imports : list string;
  ImportPos : gmap string (list Position);
  TestGoFiles : list string;
  TestImports : list string;
  XTestGoFiles : list string;
  XTestImports : list string
}.

(** [build.IsLocalImport]: the import path is ".", "..", or begins with
    "./" or "../". *)
Definition IsLocalImport (path : string) : bool :=
  String.eqb path "." || String.eqb path ".."
  || HasPrefix path "./" || HasPrefix path "../".

Definition setImportPath (path : string) (b : Package) : Package :=
  {| Dir := Dir b; Name := Name b; ImportComment := ImportComment b;
     ImportPath := path; Root := Root b; BinDir := BinDir b;
     Goroot := Goroot b; GoFiles := GoFiles b; CgoFiles := CgoFiles b;
     IgnoredGoFiles := IgnoredGoFiles b; CFiles := CFiles b;
     CXXFiles := CXXFiles b; MFiles := MFiles b; HFiles := HFiles b;
     SFiles := SFiles b; SwigFiles := SwigFiles b;
     SwigCXXFiles := SwigCXXFiles b; SysoFiles := SysoFiles b;
     Imports := Imports b; ImportPos := ImportPos b;
     TestGoFiles := TestGoFiles b; TestImports := TestImports b;
     XTestGoFiles := XTestGoFiles b; XTestImports := XTestImports b |}.

Definition setBinDir (dir : string) (b : Package) : Package :=
  {| Dir := Dir b; Name := Name b; ImportComment := ImportComment b;
     ImportPath := ImportPath b; Root := Root b; BinDir := dir;
     Goroot := Goroot b; GoFiles := GoFiles b; CgoFiles := CgoFiles b;
     IgnoredGoFiles := IgnoredGoFiles b; CFiles := CFiles b;
     CXXFiles := CXXFiles b; MFiles := MFiles b; HFiles := HFiles b;
     SFiles := SFiles b; SwigFiles := SwigFiles b;
     SwigCXXFiles := SwigCXXFiles b; SysoFiles := SysoFiles b;
     Imports := Imports b; ImportPos := ImportPos b;
     TestGoFiles := TestGoFiles b; TestImports := TestImports b;
     XTestGoFiles := XTestGoFiles b; XTestImports := XTestImports b |}.

(** [b.Imports[i] = path], for [i < len(b.Imports)] *)
Definition setImport (i : nat) (path : string) (b : Package) : Package :=
  {| Dir := Dir b; Name := Name b; ImportComment := ImportComment b;
     ImportPath := ImportPath b; Root := Root b; BinDir := BinDir b;
     Goroot := Goroot b; GoFiles := GoFiles b; CgoFiles := CgoFiles b;
     IgnoredGoFiles := IgnoredGoFiles b; CFiles := CFiles b;
     CXXFiles := CXXFiles b; MFiles := MFiles b; HFiles := HFiles b;
     SFiles := SFiles b; SwigFiles := SwigFiles b;
     SwigCXXFiles := SwigCXXFiles b; SysoFiles := SysoFiles b;
     Imports := <[i := path]> (Imports b); ImportPos := ImportPos b;
     TestGoFiles := TestGoFiles b; TestImports := TestImports b;
     XTestGoFiles := XTestGoFiles b; XTestImports := XTestImports b |}.

End build.

(** An [importStack] is a stack of import paths. *)
Abbreviation importStack := (list string) (only parsing).

(** A [PackageError] describes an error loading information about a
    package. *)
Record PackageError := {
  ImportStack : list string;
  Pos : string;
  Err : string;
  isImportCycle : bool;
  hard : bool
}.

(** Pointers to packages are locations of the heap. *)
Abbreviation loc := nat (only parsing).

(** A [Package] describes a single package found in a directory.  The
    embedded [*build.Package] is [None] while it is nil. *)
Record Package := {
  Package_ : option build.Package;
  Standard : bool;
  Error : option PackageError;
  loadedDeps : bool;
  deps : list loc
}.

(** [new(Package)] *)
Definition newPackage : Package :=
  {| Package_ := None; Standard := false; Error := None;
     loadedDeps := false; deps := [] |}.

(** The process-wide mutable state: the two caches, the objects they point
    to, and the one import stack that [packages] passes around by pointer. *)
Record State := {
  packageCache : gmap string loc;
  isDirCache : gmap string bool;
  heap : list Package;
  stk : importStack
}.

Definition initState : State :=
  {| packageCache := ∅; isDirCache := ∅; heap := []; stk := [] |}.

(** What the program takes from outside: its package-level variables that
    are fixed during a run, the file system, and the library functions.
    [matchPattern pattern name] reports whether [name] matches the limited
    glob [pattern]; the source compiles the pattern with package [regexp],
    which is not part of the repository. *)
Record Env := {
  cwd : string;
  gobin : string;
  skipVendor : list (string -> bool);
  Separator : ascii;
  filepath_Clean : string -> string;
  filepath_Join : string -> string -> string;
  filepath_Rel : string -> string -> option string;
  os_Stat_IsDir : string -> bool;
  build_Import : string -> string -> build.Package * option string;
  build_ImportDir : string -> build.Package;
  Position_String : Position -> string;
  Quote : string -> string;
  unicode_SimpleFold : Z -> Z;
  utf8_runes : string -> list Z;
  utf8_encode : Z -> string;
  matchPattern : string -> string -> bool
}.

(** ** The copier's prefix test *)

(** [hasPathPrefix] reports whether the path [s] begins with the elements
    in [prefix]. *)
Definition hasPathPrefix (s prefix : string) : bool :=
  if String.length s =? String.length prefix then String.eqb s prefix
  else if String.length prefix <? String.length s then
    if negb (String.eqb prefix EmptyString) && lastIs prefix slash
    then HasPrefix s prefix
    else byteIs (String.length prefix) s slash
         && String.eqb (upto (String.length prefix) s) prefix
  else false.

(** Reading a field promoted from the embedded [*build.Package] panics
    when the pointer is nil. *)
Definition buildOf (p : Package) : Res build.Package :=
  match Package_ p with
  | Some b => Ok b
  | None => Panic "nil pointer dereference"
  end.

(** [isSeen]: [pkg.ImportPath] is read in the loop body only. *)
Fixpoint isSeen (pkg : Package) (seen : list string) : Res bool :=
  match seen with
  | [] => Ok false
  | prefix :: seen' =>
      do b <- buildOf pkg;
      if hasPathPrefix (build.ImportPath b) prefix then Ok true
      else isSeen pkg seen'
  end.

(** ** The import stack *)

Definition push (p : string) (s : importStack) : importStack := s ++ [p].

(** The stack without its last element. *)
Definition pop (s : importStack) : importStack := take (length s - 1) s.

Fixpoint shorterThan_ties (s t : list string) : bool :=
  match s, t with
  | a :: s', b :: t' =>
      if negb (String.eqb a b) then String.ltb a b else shorterThan_ties s' t'
  | _, _ => false
  end.

(** [shorterThan] returns true if [sp] is shorter than [t]; stacks of the
    same length are compared by string ordering. *)
Definition shorterThan (sp : importStack) (t : list string) : bool :=
  if negb (length sp =? length t) then length sp <? length t
  else shorterThan_ties sp t.

(** ** Packages *)

Definition setError (e : option PackageError) (p : Package) : Package :=
  {| Package_ := Package_ p; Standard := Standard p; Error := e;
     loadedDeps := loadedDeps p; deps := deps p |}.

Definition setLoadedDeps (b : bool) (p : Package) : Package :=
  {| Package_ := Package_ p; Standard := Standard p; Error := Error p;
     loadedDeps := b; deps := deps p |}.

Definition setDeps (d : list loc) (p : Package) : Package :=
  {| Package_ := Package_ p; Standard := Standard p; Error := Error p;
     loadedDeps := loadedDeps p; deps := d |}.

Definition setBuild (b : build.Package) (p : Package) : Package :=
  {| Package_ := Some b; Standard := Standard p; Error := Error p;
     loadedDeps := loadedDeps p; deps := deps p |}.

Definition setErrorStack (stack : list string) (e : PackageError) : PackageError :=
  {| ImportStack := stack; Pos := Pos e; Err := Err e;
     isImportCycle := isImportCycle e; hard := hard e |}.

Definition setErrorPos (pos : string) (e : PackageError) : PackageError :=
  {| ImportStack := ImportStack e; Pos := pos; Err := Err e;
     isImportCycle := isImportCycle e; hard := hard e |}.

(** [&PackageError{ImportStack: stk.copy(), Err: msg}] *)
Definition mkError (stack : importStack) (msg : string) : PackageError :=
  {| ImportStack := stack; Pos := EmptyString; Err := msg;
     isImportCycle := false; hard := false |}.

Definition cycleError (stack : importStack) : PackageError :=
  {| ImportStack := stack; Pos := EmptyString;
     Err := "import cycle not allowed"; isImportCycle := true; hard := false |}.

(** [copyBuild]: a package is standard when it is found in the Go root and
    its import path is not empty and has no dot. *)
Definition copyBuild (pp : build.Package) (p : Package) : Package :=
  {| Package_ := Some pp;
     Standard := build.Goroot pp
                 && negb (String.eqb (build.ImportPath pp) EmptyString)
                 && negb (Contains (build.ImportPath pp) ".");
     Error := Error p; loadedDeps := loadedDeps p; deps := deps p |}.

(** [reusePackage] reuses package [p] to satisfy the import at the top of
    the import stack [stk]; the result is the new contents of [*p]. *)
Definition reusePackage (p : Package) (stk : importStack) : Package :=
  let p :=
    if loadedDeps p then
      match Error p with
      | None => setError (Some (cycleError stk)) p
      | Some _ => p
      end
    else p in
  match Error p with
  | Some e =>
      if negb (isImportCycle e) && shorterThan stk (ImportStack e)
      then setError (Some (setErrorStack stk e)) p
      else p
  | None => p
  end.

(** ** Directories *)

(** [inCWD] assumes that [path] and [cwd] are clean. *)
Definition inCWD (env : Env) (path : string) : bool :=
  String.eqb path (cwd env)
  || HasPrefix path (cwd env +:+ String (Separator env) EmptyString).

(** [isDir] with its memo table [isDirCache]. *)
Definition isDir (env : Env) (path : string) (c : gmap string bool)
  : bool * gmap string bool :=
  match c !! path with
  | Some result => (result, c)
  | None =>
      let result := os_Stat_IsDir env path in
      (result, <[path := result]> c)
  end.

(** The loop of [vendoredImportPath]: [n] iterations are left and the
    index is [i = lenroot + n - 1], running from [len(dir)] down to
    [len(root)]. *)
Fixpoint vendorWalk (env : Env) (importPath path dir : string) (lenroot n : nat)
    (searched : list string) (c : gmap string bool)
  : Res (string * list string * gmap string bool) :=
  match n with
  | O => Ok (path, searched, c)
  | S n' =>
      let i := lenroot + n' in
      let vpath := "vendor/" +:+ path in
      if (i <? String.length dir) && negb (byteIs i dir (Separator env))
      then vendorWalk env importPath path dir lenroot n' searched c
      else
        let '(isv, c) := isDir env (filepath_Join env (upto i dir) "vendor") c in
        if negb isv
        then vendorWalk env importPath path dir lenroot n' searched c
        else
          let targ := filepath_Join env (upto i dir) vpath in
          let '(ist, c) := isDir env targ c in
          if ist then
            let chopped := String.length dir - i in
            if chopped =? String.length importPath + 1
            then Ok (vpath, [], c)
            else if String.length importPath <? chopped
            then Panic "slice bounds out of range"
            else Ok (upto (String.length importPath - chopped) importPath
                       +:+ "/" +:+ vpath, [], c)
          else vendorWalk env importPath path dir lenroot n'
                 (searched ++ [targ]) c
  end.

(** [vendoredImportPath] returns the expansion of [path] when it appears
    in [parent], or the original path and the vendor directories it
    searched.  It skips paths that match the patterns in [skipVendor]. *)
Definition vendoredImportPath (env : Env) (parent : option Package)
    (path : string) (c : gmap string bool)
  : Res (string * list string * gmap string bool) :=
  match parent with
  | None => Ok (path, [], c)
  | Some parent =>
      if existsb (fun match_ => match_ path) (skipVendor env)
      then Ok (path, [], c)
      else
        do b <- buildOf parent;
        let dir := filepath_Clean env (build.Dir b) in
        let root := filepath_Clean env (build.Root b) in
        if negb (HasPrefix dir root)
           || (String.length dir <=? String.length root)
           || negb (byteIs (String.length root) dir (Separator env))
        then Exit 1
        else if negb (inCWD env dir) then Ok (path, [], c)
        else vendorWalk env (build.ImportPath b) path dir (String.length root)
               (String.length dir - String.length root + 1) [] c
  end.

(** ** The collision detector *)

Definition MaxRune : Z := 1114111.
Definition RuneSelf : N := 128.

(** The inner loop of [toFold]: [SimpleFold] is iterated until it wraps
    around to a smaller value.  Every iteration but the last one yields a
    larger rune, so the fuel given by [toFold_slow] is enough for a
    [SimpleFold] whose values are at most [MaxRune]. *)
Fixpoint foldMin (env : Env) (fuel : nat) (r : Z) : Res Z :=
  match fuel with
  | O => OutOfFuel
  | S fuel' =>
      let r0 := r in
      let r := unicode_SimpleFold env r0 in
      if (r <=? r0)%Z then Ok r else foldMin env fuel' r
  end.

Definition isUpperASCII (c : N) : bool := (65 <=? c)%N && (c <=? 90)%N.

Fixpoint toFold_slow (env : Env) (runes : list Z) : Res string :=
  match runes with
  | [] => Ok EmptyString
  | r :: runes' =>
      do r <- foldMin env (S (Z.to_nat (MaxRune + 1 - r))) r;
      let r := if (65 <=? r)%Z && (r <=? 90)%Z then (r + 32)%Z else r in
      do rest <- toFold_slow env runes';
      Ok (utf8_encode env r +:+ rest)
  end.

(** [toFold] returns a string with the property that
    [strings.EqualFold(s, t)] iff [toFold(s) == toFold(t)]. *)
Definition toFold (env : Env) (s : string) : Res string :=
  if forallb (fun c => negb ((RuneSelf <=? N_of_ascii c)%N
                             || isUpperASCII (N_of_ascii c)))
             (String.list_ascii_of_string s)
  then Ok s
  else toFold_slow env (utf8_runes env s).

Fixpoint foldDup_loop (env : Env) (clash : gmap string string)
    (list : list string) : Res (string * string) :=
  match list with
  | [] => Ok (EmptyString, EmptyString)
  | s :: list' =>
      do fold <- toFold env s;
      let t := default EmptyString (clash !! fold) in
      if negb (String.eqb t EmptyString)
      then if String.ltb t s then Ok (t, s) else Ok (s, t)
      else foldDup_loop env (<[fold := s]> clash) list'
  end.

(** [foldDup] reports a pair of strings from the list that are equal
    according to [strings.EqualFold], or two empty strings. *)
Definition foldDup (env : Env) (list : list string) : Res (string * string) :=
  foldDup_loop env ∅ list.

(** [stringList] flattens its arguments into a single list. *)
Definition stringList (args : list (list string)) : list string := concat args.

Definition splitList (path : string) : list string :=
  if String.eqb path EmptyString then [] else SplitColon path.

(** [flagUPats]: one predicate for every pattern of the list [u]. *)
Definition flagUPats (env : Env) (u : string) : list (string -> bool) :=
  map (matchPattern env) (splitList u).

(** ** Stateful computations *)

Definition M (A : Type) : Type := State -> Res (A * State).

Definition ret {A} (a : A) : M A := fun s => Ok (a, s).

Definition bind {A B} (m : M A) (k : A -> M B) : M B :=
  fun s => do '(a, s') <- m s; k a s'.

Definition lift {A} (r : Res A) : M A := fun s => do a <- r; Ok (a, s).

Notation "'run' x <- m ; k" := (bind m (fun x => k))
  (at level 10, x name, m at level 100, k at level 200,
   format "'[v' 'run'  x  <-  m ; '/' k ']'").
Notation "m1 ;; m2" := (bind m1 (fun _ => m2))
  (at level 100, m2 at level 200, right associativity).

Definition setHeap (h : list Package) (s : State) : State :=
  {| packageCache := packageCache s; isDirCache := isDirCache s;
     heap := h; stk := stk s |}.

Definition setPackageCache (c : gmap string loc) (s : State) : State :=
  {| packageCache := c; isDirCache := isDirCache s;
     heap := heap s; stk := stk s |}.

Definition setIsDirCache (c : gmap string bool) (s : State) : State :=
  {| packageCache := packageCache s; isDirCache := c;
     heap := heap s; stk := stk s |}.

Definition setStk (k : importStack) (s : State) : State :=
  {| packageCache := packageCache s; isDirCache := isDirCache s;
     heap := heap s; stk := k |}.

(** Reading through the pointer [p]. *)
Definition load (p : loc) : M Package :=
  fun s => match heap s !! p with
           | Some pk => Ok (pk, s)
           | None => Panic "invalid pointer"
           end.

(** Writing through the pointer [p]. *)
Definition modify (p : loc) (f : Package -> Package) : M unit :=
  fun s => match heap s !! p with
           | Some pk => Ok (tt, setHeap (<[p := f pk]> (heap s)) s)
           | None => Panic "invalid pointer"
           end.

(** [new(Package)] *)
Definition alloc : M loc :=
  fun s => Ok (length (heap s), setHeap (heap s ++ [newPackage]) s).

(** The fields of the embedded [*build.Package] of [*p]. *)
Definition loadBuild (p : loc) : M build.Package :=
  run pk <- load p; lift (buildOf pk).

Definition stk_push (path : string) : M unit :=
  fun s => Ok (tt, setStk (push path (stk s)) s).

Definition stk_pop : M unit :=
  fun s => Ok (tt, setStk (pop (stk s)) s).

(** [stk.copy()] *)
Definition stk_copy : M (list string) := fun s => Ok (stk s, s).

(** [shortPath] returns an absolute or relative name for [path], whatever
    is shorter. *)
Definition shortPath (env : Env) (path : string) : string :=
  match filepath_Rel env (cwd env) path with
  | Some rel => if String.length rel <? String.length path then rel else path
  | None => path
  end.

(** The vendor directories that were searched are added to the message of
    [go/build] about a package that was not found. *)
Definition addVendorSearch (text : string) (vendorSearch : list string) : string :=
  if Contains text ("cannot find package " +:+ dquote)
     && Contains text (dquote +:+ " in any of:" +:+ String newline tab)
  then
    match SplitAfterNewline text with
    | old0 :: old1 =>
        JoinEmpty ([old0]
                   ++ map (fun dir => tab +:+ dir +:+ " (vendor tree)"
                                        +:+ String newline EmptyString)
                        vendorSearch
                   ++ old1)
    | [] => text
    end
  else text.

(** [p.Error = &PackageError{ImportStack: stk.copy(), Err: msg}] followed by
    [pos := p.Package.ImportPos[path]; if len(pos) > 0 { p.Error.Pos = pos[0].String() }] *)
Definition recordImportError (env : Env) (p : loc) (msg path : string) : M unit :=
  run stack <- stk_copy;
  modify p (setError (Some (mkError stack msg)));;
  run b <- loadBuild p;
  match default [] (build.ImportPos b !! path) with
  | pos0 :: _ =>
      modify p (fun pk => setError
        (option_map (setErrorPos (Position_String env pos0)) (Error pk)) pk)
  | [] => ret tt
  end.

(** The recursive loader that [loadDeps] calls back: [loadImport] with its
    arguments [path], [srcDir], [parent] and [importPos]. *)
Definition Loader : Type :=
  string -> string -> option loc -> list Position -> M loc.

(** [for _, dep := range p1.deps { deps[dep.ImportPath] = dep }] *)
Fixpoint mergeDeps (ds : list loc) (depsMap : gmap string loc)
  : M (gmap string loc) :=
  match ds with
  | [] => ret depsMap
  | dep :: ds' =>
      run b <- loadBuild dep;
      mergeDeps ds' (<[build.ImportPath b := dep]> depsMap)
  end.

(** The loop of [loadDeps] over [importPaths], from index [i] on.  The
    result is [None] when the body returned from [loadDeps], and the map
    [deps] when the loop ran to its end. *)
Fixpoint importLoop (env : Env) (loadImport : Loader) (p : loc) (i : nat)
    (importPaths : list string) (depsMap : gmap string loc)
  : M (option (gmap string loc)) :=
  match importPaths with
  | [] => ret (Some depsMap)
  | path :: rest =>
      if String.eqb path "C"
      then importLoop env loadImport p (S i) rest depsMap
      else if build.IsLocalImport path
      then
        recordImportError env p
          ("local import " +:+ Quote env path +:+ " in non-local package") path;;
        ret None
      else
        run b <- loadBuild p;
        run p1 <- loadImport path (build.Dir b) (Some p)
                    (default [] (build.ImportPos b !! path));
        run b1 <- loadBuild p1;
        (if String.eqb (build.Name b1) "main"
         then recordImportError env p
                ("import " +:+ Quote env path
                 +:+ " is a program, not an importable package") path
         else ret tt);;
        run b1 <- loadBuild p1;
        let path := build.ImportPath b1 in
        run b <- loadBuild p;
        (if i <? length (build.Imports b)
         then modify p (fun pk => setBuild (build.setImport i path b) pk)
         else ret tt);;
        run pk1 <- load p1;
        if Standard pk1
        then importLoop env loadImport p (S i) rest depsMap
        else
          run depsMap <- mergeDeps (deps pk1) (<[path := p1]> depsMap);
          importLoop env loadImport p (S i) rest depsMap
  end.

(** [for _, dep := range depPaths]: the packages are appended to [p.deps]
    and the errors of the dependencies are collected. *)
Fixpoint depsLoop (p : loc) (depsMap : gmap string loc) (depPaths : list string)
    (depErrors : list PackageError) : M (list PackageError) :=
  match depPaths with
  | [] => ret depErrors
  | dep :: depPaths' =>
      match depsMap !! dep with
      | None => fun _ => Panic "impossible: missing entry in package cache"
      | Some p1 =>
          modify p (fun pk => setDeps (deps pk ++ [p1]) pk);;
          run pk1 <- load p1;
          depsLoop p depsMap depPaths'
            match Error pk1 with
            | Some e => depErrors ++ [e]
            | None => depErrors
            end
      end
  end.

(** The order [<=] of Go strings. *)
Definition string_le (a b : string) : Prop := String.leb a b = true.

#[export] Instance string_le_dec : RelDecision string_le :=
  fun a b => decide (String.leb a b = true).

(** [sort.Strings] *)
Definition sortStrings (l : list string) : list string :=
  merge_sort string_le l.

(** The second half of [loadDeps], from [p.loadedDeps = true] on. *)
Definition finishDeps (env : Env) (p : loc) (depsMap : gmap string loc) : M unit :=
  modify p (setLoadedDeps true);;
  let depPaths := sortStrings ((map_to_list depsMap).*1) in
  run depErrors <- depsLoop p depsMap depPaths [];
  if length depErrors =? 0 then
    run dd <- lift (foldDup env depPaths);
    if negb (String.eqb (fst dd) EmptyString)
    then
      run stack <- stk_copy;
      modify p (setError (Some (mkError stack
        ("case-insensitive import collision: " +:+ Quote env (fst dd)
         +:+ " and " +:+ Quote env (snd dd)))))
    else ret tt
  else ret tt.

Definition allFiles (b : build.Package) : list string :=
  stringList [build.GoFiles b; build.CgoFiles b; build.IgnoredGoFiles b;
              build.CFiles b; build.CXXFiles b; build.MFiles b;
              build.HFiles b; build.SFiles b; build.SysoFiles b;
              build.SwigFiles b; build.SwigCXXFiles b;
              build.TestGoFiles b; build.XTestGoFiles b].

(** [loadDeps] loads the dependencies of [p]; it omits the standard
    library. *)
Definition loadDeps (env : Env) (loadImport : Loader) (p : loc)
    (err : option string) : M unit :=
  match err with
  | Some msg =>
      run stack <- stk_copy;
      modify p (setError (Some (mkError stack msg)))
  | None =>
      run b <- loadBuild p;
      let importPaths :=
        build.Imports b ++ build.TestImports b ++ build.XTestImports b in
      run ff <- lift (foldDup env (allFiles b));
      if negb (String.eqb (fst ff) EmptyString)
      then
        run stack <- stk_copy;
        modify p (setError (Some (mkError stack
          ("case-insensitive file name collision: " +:+ Quote env (fst ff)
           +:+ " and " +:+ Quote env (snd ff)))))
      else
        run r <- importLoop env loadImport p 0 importPaths ∅;
        match r with
        | None => ret tt
        | Some depsMap => finishDeps env p depsMap
        end
  end.

(** [vendoredImportPath(parent, path)] on the state. *)
Definition vendoredImportPathM (env : Env) (parent : option loc) (path : string)
  : M (string * list string) :=
  run parentPkg <- match parent with
                   | None => ret None
                   | Some l => run pk <- load l; ret (Some pk)
                   end;
  fun s =>
    do '(found, searched, c) <-
       vendoredImportPath env parentPkg path (isDirCache s);
    Ok ((found, searched), setIsDirCache c s).

(** The body of [loadImport] between [stk.push(path)] and the deferred
    [stk.pop()]. *)
Definition loadImport_body (env : Env) (rec : Loader) (path srcDir : string)
    (parent : option loc) (importPos : list Position) : M loc :=
  run vr <- vendoredImportPathM env parent path;
  let path := fst vr in
  let vendorSearch := snd vr in
  let importPath := path in
  fun s =>
  match packageCache s !! importPath with
  | Some p =>
      (run stack <- stk_copy;
       modify p (fun pk => reusePackage pk stack);;
       ret p) s
  | None =>
      (run p <- alloc;
       (fun s => Ok (tt, setPackageCache (<[importPath := p]> (packageCache s)) s));;
       let '(bp, err) := build_Import env path srcDir in
       let err :=
         match err with
         | Some text =>
             if 0 <? length vendorSearch
             then Some (addVendorSearch text vendorSearch)
             else Some text
         | None => None
         end in
       let bp := build.setImportPath importPath bp in
       let bp := if negb (String.eqb (gobin env) EmptyString)
                 then build.setBinDir (gobin env) bp else bp in
       let err :=
         match err with
         | None =>
             if negb (String.eqb (build.ImportComment bp) EmptyString)
                && negb (String.eqb (build.ImportComment bp) path)
                && negb (Contains path "/vendor/")
             then Some ("code in directory " +:+ build.Dir bp
                        +:+ " expects import "
                        +:+ Quote env (build.ImportComment bp))
             else None
         | Some text => Some text
         end in
       modify p (copyBuild bp);;
       run pk <- load p;
       if Standard pk then ret p
       else
         loadDeps env rec p err;;
         run pk <- load p;
         match Error pk, importPos with
         | Some e, pos :: _ =>
             let pos := {| Filename := shortPath env (Filename pos);
                           Offset := Offset pos; Line := Line pos;
                           Column := Column pos |} in
             modify p (setError (Some (setErrorPos (Position_String env pos) e)));;
             ret p
         | _, _ => ret p
         end) s
  end.

(** [loadImport] scans the directory named by [path], which must be an
    import path, and returns the package found there.  The recursion
    through [loadDeps] is bounded by [fuel]. *)
Fixpoint loadImport (env : Env) (fuel : nat) (path srcDir : string)
    (parent : option loc) (importPos : list Position) : M loc :=
  match fuel with
  | O => fun _ => OutOfFuel
  | S fuel' =>
      stk_push path;;
      run p <- loadImport_body env (loadImport env fuel') path srcDir
                 parent importPos;
      stk_pop;;
      ret p
  end.

(** [loadPackage] is like [loadImport] but is used for command-line
    arguments, not for paths found in import statements. *)
Definition loadPackage (env : Env) (fuel : nat) (arg : string) : M loc :=
  let arg :=
    if build.IsLocalImport arg then
      let bp := build_ImportDir env (filepath_Join env (cwd env) arg) in
      if negb (String.eqb (build.ImportPath bp) EmptyString)
         && negb (String.eqb (build.ImportPath bp) ".")
      then build.ImportPath bp else arg
    else arg in
  loadImport env fuel arg (cwd env) None [].

Fixpoint packages_loop (env : Env) (fuel : nat) (args : list string)
    (set : gmap string bool) (pkgs : list loc) : M (list loc) :=
  match args with
  | [] => ret pkgs
  | arg :: args' =>
      if default false (set !! arg)
      then packages_loop env fuel args' set pkgs
      else
        run p <- loadPackage env fuel arg;
        packages_loop env fuel args' (<[arg := true]> set) (pkgs ++ [p])
  end.

(** [packages] returns the packages named by the command line arguments
    [args]. *)
Definition packages (env : Env) (fuel : nat) (args : list string) : M (list loc) :=
  packages_loop env fuel args ∅ [].

(** ** The aggregator *)

(** [a[i].ImportPath] for a pointer of the heap. *)
Definition importPathOf (h : list Package) (l : loc) : string :=
  match h !! l with
  | Some pk =>
      match Package_ pk with
      | Some b => build.ImportPath b
      | None => EmptyString
      end
  | None => EmptyString
  end.

(** The order of [sort.Sort(byImportPath(deps))]. *)
Definition byImportPath (h : list Package) (a b : loc) : Prop :=
  string_le (importPathOf h a) (importPathOf h b).

#[export] Instance byImportPath_dec h : RelDecision (byImportPath h) :=
  fun a b => decide (String.leb (importPathOf h a) (importPathOf h b) = true).

(** [for _, d := range p.deps { if inCWD(d.Dir) { continue }; deps = append(deps, d) }] *)
Fixpoint externalDeps (env : Env) (ds : list loc) (acc : list loc) : M (list loc) :=
  match ds with
  | [] => ret acc
  | d :: ds' =>
      run b <- loadBuild d;
      if inCWD env (build.Dir b)
      then externalDeps env ds' acc
      else externalDeps env ds' (acc ++ [d])
  end.

Fixpoint dependencies_loop (env : Env) (packages : list loc) (acc : list loc)
  : M (list loc) :=
  match packages with
  | [] => ret acc
  | p :: packages' =>
      run pk <- load p;
      run acc <- externalDeps env (deps pk) acc;
      dependencies_loop env packages' acc
  end.

(** [dependencies] returns the list of dependencies of the given packages,
    excluding any from [cwd] or the standard library. *)
Definition dependencies (env : Env) (packages : list loc) : M (list loc) :=
  run acc <- dependencies_loop env packages [];
  fun s => Ok (merge_sort (byImportPath (heap s)) acc, s).

(** The loop of [main] over [append(roots, deps...)]: [ok] stays true when
    no package has an error and none is in the standard library. *)
Fixpoint checkLoaded (pkgs : list loc) (ok : bool) : M bool :=
  match pkgs with
  | [] => ret ok
  | pkg :: pkgs' =>
      run pk <- load pkg;
      let ok := match Error pk with Some _ => false | None => ok end in
      let ok := if Standard pk then false else ok in
      checkLoaded pkgs' ok
  end.

(** The first two steps of [main]: load the roots, then aggregate. *)
Definition resolve (env : Env) (fuel : nat) (args : list string)
  : M (list loc * list loc) :=
  run roots <- packages env fuel args;
  run ds <- dependencies env roots;
  ret (roots, ds).

(** ** Messages and the end of [main] *)

(** [strings.Join(a, sep)] *)
Fixpoint Join (a : list string) (sep : string) : string :=
  match a with
  | [] => EmptyString
  | x :: a' =>
      match a' with
      | [] => x
      | _ :: _ => x +:+ sep +:+ Join a' sep
      end
  end.

(** The separator of the import stack in a message: a newline, a tab and
    the word imports. *)
Definition importsSep : string := String newline tab +:+ "imports ".

(** The method [Error] of a [PackageError]: the message that [main]
    prints. *)
Definition PackageError_Error (p : PackageError) : string :=
  if isImportCycle p
  then Err p +:+ String newline "package " +:+ Join (ImportStack p) importsSep
       +:+ String newline EmptyString
  else if negb (String.eqb (Pos p) EmptyString)
  then Pos p +:+ ": " +:+ Err p
  else if length (ImportStack p) =? 0
  then Err p
  else "package " +:+ Join (ImportStack p) importsSep +:+ ": " +:+ Err p.

(** The last loop of [main]: [copied] collects the packages that [copyDep]
    is called with. *)
Fixpoint copyLoop (ds : list loc) (seen : list string) (copied : list loc)
  : M (list loc) :=
  match ds with
  | [] => ret copied
  | pkg :: ds' =>
      run pk <- load pkg;
      run sn <- lift (isSeen pk seen);
      if sn then copyLoop ds' seen copied
      else
        run b <- lift (buildOf pk);
        copyLoop ds' (seen ++ [build.ImportPath b]) (copied ++ [pkg])
  end.

(** [main], from the call of [packages] on: [args] is what
    [matchPackagesInFS] returned, and the result is the list of the
    packages that are copied. *)
Definition main (env : Env) (fuel : nat) (args : list string) : M (list loc) :=
  run roots <- packages env fuel args;
  run ds <- dependencies env roots;
  run ok <- checkLoaded (roots ++ ds) true;
  if negb ok then fun _ => Exit 1
  else copyLoop ds [] [].

(** ** Notions used in the statements *)

(** The order on import stacks in the words of the specification: the
    shorter stack is smaller, and stacks of the same length are compared at
    the first position where they differ. *)
Inductive stack_lt : list string -> list string -> Prop :=
| stack_lt_length s t : length s < length t -> stack_lt s t
| stack_lt_tie pre a b s t :
    length s = length t -> String.ltb a b = true ->
    stack_lt (pre ++ a :: s) (pre ++ b :: t).

(** A package that is found in the cache again and again, with the stacks
    [stks] in turn. *)
Definition reuseAll (p : Package) (stks : list importStack) : Package :=
  fold_left reusePackage stks p.

(** The memo table agrees with the file system. *)
Definition coherent (env : Env) (c : gmap string bool) : Prop :=
  forall k v, c !! k = Some v -> v = os_Stat_IsDir env k.

(** [i] is a path-segment boundary of [dir]: its end, or the index of a
    separator. *)
Definition boundary (env : Env) (dir : string) (i : nat) : bool :=
  negb ((i <? String.length dir) && negb (byteIs i dir (Separator env))).

(** The directory [dir[:i]] has a [vendor] directory. *)
Definition hasVendor (env : Env) (dir : string) (i : nat) : bool :=
  os_Stat_IsDir env (filepath_Join env (upto i dir) "vendor").

(** The candidate [dir[:i]/vendor/path]. *)
Definition candidate (env : Env) (dir path : string) (i : nat) : string :=
  filepath_Join env (upto i dir) ("vendor/" +:+ path).

(** [dir[:i]/vendor/path] is an existing directory, in an existing
    [vendor] directory, at a boundary. *)
Definition vendorCopyAt (env : Env) (dir path : string) (i : nat) : bool :=
  boundary env dir i && hasVendor env dir i
  && os_Stat_IsDir env (candidate env dir path i).

(** The indices from [len(dir)] down to [len(root)]. *)
Definition walkIndices (lenroot lendir : nat) : list nat :=
  rev (seq lenroot (lendir - lenroot + 1)).

(** The candidates that the walk notes on its last [n] indices, the
    deepest first: those at a boundary whose [vendor] directory exists. *)
Definition notedCandidates (env : Env) (dir path : string) (lenroot n : nat)
  : list string :=
  map (candidate env dir path)
    (List.filter (fun i => boundary env dir i && hasVendor env dir i)
       (rev (seq lenroot n))).

(** The import path of the vendor copy found at index [i]: the import path
    of the parent without its last [len(dir) - i] bytes, followed by
    "/vendor/" and [path]; or "vendor/" and [path] when [len(dir) - i] is
    the length of the import path plus one. *)
Definition expansion (importPath path dir : string) (i : nat) : string :=
  let chopped := String.length dir - i in
  if chopped =? String.length importPath + 1 then "vendor/" +:+ path
  else upto (String.length importPath - chopped) importPath
       +:+ "/" +:+ "vendor/" +:+ path.

(** The check of [vendoredImportPath] on [dir] and [root] passes. *)
Definition underRoot (env : Env) (dir root : string) : bool :=
  HasPrefix dir root
  && (String.length root <? String.length dir)
  && byteIs (String.length root) dir (Separator env).

(** [unicode.SimpleFold] yields runes, and leaves alone what is not a
    rune. *)
Definition SimpleFold_bounded (env : Env) : Prop :=
  forall r, (unicode_SimpleFold env r <= Z.max r MaxRune)%Z.


(** The fields of a [build.Package] that the loader never writes. *)
Definition static (b : build.Package)
  : string * string * string * string * bool :=
  (build.Dir b, build.Root b, build.ImportPath b, build.Name b, build.Goroot b).

(** The condition of [copyBuild] for the standard library. *)
Definition isStandard (b : build.Package) : bool :=
  build.Goroot b
  && negb (String.eqb (build.ImportPath b) EmptyString)
  && negb (Contains (build.ImportPath b) ".").

(** What holds of every package of the heap between two calls of the
    loader. *)
Definition wf_package (pk : Package) : Prop :=
  forall b, Package_ pk = Some b ->
    Standard pk = isStandard b /\
    (Standard pk = true ->
       deps pk = [] /\ loadedDeps pk = false /\ Error pk = None).

Definition wf (s : State) : Prop :=
  forall l pk, heap s !! l = Some pk -> wf_package pk.

(** What a call of the loader keeps of a package that exists already. *)
Record frame (pk pk' : Package) : Prop := {
  frame_build : option_map static (Package_ pk') = option_map static (Package_ pk);
  frame_Standard : Standard pk' = Standard pk;
  frame_Error : Error pk <> None -> Error pk' <> None
}.

(** What a call of the loader keeps of the state. *)
Record ext (s s' : State) : Prop := {
  ext_stk : stk s' = stk s;
  ext_cache : packageCache s ⊆ packageCache s';
  ext_frame : forall l pk, heap s !! l = Some pk ->
      exists pk', heap s' !! l = Some pk' /\ frame pk pk'
}.

(** A computation that writes to the package at [p] only, and keeps its
    frame. *)
Definition local {A} (p : loc) (m : M A) : Prop :=
  forall s pk a s', heap s !! p = Some pk -> m s = Ok (a, s') ->
    exists pk', s' = setHeap (<[p := pk']> (heap s)) s /\ frame pk pk'.

(** The effective import path of [path] in a parent with the
    [build.Package] [b], and the candidates searched, on the file system
    itself. *)
Definition effectivePath (env : Env) (b : build.Package) (path : string)
  : Res (string * list string) :=
  do r <- vendoredImportPath env (Some (setBuild b newPackage)) path ∅;
  Ok (fst r).

(** The parent of a call of the loader, as a package. *)
Definition parentOf (s : State) (parent : option loc) : option Package :=
  match parent with
  | Some l => heap s !! l
  | None => None
  end.

(** What a call [rec path srcDir parent importPos] of a loader that
    returns [l] guarantees: the invariants, the frame, and that the cache
    has [l] under the effective import path. *)
Definition loader_ok (env : Env) (rec : Loader) : Prop :=
  forall path srcDir parent importPos s l s',
    wf s -> coherent env (isDirCache s) ->
    rec path srcDir parent importPos s = Ok (l, s') ->
    wf s' /\ coherent env (isDirCache s') /\ ext s s'
    /\ exists eff searched c,
         vendoredImportPath env (parentOf s parent) path (isDirCache s)
         = Ok (eff, searched, c)
         /\ packageCache s' !! eff = Some l.

(** The error of the package at a pointer. *)
Definition errorOf (h : list Package) (l : loc) : option PackageError :=
  match h !! l with
  | Some pk => Error pk
  | None => None
  end.

(** The package at a pointer carries an error. *)
Definition hasError (h : list Package) (l : loc) : bool :=
  match errorOf h l with
  | Some _ => true
  | None => false
  end.

(** The package at a pointer is in the standard library. *)
Definition standardAt (h : list Package) (l : loc) : bool :=
  match h !! l with
  | Some pk => Standard pk
  | None => false
  end.

(** The package at [l] has its [build.Package], and if it is a program,
    the package at [p] carries an error. *)
Definition resolvedFor (h : list Package) (p l : loc) : Prop :=
  exists pk1 b1, h !! l = Some pk1 /\ Package_ pk1 = Some b1
    /\ (build.Name b1 = "main" -> hasError h p = true).

(** Every import [x] of [importPaths] that is not "C", with no local
    import before it or at it, has been resolved for the package at [p]:
    the cache has a package under its effective import path. *)
Definition attempted (env : Env) (b : build.Package) (importPaths : list string)
    (p : loc) (s : State) : Prop :=
  forall pre x post, importPaths = pre ++ x :: post ->
    (forall z, z ∈ pre ++ [x] -> build.IsLocalImport z = false) ->
    x <> "C" ->
    exists eff searched l,
      effectivePath env b x = Ok (eff, searched)
      /\ packageCache s !! eff = Some l
      /\ resolvedFor (heap s) p l.

(** The loop over [importPaths] has stopped at the first local import,
    with an error of the package at [p]. *)
Definition stopped (h : list Package) (p : loc) (importPaths : list string)
    (r : option (gmap string loc)) : Prop :=
  forall pre x post, importPaths = pre ++ x :: post ->
    (forall z, z ∈ pre -> build.IsLocalImport z = false) ->
    build.IsLocalImport x = true ->
    r = None /\ hasError h p = true.


(** The dependencies of the package at [p], and the directory of the
    package at [d]. *)
Definition depsAt (h : list Package) (p : loc) : list loc :=
  match h !! p with
  | Some pk => deps pk
  | None => []
  end.

Definition dirOf (h : list Package) (d : loc) : string :=
  match h !! d with
  | Some pk =>
      match Package_ pk with
      | Some b => build.Dir b
      | None => EmptyString
      end
  | None => EmptyString
  end.

(** The dependency at [d] is not in the working directory. *)
Definition external (env : Env) (h : list Package) (d : loc) : bool :=
  negb (inCWD env (dirOf h d)).

(** The pointer [d] is valid and its package has its [build.Package]. *)
Definition validDep (h : list Package) (d : loc) : bool :=
  match h !! d with
  | Some pkd => match Package_ pkd with Some _ => true | None => false end
  | None => false
  end.

(** Every pointer that [dependencies] follows is valid. *)
Definition validRoots (h : list Package) (roots : list loc) : bool :=
  forallb (fun p =>
    match h !! p with
    | Some pk => forallb (validDep h) (deps pk)
    | None => false
    end) roots.

(** The error that [loadDeps] records for the import [path] of the package
    with the [build.Package] [b], with the message [msg]. *)
Definition importError (env : Env) (b : build.Package) (stack : list string)
    (msg path : string) : PackageError :=
  {| ImportStack := stack;
     Pos := match default [] (build.ImportPos b !! path) with
            | pos0 :: _ => Position_String env pos0
            | [] => EmptyString
            end;
     Err := msg; isImportCycle := false; hard := false |}.

(** The arguments of [packages] without the repetitions: [seen] are the
    arguments before. *)
Fixpoint firstOccurrences (seen args : list string) : list string :=
  match args with
  | [] => []
  | a :: args' =>
      if bool_decide (a ∈ seen) then firstOccurrences seen args'
      else a :: firstOccurrences (a :: seen) args'
  end.

(** ** A small workspace for examples *)

Module Fixture.

Definition mkBuild (dir name importPath root : string) (goroot : bool)
    (files imports testImports xtestImports : list string) : build.Package :=
  {| build.Dir := dir; build.Name := name;
     build.ImportComment := EmptyString;
     build.ImportPath := importPath; build.Root := root;
     build.BinDir := EmptyString; build.Goroot := goroot;
     build.GoFiles := files; build.CgoFiles := [];
     build.IgnoredGoFiles := []; build.CFiles := []; build.CXXFiles := [];
     build.MFiles := []; build.HFiles := []; build.SFiles := [];
     build.SwigFiles := []; build.SwigCXXFiles := [];
     build.SysoFiles := [];
     build.Imports := imports; build.ImportPos := ∅;
     build.TestGoFiles := []; build.TestImports := testImports;
     build.XTestGoFiles := []; build.XTestImports := xtestImports |}.

(** A package of the workspace [/g], with one file. *)
Definition gopkg (path name : string) (imports : list string)
  : string * build.Package :=
  (path, mkBuild ("/g/src/" +:+ path) name path "/g" false
           [name +:+ ".go"] imports [] []).

(** A package of the Go root [/go]. *)
Definition stdpkg (path : string) (imports : list string)
  : string * build.Package :=
  (path, mkBuild ("/go/src/" +:+ path) path path "/go" true
           [path +:+ ".go"] imports [] []).

Definition notFound (path : string) : build.Package * option string :=
  (mkBuild EmptyString EmptyString path EmptyString false [] [] [] [],
   Some ("cannot find package " +:+ dquote +:+ path +:+ dquote
         +:+ " in any of:" +:+ String newline tab
         +:+ "/g/src/" +:+ path +:+ " (from $GOPATH)")).

Definition lookupPkg (table : list (string * build.Package)) (path : string)
  : build.Package * option string :=
  match list_find (fun e => fst e = path) table with
  | Some (_, (_, b)) => (b, None)
  | None => notFound path
  end.

(** Case folding on the letters of ASCII. *)
Definition asciiFold (r : Z) : Z :=
  if (65 <=? r)%Z && (r <=? 90)%Z then (r + 32)%Z
  else if (97 <=? r)%Z && (r <=? 122)%Z then (r - 32)%Z
  else r.

(** The clean form of the empty path is ".". *)
Definition clean (s : string) : string :=
  if String.eqb s EmptyString then "." else s.

(** A Unix workspace: the working directory, the update patterns, the
    directories that exist, and the packages that [go/build] finds. *)
Definition workspace (wd : string) (skip : list (string -> bool))
    (dirs : list string) (table : list (string * build.Package)) : Env :=
  {| cwd := wd; gobin := EmptyString; skipVendor := skip;
     Separator := "/"%char;
     filepath_Clean := clean;
     filepath_Join := fun a b => a +:+ "/" +:+ b;
     filepath_Rel := fun _ _ => None;
     os_Stat_IsDir := fun d => bool_decide (d ∈ dirs);
     build_Import := fun path _ => lookupPkg table path;
     build_ImportDir := fun _ =>
       mkBuild EmptyString EmptyString EmptyString EmptyString false
         [] [] [] [];
     Position_String := fun p => Filename p;
     Quote := fun s => dquote +:+ s +:+ dquote;
     unicode_SimpleFold := asciiFold;
     utf8_runes := fun s =>
       map (fun c => Z.of_N (N_of_ascii c)) (String.list_ascii_of_string s);
     utf8_encode := fun r => String (ascii_of_N (Z.to_N r)) EmptyString;
     matchPattern := String.eqb |}.

(** The same environment with another [go/build]. *)
Definition withImport
    (imp : string -> string -> build.Package * option string) (env : Env)
  : Env :=
  {| cwd := cwd env; gobin := gobin env; skipVendor := skipVendor env;
     Separator := Separator env; filepath_Clean := filepath_Clean env;
     filepath_Join := filepath_Join env; filepath_Rel := filepath_Rel env;
     os_Stat_IsDir := os_Stat_IsDir env; build_Import := imp;
     build_ImportDir := build_ImportDir env;
     Position_String := Position_String env; Quote := Quote env;
     unicode_SimpleFold := unicode_SimpleFold env;
     utf8_runes := utf8_runes env; utf8_encode := utf8_encode env;
     matchPattern := matchPattern env |}.

(** A loaded package, as a value. *)
Definition loaded (b : build.Package) (ds : list loc) : Package :=
  {| Package_ := Some b; Standard := false; Error := None;
     loadedDeps := true; deps := ds |}.

(** The import paths of a list of pointers. *)
Definition names (s : State) (ps : list loc) : list string :=
  map (importPathOf (heap s)) ps.

(** The error message of the package at a pointer. *)
Definition errorAt (s : State) (p : loc) : option string :=
  match heap s !! p with
  | Some pk => option_map Err (Error pk)
  | None => None
  end.

(** Nested vendor directories: [a/vendor/d] and [a/b/vendor/d]. *)
Definition nestedEnv : Env :=
  workspace "/g/src/a" []
    ["/g/src/a/vendor"; "/g/src/a/vendor/d";
     "/g/src/a/b/vendor"; "/g/src/a/b/vendor/d"] [].

Definition pkg_ab : Package := loaded (snd (gopkg "a/b" "b" ["d"])) [].

(** A vendor directory in the workspace itself, above [src]. *)
Definition gopathVendorEnv : Env :=
  workspace "/g/src/p" [] ["/g/vendor"; "/g/vendor/d"] [].

Definition pkg_p : Package := loaded (snd (gopkg "p" "p" ["d"])) [].

(** A working directory outside of every workspace: [go/build] gives the
    package at "/w/p" no root. *)
Definition outsideEnv : Env :=
  workspace "/w/p" [] ["/w/p/vendor"; "/w/p/vendor/d"] [].

Definition pkg_local : Package :=
  loaded (mkBuild "/w/p" "p" "./." EmptyString false ["p.go"] ["d"] [] []) [].

(** The vendored dependency [d] is named by the update pattern "d". *)
Definition updateEnv : Env :=
  workspace "/g/src/p" [String.eqb "d"]
    ["/g/src/p/vendor"; "/g/src/p/vendor/d"]
    [gopkg "p" "p" ["d"]; gopkg "d" "d" []; gopkg "p/vendor/d" "d" []].



(** The package [p] imports "Foo" and "foo".  Here is the state in which
    [loadImport] hands [p] to [loadDeps], and the outcome of the loop
    over its imports. *)
Definition caseTable : list (string * build.Package) :=
  [gopkg "p" "p" ["Foo"; "foo"]; gopkg "Foo" "foo" []; gopkg "foo" "foo" []].

Definition caseEnv : Env := workspace "/g/src/p" [] [] caseTable.







(** Two roots in the working directory that share the dependency [d]. *)
Definition twoRootsEnv : Env :=
  workspace "/g/src/p" [] []
    [gopkg "p/a" "a" ["d"]; gopkg "p/b" "b" ["d"]; gopkg "d" "d" []].

Definition twoRootsState : State :=
  match packages twoRootsEnv 3 ["p/a"; "p/b"] initState with
  | Ok (_, s) => s
  | _ => initState
  end.

(** The import cycle [p -> q -> p]. *)
Definition cycleEnv : Env :=
  workspace "/g/src/p" [] [] [gopkg "p" "p" ["q"]; gopkg "q" "q" ["p"]].

(** The root [r] imports [a] and [b], and both import [d]. *)
Definition diamondEnv : Env :=
  workspace "/g/src/r" [] []
    [gopkg "r" "r" ["a"; "b"]; gopkg "a" "a" ["d"]; gopkg "b" "b" ["d"];
     gopkg "d" "d" []].

(** The package [p] imports "x", which does not exist, and "d".  Here is
    the state in which [loadImport] hands [p] to [loadDeps], and the
    state in which [loadDeps] returns. *)
Definition siblingEnv : Env :=
  workspace "/g/src/p" [] [] [gopkg "p" "p" ["x"; "d"]; gopkg "d" "d" []].

Definition siblingPkg : build.Package := snd (gopkg "p" "p" ["x"; "d"]).

Definition siblingState : State :=
  {| packageCache := {["p" := 0]}; isDirCache := ∅;
     heap := [copyBuild siblingPkg newPackage]; stk := ["p"] |}.

Definition siblingResult : State :=
  match loadDeps siblingEnv (loadImport siblingEnv 2) 0 None siblingState with
  | Ok (_, s) => s
  | _ => initState
  end.

(** The package [p] imports "./x" and "d". *)
Definition localEnv : Env :=
  workspace "/g/src/p" [] [] [gopkg "p" "p" ["./x"; "d"]; gopkg "d" "d" []].

(** The state in which the loader returns the package for "x" to the loop
    of [loadDeps], and that package. *)
Definition siblingCall : State :=
  match loadImport siblingEnv 2 "x" "/g/src/p" (Some 0) []
          siblingState with
  | Ok (_, s) => s
  | _ => initState
  end.

Definition siblingFailed : Package :=
  default newPackage (heap siblingCall !! 1).

(** The package [p] of [localEnv] and the state in which [loadImport] hands
    it to [loadDeps]. *)
Definition localPkg : build.Package :=
  snd (gopkg "p" "p" ["./x"; "d"]).

Definition localState : State :=
  {| packageCache := {["p" := 0]}; isDirCache := ∅;
     heap := [copyBuild localPkg newPackage]; stk := ["p"] |}.

(** The package [fmt] of the Go root imports [os]. *)
Definition stdEnv : Env :=
  workspace "/g/src/p" [] [] [stdpkg "fmt" ["os"]; stdpkg "os" []].

(** The package [p] imports [d]; the directory [p/vendor/d] exists and has
    no source files. *)
Definition emptyVendorEnv : Env :=
  withImport
    (fun path _ =>
       if String.eqb path "p/vendor/d"
       then (mkBuild "/g/src/p/vendor/d" EmptyString "p/vendor/d" "/g"
               false [] [] [] [],
             Some "no buildable Go source files in /g/src/p/vendor/d")
       else lookupPkg [gopkg "p" "p" ["d"]; gopkg "d" "d" []] path)
    (workspace "/g/src/p" [] ["/g/src/p/vendor"; "/g/src/p/vendor/d"] []).

(** Three loaded packages: [foo], [foo/bar] and [foobar]. *)
Definition copyState : State :=
  {| packageCache := ∅; isDirCache := ∅;
     heap := [loaded (snd (gopkg "foo" "foo" [])) [];
              loaded (snd (gopkg "foo/bar" "bar" [])) [];
              loaded (snd (gopkg "foobar" "foobar" [])) []];
     stk := [] |}.

(** The package [p] in the working directory imports [d]. *)
Definition oneDepEnv : Env :=
  workspace "/g/src/p" [] []
    [gopkg "p" "p" ["d"]; gopkg "d" "d" []].

Definition oneDepState : State :=
  match packages oneDepEnv 3 ["p"] initState with
  | Ok (_, s) => s
  | _ => initState
  end.

End Fixture.

(** * Properties *)

(** ** Byte strings *)

Lemma app_string_cons (c : ascii) (a b : string) :
  String c a +:+ b = String c (a +:+ b).
Proof. reflexivity. Qed.

Lemma prefix_app_iff (p s : string) :
  String.prefix p s = true <-> exists r, s = p +:+ r.
Proof.
  revert s. induction p as [|c p IH]; intros s; simpl.
  - destruct s; simpl; split; eauto.
  - destruct s as [|d s]; simpl.
    + split; [discriminate | intros [r Hr]; discriminate].
    + destruct (ascii_dec c d) as [->|Hne].
      * rewrite IH. split; intros [r Hr]; exists r;
          rewrite ?app_string_cons in *; congruence.
      * split; [discriminate | intros [r Hr]].
        rewrite app_string_cons in Hr. congruence.
Qed.

Lemma length_app_string (a b : string) :
  String.length (a +:+ b) = String.length a + String.length b.
Proof.
  induction a as [|c a IH]; [reflexivity|].
  rewrite app_string_cons. simpl. rewrite IH. reflexivity.
Qed.

Lemma upto_app (p r : string) : upto (String.length p) (p +:+ r) = p.
Proof.
  unfold upto. induction p as [|c p IH].
  - destruct r; reflexivity.
  - rewrite app_string_cons. simpl. f_equal. exact IH.
Qed.

Lemma byteIs_app (p r : string) (c : ascii) :
  byteIs (String.length p) (p +:+ r) c = true <-> exists r', r = String c r'.
Proof.
  unfold byteIs. induction p as [|d p IH].
  - destruct r as [|e r]; simpl.
    + split; [discriminate | intros [r' Hr]; discriminate].
    + rewrite Ascii.eqb_eq. split; [intros ->; eauto | intros [r' Hr]; congruence].
  - rewrite app_string_cons. simpl. exact IH.
Qed.

Lemma app_string_assoc (a b c : string) : (a +:+ b) +:+ c = a +:+ (b +:+ c).
Proof.
  induction a as [|d a IH]; [reflexivity|].
  rewrite !app_string_cons. congruence.
Qed.

Lemma app_string_nil_r (a : string) : a +:+ EmptyString = a.
Proof.
  induction a as [|d a IH]; [reflexivity|].
  rewrite app_string_cons. congruence.
Qed.

Lemma length_zero_string (a : string) : String.length a = 0 -> a = EmptyString.
Proof. destruct a; simpl; [auto | discriminate]. Qed.

Lemma hasPathPrefix_spec (s p : string) :
  hasPathPrefix s p = true <->
  s = p \/ HasPrefix s (p +:+ "/") = true
  \/ (lastIs p slash = true /\ HasPrefix s p = true).
Proof.
  unfold hasPathPrefix, HasPrefix.
  destruct (Nat.eqb_spec (String.length s) (String.length p)) as [Hlen|Hlen].
  - rewrite String.eqb_eq. split; [auto|].
    intros [H|[H|[_ H]]]; [auto| |].
    + apply prefix_app_iff in H as [r ->].
      rewrite !length_app_string in Hlen. cbn in Hlen. lia.
    + apply prefix_app_iff in H as [r ->].
      rewrite length_app_string in Hlen.
      assert (r = EmptyString) as -> by (apply length_zero_string; lia).
      apply app_string_nil_r.
  - destruct (Nat.ltb_spec (String.length p) (String.length s)) as [Hlt|Hge].
    + destruct (negb (String.eqb p EmptyString) && lastIs p slash) eqn:Hlast.
      * apply andb_true_iff in Hlast as [_ Hlast].
        split; [auto|]. intros [->|[H|[_ H]]]; [lia| |auto].
        apply prefix_app_iff in H as [r ->]. apply prefix_app_iff.
        exists ("/" +:+ r). apply app_string_assoc.
      * assert (lastIs p slash = false) as Hl.
        { destruct p; [reflexivity|]. simpl in Hlast. exact Hlast. }
        rewrite andb_true_iff, String.eqb_eq. split.
        -- intros [Hb Hu]. right; left. apply prefix_app_iff.
           assert (String.prefix p s = true) as Hp
             by (apply String.prefix_correct; exact Hu).
           apply prefix_app_iff in Hp as [r ->].
           apply byteIs_app in Hb as [r' ->]. exists r'.
           symmetry. apply app_string_assoc.
        -- intros [->|[H|[H _]]]; [lia| |congruence].
           apply prefix_app_iff in H as [r ->].
           rewrite app_string_assoc. split.
           ++ apply byteIs_app. cbn. eauto.
           ++ apply upto_app.
    + split; [discriminate|]. intros [->|[H|[_ H]]]; [lia| |].
      * apply prefix_app_iff in H as [r ->].
        rewrite !length_app_string in Hge. cbn in Hge. lia.
      * apply prefix_app_iff in H as [r ->].
        rewrite length_app_string in Hge, Hlen. lia.
Qed.

(** ** The order of Go strings *)
Lemma ascii_compare_refl (a : ascii) : Ascii.compare a a = Eq.
Proof. unfold Ascii.compare. apply N.compare_refl. Qed.

Lemma ascii_compare_lt_trans (a b c : ascii) :
  Ascii.compare a b = Lt -> Ascii.compare b c = Lt -> Ascii.compare a c = Lt.
Proof.
  unfold Ascii.compare. rewrite !N.compare_lt_iff. lia.
Qed.

Lemma string_compare_refl (s : string) : String.compare s s = Eq.
Proof.
  induction s as [|c s IH]; simpl; [reflexivity|].
  rewrite ascii_compare_refl. exact IH.
Qed.

Lemma string_compare_lt_trans (a b c : string) :
  String.compare a b = Lt -> String.compare b c = Lt -> String.compare a c = Lt.
Proof.
  revert b c. induction a as [|x a IH]; intros [|y b] [|z c]; simpl;
    try discriminate; try reflexivity.
  destruct (Ascii.compare x y) eqn:Hxy; try discriminate;
  destruct (Ascii.compare y z) eqn:Hyz; try discriminate; intros H1 H2.
  - apply Ascii.compare_eq_iff in Hxy, Hyz. subst.
    rewrite ascii_compare_refl. eauto.
  - apply Ascii.compare_eq_iff in Hxy. subst. rewrite Hyz. reflexivity.
  - apply Ascii.compare_eq_iff in Hyz. subst. rewrite Hxy. reflexivity.
  - rewrite (ascii_compare_lt_trans _ _ _ Hxy Hyz). reflexivity.
Qed.

Lemma string_ltb_irrefl (s : string) : String.ltb s s = false.
Proof. unfold String.ltb. rewrite string_compare_refl. reflexivity. Qed.

Lemma string_ltb_trans (a b c : string) :
  String.ltb a b = true -> String.ltb b c = true -> String.ltb a c = true.
Proof.
  unfold String.ltb.
  destruct (String.compare a b) eqn:Hab; try discriminate.
  destruct (String.compare b c) eqn:Hbc; try discriminate.
  rewrite (string_compare_lt_trans _ _ _ Hab Hbc). reflexivity.
Qed.

Lemma string_ltb_total (a b : string) :
  a = b \/ String.ltb a b = true \/ String.ltb b a = true.
Proof.
  unfold String.ltb. rewrite (String.compare_antisym b a).
  destruct (String.compare a b) eqn:Hab; simpl; auto.
  left. apply String.compare_eq_iff. exact Hab.
Qed.

Lemma string_ltb_asym (a b : string) :
  String.ltb a b = true -> String.ltb b a = false.
Proof.
  unfold String.ltb. rewrite (String.compare_antisym b a).
  destruct (String.compare a b); simpl; congruence.
Qed.

Lemma string_leb_ltb (a b : string) : String.leb a b = negb (String.ltb b a).
Proof.
  unfold String.leb, String.ltb. rewrite (String.compare_antisym b a).
  destruct (String.compare a b); reflexivity.
Qed.

#[export] Instance string_le_total : Total string_le.
Proof. intros a b. unfold string_le. apply String.leb_total. Qed.

#[export] Instance string_le_trans : Transitive string_le.
Proof.
  intros a b c. unfold string_le. rewrite !string_leb_ltb, !negb_true_iff.
  intros Hba Hcb.
  destruct (String.ltb c a) eqn:Hca; [|reflexivity].
  destruct (string_ltb_total a b) as [->|[Hab|Hab]]; try congruence.
  rewrite (string_ltb_trans _ _ _ Hca Hab) in Hcb. discriminate.
Qed.

#[export] Instance string_le_antisym : AntiSymm eq string_le.
Proof. intros a b. unfold string_le. apply String.leb_antisym. Qed.

Lemma shorterThan_ties_spec (s t : list string) :
  length s = length t ->
  shorterThan_ties s t = true <->
  exists pre a b s' t', s = pre ++ a :: s' /\ t = pre ++ b :: t'
                        /\ length s' = length t' /\ String.ltb a b = true.
Proof.
  revert t. induction s as [|x s IH]; intros [|y t] Hlen; simpl in *; try lia.
  - split; [discriminate|]. intros (pre & a & b & s' & t' & H & _).
    destruct pre; discriminate.
  - destruct (String.eqb_spec x y) as [->|Hne]; simpl.
    + rewrite IH by lia. split.
      * intros (pre & a & b & s' & t' & -> & -> & Hl & Hab).
        exists (y :: pre), a, b, s', t'. auto.
      * intros (pre & a & b & s' & t' & Hs & Ht & Hl & Hab).
        destruct pre as [|z pre]; simpl in *.
        -- inversion Hs; inversion Ht; subst.
           rewrite string_ltb_irrefl in Hab. discriminate.
        -- inversion Hs; inversion Ht; subst.
           exists pre, a, b, s', t'. auto.
    + split.
      * intros Hxy. exists [], x, y, s, t. simpl. repeat split; auto; lia.
      * intros (pre & a & b & s' & t' & Hs & Ht & Hl & Hab).
        destruct pre as [|z pre]; simpl in *.
        -- inversion Hs; inversion Ht; subst. exact Hab.
        -- inversion Hs; inversion Ht; subst. congruence.
Qed.

Lemma shorterThan_stack_lt (s t : list string) :
  shorterThan s t = true <-> stack_lt s t.
Proof.
  unfold shorterThan.
  destruct (Nat.eqb_spec (length s) (length t)) as [Hlen|Hlen]; simpl.
  - rewrite shorterThan_ties_spec by exact Hlen. split.
    + intros (pre & a & b & s' & t' & -> & -> & Hl & Hab).
      apply stack_lt_tie; auto.
    + intros H. destruct H as [s t Hlt|pre a b s' t' Hl Hab]; [lia|].
      eauto 10.
  - rewrite Nat.ltb_lt. split.
    + apply stack_lt_length.
    + intros H. destruct H as [s t Hlt|pre a b s' t' Hl Hab]; [lia|].
      rewrite !length_app in Hlen. simpl in Hlen. lia.
Qed.

Lemma shorterThan_ties_irrefl (s : list string) : shorterThan_ties s s = false.
Proof.
  induction s as [|x s IH]; simpl; [reflexivity|].
  rewrite String.eqb_refl. exact IH.
Qed.

Lemma shorterThan_irrefl (s : list string) : shorterThan s s = false.
Proof.
  unfold shorterThan. rewrite Nat.eqb_refl. apply shorterThan_ties_irrefl.
Qed.

Lemma shorterThan_ties_trans (s t u : list string) :
  length s = length t -> length t = length u ->
  shorterThan_ties s t = true -> shorterThan_ties t u = true ->
  shorterThan_ties s u = true.
Proof.
  revert t u. induction s as [|x s IH]; intros [|y t] [|z u]; simpl;
    try discriminate; try lia.
  intros Hl1 Hl2.
  destruct (String.eqb_spec x y) as [->|Hxy];
  destruct (String.eqb_spec y z) as [->|Hyz]; simpl.
  - apply IH; lia.
  - auto.
  - intros H _. destruct (String.eqb_spec x z); [congruence|]. exact H.
  - intros H1 H2. pose proof (string_ltb_trans _ _ _ H1 H2) as H3.
    destruct (String.eqb_spec x z) as [->|]; simpl; [|exact H3].
    rewrite string_ltb_irrefl in H3. discriminate.
Qed.

Lemma shorterThan_trans (s t u : list string) :
  shorterThan s t = true -> shorterThan t u = true -> shorterThan s u = true.
Proof.
  unfold shorterThan.
  destruct (Nat.eqb_spec (length s) (length t)) as [H1|H1];
  destruct (Nat.eqb_spec (length t) (length u)) as [H2|H2];
  destruct (Nat.eqb_spec (length s) (length u)) as [H3|H3]; simpl;
    rewrite ?Nat.ltb_lt; try lia.
  apply shorterThan_ties_trans; auto.
Qed.

Lemma shorterThan_ties_total (s t : list string) :
  length s = length t ->
  s = t \/ shorterThan_ties s t = true \/ shorterThan_ties t s = true.
Proof.
  revert t. induction s as [|x s IH]; intros [|y t]; simpl; try lia; auto.
  intros Hl. rewrite (String.eqb_sym y x).
  destruct (String.eqb_spec x y) as [->|Hxy]; simpl.
  - destruct (IH t) as [->|[H|H]]; auto; lia.
  - destruct (string_ltb_total x y) as [?|[H|H]]; auto; contradiction.
Qed.

Lemma shorterThan_total (s t : list string) :
  s = t \/ shorterThan s t = true \/ shorterThan t s = true.
Proof.
  unfold shorterThan. rewrite (Nat.eqb_sym (length t)).
  destruct (Nat.eqb_spec (length s) (length t)) as [H|H]; simpl.
  - apply shorterThan_ties_total. exact H.
  - rewrite !Nat.ltb_lt. lia.
Qed.

(** ** The prefix test of the copier *)

Lemma isSeen_spec (pkg : Package) (b : build.Package) (seen : list string) :
  Package_ pkg = Some b ->
  isSeen pkg seen
  = Ok (existsb (hasPathPrefix (build.ImportPath b)) seen).
Proof.
  intros Hb. induction seen as [|p seen IH]; simpl; [reflexivity|].
  unfold buildOf. rewrite Hb. simpl.
  destruct (hasPathPrefix (build.ImportPath b) p); [reflexivity|exact IH].
Qed.

(** C10, as amended.  A dependency is skipped by the copier exactly when
    some import path [p] that was materialized before is equal to its
    import path [s], or [s] begins with [p] followed by a slash, or [p]
    itself ends in a slash and [s] begins with [p]. *)
Theorem isSeen_path_prefix (pkg : Package) (b : build.Package)
    (seen : list string) :
  Package_ pkg = Some b ->
  exists r, isSeen pkg seen = Ok r /\
    (r = true <->
     exists p, p ∈ seen /\
       (build.ImportPath b = p
        \/ HasPrefix (build.ImportPath b) (p +:+ "/") = true
        \/ (lastIs p slash = true /\ HasPrefix (build.ImportPath b) p = true))).
Proof.
  intros Hb. eexists. split; [apply isSeen_spec; exact Hb|].
  rewrite existsb_exists. split.
  - intros (p & Hin & Hp). exists p. split; [apply list_elem_of_In; exact Hin|].
    apply hasPathPrefix_spec. exact Hp.
  - intros (p & Hin & Hp). exists p. split; [apply list_elem_of_In; exact Hin|].
    apply hasPathPrefix_spec. exact Hp.
Qed.

Lemma isSeen_path_prefix_witness :
  let b := snd (Fixture.gopkg "foo/bar" "bar" []) in
  Package_ (Fixture.loaded b []) = Some b /\
  exists r, isSeen (Fixture.loaded b []) ["foo"] = Ok r /\
    (r = true <->
     exists p, p ∈ ["foo"] /\
       (build.ImportPath b = p
        \/ HasPrefix (build.ImportPath b) (p +:+ "/") = true
        \/ (lastIs p slash = true /\ HasPrefix (build.ImportPath b) p = true))).
Proof.
  split; [reflexivity|].
  apply (isSeen_path_prefix
           (Fixture.loaded (snd (Fixture.gopkg "foo/bar" "bar" [])) [])
           (snd (Fixture.gopkg "foo/bar" "bar" [])) ["foo"]).
  reflexivity.
Defined.

(** C10, as stated, fails for a materialized path that ends in a slash:
    after "foo/" the dependency "foo/bar" is skipped, although it is not
    "foo/" and does not begin with "foo//". *)
Lemma isSeen_trailing_slash_counterexample :
  let b := snd (Fixture.gopkg "foo/bar" "bar" []) in
  isSeen (Fixture.loaded b []) ["foo/"] = Ok true
  /\ hasPathPrefix "foo/bar" "foo/" = true
  /\ "foo/bar" <> "foo/"
  /\ HasPrefix "foo/bar" ("foo/" +:+ "/") = false.
Proof. repeat split; try reflexivity. discriminate. Qed.

(** ** Import stacks and the reuse of a package *)

Lemma stack_lt_irrefl (s : list string) : ~ stack_lt s s.
Proof.
  intros H. apply shorterThan_stack_lt in H.
  rewrite shorterThan_irrefl in H. discriminate.
Qed.

Lemma stack_lt_trans (s t u : list string) :
  stack_lt s t -> stack_lt t u -> stack_lt s u.
Proof.
  rewrite <- !shorterThan_stack_lt. apply shorterThan_trans.
Qed.

Lemma stack_lt_total (s t : list string) :
  s = t \/ stack_lt s t \/ stack_lt t s.
Proof.
  rewrite <- !shorterThan_stack_lt. apply shorterThan_total.
Qed.

Lemma reusePackage_error (p : Package) (e : PackageError) (stk : importStack) :
  Error p = Some e ->
  reusePackage p stk
  = if negb (isImportCycle e) && shorterThan stk (ImportStack e)
    then setError (Some (setErrorStack stk e)) p
    else p.
Proof.
  intros He. unfold reusePackage.
  destruct (loadedDeps p); rewrite ?He; cbv zeta; rewrite ?He; reflexivity.
Qed.

(** After re-encounters of a package with a non-cycle error, the error is
    the same but for its stack, which is one of the stacks seen and not
    larger than any of them. *)
Lemma reuseAll_minimal (later : list importStack) (p : Package)
    (e : PackageError) :
  Error p = Some e -> isImportCycle e = false ->
  exists t, Error (reuseAll p later) = Some (setErrorStack t e)
    /\ t ∈ ImportStack e :: later
    /\ forall u, u ∈ ImportStack e :: later -> ~ stack_lt u t.
Proof.
  revert p e. induction later as [|stk later IH]; intros p e He Hc.
  - exists (ImportStack e). simpl. split; [|split].
    + rewrite He. destruct e; reflexivity.
    + apply list_elem_of_here.
    + intros u Hu. apply list_elem_of_singleton in Hu as ->.
      apply stack_lt_irrefl.
  - unfold reuseAll. simpl. fold (reuseAll (reusePackage p stk) later).
    rewrite (reusePackage_error p e stk He), Hc. simpl.
    destruct (shorterThan stk (ImportStack e)) eqn:Hs.
    + destruct (IH (setError (Some (setErrorStack stk e)) p)
                  (setErrorStack stk e) eq_refl Hc) as (t & Ht & Hin & Hmin).
      exists t. simpl in *. split; [exact Ht|]. split.
      * apply elem_of_cons in Hin as [->|Hin].
        -- apply list_elem_of_further, list_elem_of_here.
        -- do 2 apply list_elem_of_further. exact Hin.
      * intros u Hu. apply elem_of_cons in Hu as [Hu|Hu]; [|auto].
        subst u. intros Hlt. apply (Hmin stk); [apply list_elem_of_here|].
        apply stack_lt_trans with (ImportStack e); [|exact Hlt].
        apply shorterThan_stack_lt. exact Hs.
    + destruct (IH p e He Hc) as (t & Ht & Hin & Hmin).
      exists t. split; [exact Ht|]. split.
      * apply elem_of_cons in Hin as [->|Hin].
        -- apply list_elem_of_here.
        -- do 2 apply list_elem_of_further. exact Hin.
      * intros u Hu. apply elem_of_cons in Hu as [Hu|Hu].
        -- subst u. apply Hmin, list_elem_of_here.
        -- apply elem_of_cons in Hu as [Hu|Hu].
           ++ subst u. intros Hlt.
              destruct (stack_lt_total stk (ImportStack e)) as [Heq|[H|H]].
              ** rewrite Heq in Hlt.
                 apply (Hmin (ImportStack e)); [apply list_elem_of_here|].
                 exact Hlt.
              ** apply shorterThan_stack_lt in H. congruence.
              ** apply (Hmin (ImportStack e)); [apply list_elem_of_here|].
                 apply stack_lt_trans with stk; assumption.
           ++ apply Hmin, list_elem_of_further. exact Hu.
Qed.

Lemma reuseAll_cycle (later : list importStack) (p : Package)
    (e : PackageError) :
  Error p = Some e -> isImportCycle e = true -> reuseAll p later = p.
Proof.
  intros He Hc. induction later as [|stk later IH]; [reflexivity|].
  unfold reuseAll. simpl. rewrite (reusePackage_error p e stk He), Hc.
  exact IH.
Qed.

(** ** Vendor-path expansion *)

Lemma coherent_empty env : coherent env ∅.
Proof. intros k v H. rewrite lookup_empty in H. discriminate. Qed.

Lemma isDir_coherent env path c :
  coherent env c ->
  exists c', isDir env path c = (os_Stat_IsDir env path, c') /\ coherent env c'.
Proof.
  intros Hc. unfold isDir. destruct (c !! path) as [v|] eqn:Hl.
  - exists c. rewrite (Hc _ _ Hl). auto.
  - eexists. split; [reflexivity|].
    intros k v Hk. apply lookup_insert_Some in Hk as [[<- <-]|[_ Hk]]; eauto.
Qed.

Lemma rev_seq_S a n : rev (seq a (S n)) = (a + n) :: rev (seq a n).
Proof. rewrite seq_S, rev_app_distr. reflexivity. Qed.

Lemma vendorWalk_none env ip path dir lenroot n :
  forall searched c, coherent env c ->
  (forall i, lenroot <= i < lenroot + n -> vendorCopyAt env dir path i = false) ->
  exists c', coherent env c' /\
    vendorWalk env ip path dir lenroot n searched c
    = Ok (path, searched ++ notedCandidates env dir path lenroot n, c').
Proof.
  induction n as [|n IH]; intros searched c Hc Hnone.
  - exists c. split; [exact Hc|]. simpl. unfold notedCandidates. simpl.
    rewrite app_nil_r. reflexivity.
  - simpl. unfold notedCandidates. rewrite rev_seq_S. simpl.
    fold (notedCandidates env dir path lenroot n).
    pose proof (Hnone (lenroot + n) ltac:(lia)) as Hi.
    unfold vendorCopyAt in Hi. unfold boundary in *.
    destruct ((lenroot + n <? String.length dir)
              && negb (byteIs (lenroot + n) dir (Separator env))) eqn:Hb; simpl.
    + apply IH; [exact Hc|]. intros i Hr. apply Hnone. lia.
    + destruct (isDir_coherent env
                  (filepath_Join env (upto (lenroot + n) dir) "vendor") c Hc)
        as (c1 & -> & Hc1).
      simpl in Hi. unfold hasVendor in *.
      destruct (os_Stat_IsDir env
                  (filepath_Join env (upto (lenroot + n) dir) "vendor"))
        eqn:Hv; simpl.
      * destruct (isDir_coherent env
                    (filepath_Join env (upto (lenroot + n) dir)
                       ("vendor/" +:+ path)) c1 Hc1) as (c2 & -> & Hc2).
        unfold candidate in Hi. simpl in Hi. rewrite Hi.
        destruct (IH (searched ++ [filepath_Join env (upto (lenroot + n) dir)
                                     ("vendor/" +:+ path)]) c2 Hc2)
          as (c' & Hc' & ->).
        { intros i Hr. apply Hnone. lia. }
        exists c'. split; [exact Hc'|]. rewrite <- app_assoc. reflexivity.
      * apply IH; [exact Hc1|]. intros i Hr. apply Hnone. lia.
Qed.

Lemma vendorWalk_found env ip path dir lenroot n i :
  forall searched c, coherent env c ->
  lenroot <= i < lenroot + n ->
  vendorCopyAt env dir path i = true ->
  (forall j, i < j < lenroot + n -> vendorCopyAt env dir path j = false) ->
  match vendorWalk env ip path dir lenroot n searched c with
  | Ok (found, noted, c') =>
      String.length dir - i <= String.length ip + 1
      /\ found = expansion ip path dir i /\ noted = [] /\ coherent env c'
  | Panic _ => String.length ip + 1 < String.length dir - i
  | _ => False
  end.
Proof.
  induction n as [|n IH]; intros searched c Hc Hr Hi Hdeeper; [lia|].
  simpl.
  destruct (decide (i = lenroot + n)) as [->|Hne].
  - unfold vendorCopyAt, boundary, hasVendor, candidate in Hi.
    apply andb_true_iff in Hi as [Hi Ht].
    apply andb_true_iff in Hi as [Hb Hv].
    apply negb_true_iff in Hb. rewrite Hb.
    destruct (isDir_coherent env
                (filepath_Join env (upto (lenroot + n) dir) "vendor") c Hc)
      as (c1 & -> & Hc1).
    rewrite Hv. simpl.
    destruct (isDir_coherent env
                (filepath_Join env (upto (lenroot + n) dir)
                   ("vendor/" +:+ path)) c1 Hc1) as (c2 & -> & Hc2).
    rewrite Ht. unfold expansion.
    destruct (Nat.eqb_spec (String.length dir - (lenroot + n))
                (String.length ip + 1)) as [He|He].
    + repeat split; auto. lia.
    + destruct (Nat.ltb_spec (String.length ip)
                  (String.length dir - (lenroot + n))) as [Hl|Hl].
      * lia.
      * repeat split; auto. lia.
  - pose proof (Hdeeper (lenroot + n) ltac:(lia)) as Hd.
    unfold vendorCopyAt, boundary, hasVendor, candidate in Hd.
    destruct ((lenroot + n <? String.length dir)
              && negb (byteIs (lenroot + n) dir (Separator env))) eqn:Hb.
    + apply IH; auto; [lia|]. intros j Hj. apply Hdeeper. lia.
    + simpl in Hd.
      destruct (isDir_coherent env
                  (filepath_Join env (upto (lenroot + n) dir) "vendor") c Hc)
        as (c1 & -> & Hc1).
      destruct (os_Stat_IsDir env
                  (filepath_Join env (upto (lenroot + n) dir) "vendor"))
        eqn:Hv; simpl.
      * destruct (isDir_coherent env
                    (filepath_Join env (upto (lenroot + n) dir)
                       ("vendor/" +:+ path)) c1 Hc1) as (c2 & -> & Hc2).
        simpl in Hd. rewrite Hd.
        apply IH; auto; [lia|]. intros j Hj. apply Hdeeper. lia.
      * apply IH; auto; [lia|]. intros j Hj. apply Hdeeper. lia.
Qed.

Lemma underRoot_check env dir root :
  negb (HasPrefix dir root)
  || (String.length dir <=? String.length root)
  || negb (byteIs (String.length root) dir (Separator env))
  = negb (underRoot env dir root).
Proof.
  unfold underRoot. rewrite !negb_andb.
  replace (String.length dir <=? String.length root)
    with (negb (String.length root <? String.length dir)); [reflexivity|].
  destruct (Nat.ltb_spec (String.length root) (String.length dir));
    destruct (Nat.leb_spec (String.length dir) (String.length root));
    simpl; try reflexivity; lia.
Qed.

Lemma vendoredImportPath_walk env parent b path c :
  Package_ parent = Some b ->
  existsb (fun match_ => match_ path) (skipVendor env) = false ->
  underRoot env (filepath_Clean env (build.Dir b))
    (filepath_Clean env (build.Root b)) = true ->
  inCWD env (filepath_Clean env (build.Dir b)) = true ->
  vendoredImportPath env (Some parent) path c
  = vendorWalk env (build.ImportPath b) path (filepath_Clean env (build.Dir b))
      (String.length (filepath_Clean env (build.Root b)))
      (String.length (filepath_Clean env (build.Dir b))
       - String.length (filepath_Clean env (build.Root b)) + 1) [] c.
Proof.
  intros Hb Hskip Hroot Hcwd. unfold vendoredImportPath, buildOf.
  rewrite Hskip, Hb. simpl. rewrite underRoot_check, Hroot, Hcwd. reflexivity.
Qed.

Lemma underRoot_length env dir root :
  underRoot env dir root = true -> String.length root < String.length dir.
Proof.
  unfold underRoot. rewrite !andb_true_iff, Nat.ltb_lt. tauto.
Qed.

(** The deepest vendor copy on the walk wins. *)
Lemma vendoredImportPath_deepest env parent b path c i :
  Package_ parent = Some b ->
  existsb (fun match_ => match_ path) (skipVendor env) = false ->
  inCWD env (filepath_Clean env (build.Dir b)) = true ->
  coherent env c ->
  let dir := filepath_Clean env (build.Dir b) in
  let root := filepath_Clean env (build.Root b) in
  underRoot env dir root = true ->
  String.length root <= i <= String.length dir ->
  vendorCopyAt env dir path i = true ->
  (forall j, i < j <= String.length dir ->
             vendorCopyAt env dir path j = false) ->
  String.length dir - i <= String.length (build.ImportPath b) + 1 ->
  exists c',
    vendoredImportPath env (Some parent) path c
    = Ok (expansion (build.ImportPath b) path dir i, [], c').
Proof.
  intros Hb Hskip Hcwd Hc dir root Hroot Hi Hcopy Hdeep Hchop.
  pose proof (underRoot_length _ _ _ Hroot) as Hlen.
  rewrite (vendoredImportPath_walk env parent b path c Hb Hskip Hroot Hcwd).
  fold dir root.
  pose proof (vendorWalk_found env (build.ImportPath b) path dir
                (String.length root)
                (String.length dir - String.length root + 1) i [] c Hc
                ltac:(lia) Hcopy) as H.
  destruct (vendorWalk env (build.ImportPath b) path dir
              (String.length root)
              (String.length dir - String.length root + 1) [] c)
    as [[[found noted] c']|msg|code|].
  - destruct H as (_ & -> & -> & _); [intros j Hj; apply Hdeep; lia|].
    exists c'. reflexivity.
  - specialize (H ltac:(intros j Hj; apply Hdeep; lia)). lia.
  - destruct H. intros j Hj. apply Hdeep. lia.
  - destruct H. intros j Hj. apply Hdeep. lia.
Qed.

Lemma vendorWalk_Panic env ip path dir lenroot n :
  forall searched c msg,
  vendorWalk env ip path dir lenroot n searched c = Panic msg ->
  msg = "slice bounds out of range".
Proof.
  induction n as [|n IH]; intros searched c msg H; simpl in H; [discriminate|].
  destruct ((lenroot + n <? String.length dir)
            && negb (byteIs (lenroot + n) dir (Separator env))); [eauto|].
  destruct (isDir env (filepath_Join env (upto (lenroot + n) dir) "vendor") c)
    as [isv c1].
  destruct (negb isv); [eauto|].
  destruct (isDir env
              (filepath_Join env (upto (lenroot + n) dir) ("vendor/" +:+ path))
              c1) as [ist c2].
  destruct ist; [|eauto].
  destruct (_ =? _); [discriminate|].
  destruct (_ <? _); [|discriminate].
  injection H as <-. reflexivity.
Qed.

(** The deepest vendor copy on the walk, when it lies above the directory
    that the import path of the parent starts from. *)
Lemma vendoredImportPath_overshoot env parent b path c i :
  Package_ parent = Some b ->
  existsb (fun match_ => match_ path) (skipVendor env) = false ->
  inCWD env (filepath_Clean env (build.Dir b)) = true ->
  coherent env c ->
  let dir := filepath_Clean env (build.Dir b) in
  let root := filepath_Clean env (build.Root b) in
  underRoot env dir root = true ->
  String.length root <= i <= String.length dir ->
  vendorCopyAt env dir path i = true ->
  (forall j, i < j <= String.length dir ->
             vendorCopyAt env dir path j = false) ->
  String.length (build.ImportPath b) + 1 < String.length dir - i ->
  vendoredImportPath env (Some parent) path c
  = Panic "slice bounds out of range".
Proof.
  intros Hb Hskip Hcwd Hc dir root Hroot Hi Hcopy Hdeep Hchop.
  pose proof (underRoot_length _ _ _ Hroot) as Hlen.
  rewrite (vendoredImportPath_walk env parent b path c Hb Hskip Hroot Hcwd).
  fold dir root.
  pose proof (vendorWalk_found env (build.ImportPath b) path dir
                (String.length root)
                (String.length dir - String.length root + 1) i [] c Hc
                ltac:(lia) Hcopy) as H.
  destruct (vendorWalk env (build.ImportPath b) path dir
              (String.length root)
              (String.length dir - String.length root + 1) [] c)
    as [[[found noted] c']|msg|code|] eqn:Hw.
  - destruct H as (Hle & _); [intros j Hj; apply Hdeep; lia|]. lia.
  - rewrite (vendorWalk_Panic _ _ _ _ _ _ _ _ _ Hw). reflexivity.
  - destruct H. intros j Hj. apply Hdeep. lia.
  - destruct H. intros j Hj. apply Hdeep. lia.
Qed.

(** C3.  For a parent whose directory is in the working directory and an
    import path that no update pattern matches: if the directory of the
    parent is not strictly below its root, the process exits; otherwise
    the walk goes from the directory up to the root, the deepest boundary
    with an existing [vendor/path] directory wins and, when it is not above
    the directory that the import path of the parent starts from, the
    result is the expansion at that boundary; without any such boundary
    the result is the path itself with the candidates that were examined.
    This is what the claim says.  The code departs from it when the deepest
    such boundary is above the directory that the import path starts from,
    as the root of a workspace is, above [src]: more bytes are chopped off
    the directory than the import path and a slash have, the slice of the
    import path is out of range, and the call panics instead of returning
    an expansion or the path. *)
Theorem vendoredImportPath_closest_vendor env parent b path c :
  Package_ parent = Some b ->
  existsb (fun match_ => match_ path) (skipVendor env) = false ->
  inCWD env (filepath_Clean env (build.Dir b)) = true ->
  coherent env c ->
  let dir := filepath_Clean env (build.Dir b) in
  let root := filepath_Clean env (build.Root b) in
  (underRoot env dir root = false ->
     vendoredImportPath env (Some parent) path c = Exit 1)
  /\ (underRoot env dir root = true ->
       (forall i,
          String.length root <= i <= String.length dir ->
          vendorCopyAt env dir path i = true ->
          (forall j, i < j <= String.length dir ->
                     vendorCopyAt env dir path j = false) ->
          String.length dir - i <= String.length (build.ImportPath b) + 1 ->
          exists c',
            vendoredImportPath env (Some parent) path c
            = Ok (expansion (build.ImportPath b) path dir i, [], c'))
       /\ ((forall i, String.length root <= i <= String.length dir ->
                      vendorCopyAt env dir path i = false) ->
           exists c',
             vendoredImportPath env (Some parent) path c
             = Ok (path,
                   notedCandidates env dir path (String.length root)
                     (String.length dir - String.length root + 1), c'))
       /\ (forall i,
             String.length root <= i <= String.length dir ->
             vendorCopyAt env dir path i = true ->
             (forall j, i < j <= String.length dir ->
                        vendorCopyAt env dir path j = false) ->
             String.length (build.ImportPath b) + 1 < String.length dir - i ->
             vendoredImportPath env (Some parent) path c
             = Panic "slice bounds out of range")).
Proof.
  intros Hb Hskip Hcwd Hc dir root. split.
  - intros Hroot. unfold vendoredImportPath, buildOf.
    rewrite Hskip, Hb. simpl. fold dir root.
    rewrite underRoot_check, Hroot. reflexivity.
  - intros Hroot. pose proof (underRoot_length _ _ _ Hroot) as Hlen.
    split; [|split].
    + intros i Hi Hcopy Hdeep Hchop.
      apply (vendoredImportPath_deepest env parent b path c i); assumption.
    + intros Hnone.
      rewrite (vendoredImportPath_walk env parent b path c
                 Hb Hskip Hroot Hcwd).
      fold dir root.
      destruct (vendorWalk_none env (build.ImportPath b) path dir
                  (String.length root)
                  (String.length dir - String.length root + 1) [] c Hc)
        as (c' & _ & ->).
      * intros i Hi. apply Hnone. lia.
      * exists c'. reflexivity.
    + intros i Hi Hcopy Hdeep Hchop.
      apply (vendoredImportPath_overshoot env parent b path c i); assumption.
Qed.

Lemma vendoredImportPath_closest_vendor_witness :
  let env := Fixture.nestedEnv in
  let env' := Fixture.gopathVendorEnv in
  (Package_ Fixture.pkg_ab = Some (snd (Fixture.gopkg "a/b" "b" ["d"]))
   /\ existsb (fun match_ => match_ "d") (skipVendor env) = false
   /\ inCWD env "/g/src/a/b" = true
   /\ coherent env ∅
   /\ exists c', vendoredImportPath env (Some Fixture.pkg_ab) "d" ∅
                 = Ok ("a/b/vendor/d", [], c'))
  /\ (Package_ Fixture.pkg_p = Some (snd (Fixture.gopkg "p" "p" ["d"]))
      /\ existsb (fun match_ => match_ "d") (skipVendor env') = false
      /\ inCWD env' "/g/src/p" = true
      /\ coherent env' ∅
      /\ vendoredImportPath env' (Some Fixture.pkg_p) "d" ∅
         = Panic "slice bounds out of range").
Proof.
  intros env env'. split.
  - split; [reflexivity|]. split; [reflexivity|]. split; [reflexivity|].
    split; [apply coherent_empty|].
    destruct (vendoredImportPath_closest_vendor env Fixture.pkg_ab
                (snd (Fixture.gopkg "a/b" "b" ["d"])) "d" ∅
                eq_refl eq_refl eq_refl (coherent_empty env)) as [_ H].
    destruct (H eq_refl) as (H1 & _ & _).
    apply (H1 10).
    + simpl. lia.
    + reflexivity.
    + simpl. intros j Hj. lia.
    + simpl. lia.
  - split; [reflexivity|]. split; [reflexivity|]. split; [reflexivity|].
    split; [apply coherent_empty|].
    destruct (vendoredImportPath_closest_vendor env' Fixture.pkg_p
                (snd (Fixture.gopkg "p" "p" ["d"])) "d" ∅
                eq_refl eq_refl eq_refl (coherent_empty env')) as [_ H].
    destruct (H eq_refl) as (_ & _ & H3).
    apply (H3 2).
    + simpl. lia.
    + reflexivity.
    + intros j Hj. simpl in Hj.
      assert (j = 3 \/ j = 4 \/ j = 5 \/ j = 6 \/ j = 7 \/ j = 8) as Hcases
        by lia.
      destruct Hcases as [Hj'|[Hj'|[Hj'|[Hj'|[Hj'|Hj']]]]]; subst j; reflexivity.
    + simpl. lia.
Defined.

(** The failing input of C3: the only vendor copy lies in the root of the
    workspace, above [src]; the walk reaches it, and the import path "p"
    cannot lose the six bytes of "/src/p". *)
Lemma vendoredImportPath_gopath_vendor_counterexample :
  let env := Fixture.gopathVendorEnv in
  inCWD env "/g/src/p" = true
  /\ existsb (fun match_ => match_ "d") (skipVendor env) = false
  /\ underRoot env "/g/src/p" "/g" = true
  /\ vendorCopyAt env "/g/src/p" "d" 2 = true
  /\ vendoredImportPath env (Some Fixture.pkg_p) "d" ∅
     = Panic "slice bounds out of range".
Proof. repeat split; reflexivity. Qed.

(** C6, as amended.  Without a parent, or for a path that an update pattern
    matches, the path is returned as it is.  Otherwise the process exits
    when the directory of the parent is not strictly below its root; the
    path is returned as it is when that directory is outside the working
    directory; and inside the working directory the deepest vendor copy on
    the walk, when it is not above the directory that the import path of
    the parent starts from, gives its expansion. *)
Theorem vendoredImportPath_shadowing env path c :
  coherent env c ->
  vendoredImportPath env None path c = Ok (path, [], c)
  /\ forall parent b,
       Package_ parent = Some b ->
       let dir := filepath_Clean env (build.Dir b) in
       let root := filepath_Clean env (build.Root b) in
       (existsb (fun match_ => match_ path) (skipVendor env) = true ->
          vendoredImportPath env (Some parent) path c = Ok (path, [], c))
       /\ (existsb (fun match_ => match_ path) (skipVendor env) = false ->
            (underRoot env dir root = false ->
               vendoredImportPath env (Some parent) path c = Exit 1)
            /\ (underRoot env dir root = true ->
                 (inCWD env dir = false ->
                    vendoredImportPath env (Some parent) path c
                    = Ok (path, [], c))
                 /\ (inCWD env dir = true ->
                      forall i,
                        String.length root <= i <= String.length dir ->
                        vendorCopyAt env dir path i = true ->
                        (forall j, i < j <= String.length dir ->
                                   vendorCopyAt env dir path j = false) ->
                        String.length dir - i
                          <= String.length (build.ImportPath b) + 1 ->
                        exists c',
                          vendoredImportPath env (Some parent) path c
                          = Ok (expansion (build.ImportPath b) path dir i,
                                [], c')))).
Proof.
  intros Hc. split; [reflexivity|].
  intros parent b Hb dir root. split.
  - intros Hskip. unfold vendoredImportPath. rewrite Hskip. reflexivity.
  - intros Hskip. split.
    + intros Hroot. unfold vendoredImportPath, buildOf.
      rewrite Hskip, Hb. simpl. fold dir root.
      rewrite underRoot_check, Hroot. reflexivity.
    + intros Hroot. split.
      * intros Hcwd. unfold vendoredImportPath, buildOf.
        rewrite Hskip, Hb. simpl. fold dir root.
        rewrite underRoot_check, Hroot, Hcwd. reflexivity.
      * intros Hcwd i Hi Hcopy Hdeep Hchop.
        apply (vendoredImportPath_deepest env parent b path c i); assumption.
Qed.

Lemma vendoredImportPath_shadowing_witness :
  let env := Fixture.updateEnv in
  coherent env ∅
  /\ vendoredImportPath env None "d" ∅ = Ok ("d", [], ∅)
  /\ vendoredImportPath env (Some Fixture.pkg_p) "d" ∅ = Ok ("d", [], ∅).
Proof.
  intros env. split; [apply coherent_empty|].
  destruct (vendoredImportPath_shadowing env "d" ∅ (coherent_empty env))
    as [H0 H].
  split; [exact H0|].
  destruct (H Fixture.pkg_p (snd (Fixture.gopkg "p" "p" ["d"])) eq_refl)
    as [Hskip _].
  apply Hskip. reflexivity.
Defined.

(** C6, as stated, fails for a parent in the working directory that has no
    root, which is what [go/build] reports outside of every workspace: the
    vendor copy next to the parent is never looked at, the process exits. *)
Lemma vendoredImportPath_no_root_counterexample :
  let env := Fixture.outsideEnv in
  inCWD env "/w/p" = true
  /\ existsb (fun match_ => match_ "d") (skipVendor env) = false
  /\ vendorCopyAt env "/w/p" "d" 4 = true
  /\ vendoredImportPath env (Some Fixture.pkg_local) "d" ∅ = Exit 1.
Proof. repeat split; reflexivity. Qed.

(** ** The collision detector *)

Lemma foldMin_total env (Hb : SimpleFold_bounded env) :
  forall fuel r, Z.to_nat (MaxRune + 1 - r) < fuel ->
  exists r', foldMin env fuel r = Ok r'.
Proof.
  induction fuel as [|fuel IH]; intros r Hf; [lia|]. simpl.
  destruct (Z.leb_spec (unicode_SimpleFold env r) r) as [Hle|Hgt]; [eauto|].
  apply IH. pose proof (Hb r). lia.
Qed.

Lemma toFold_slow_total env (Hb : SimpleFold_bounded env) runes :
  exists f, toFold_slow env runes = Ok f.
Proof.
  induction runes as [|r runes [f IH]]; [simpl; eauto|].
  destruct (foldMin_total env Hb (S (Z.to_nat (MaxRune + 1 - r))) r) as [r' Hr];
    [lia|].
  cbn [toFold_slow]. rewrite Hr. cbn [res_bind]. rewrite IH. simpl. eauto.
Qed.

Lemma toFold_total env (Hb : SimpleFold_bounded env) s :
  exists f, toFold env s = Ok f.
Proof.
  unfold toFold. destruct (forallb _ _); [eauto|].
  apply toFold_slow_total. exact Hb.
Qed.



Lemma asciiFold_bounded wd skip dirs table :
  SimpleFold_bounded (Fixture.workspace wd skip dirs table).
Proof.
  intros r. simpl. unfold Fixture.asciiFold, MaxRune.
  destruct (Z.leb_spec 65 r), (Z.leb_spec r 90), (Z.leb_spec 97 r),
    (Z.leb_spec r 122); simpl; lia.
Qed.

(** ** Stateful computations *)

Lemma bind_eq {A B} (m : M A) (k : A -> M B) s a s' :
  m s = Ok (a, s') -> bind m k s = k a s'.
Proof. intros H. unfold bind. rewrite H. reflexivity. Qed.

Lemma bind_Ok {A B} (m : M A) (k : A -> M B) s r :
  bind m k s = Ok r -> exists a s', m s = Ok (a, s') /\ k a s' = Ok r.
Proof.
  unfold bind. destruct (m s) as [[a s']| | |]; simpl; try discriminate.
  eauto.
Qed.

Lemma load_eq p s pk : heap s !! p = Some pk -> load p s = Ok (pk, s).
Proof. intros H. unfold load. rewrite H. reflexivity. Qed.

Lemma loadBuild_eq p s pk b :
  heap s !! p = Some pk -> Package_ pk = Some b -> loadBuild p s = Ok (b, s).
Proof.
  intros H Hb. unfold loadBuild. rewrite (bind_eq _ _ _ _ _ (load_eq p s pk H)).
  unfold lift, buildOf. rewrite Hb. reflexivity.
Qed.

Lemma modify_eq p f s pk :
  heap s !! p = Some pk ->
  modify p f s = Ok (tt, setHeap (<[p := f pk]> (heap s)) s).
Proof. intros H. unfold modify. rewrite H. reflexivity. Qed.

Lemma vendoredImportPathM_eq env parent path s eff sr c :
  (parentOf s parent = None -> parent = None) ->
  vendoredImportPath env (parentOf s parent) path (isDirCache s)
  = Ok (eff, sr, c) ->
  vendoredImportPathM env parent path s = Ok ((eff, sr), setIsDirCache c s).
Proof.
  intros Hpar Hv. unfold vendoredImportPathM.
  assert ((match parent with
           | Some l => run pk <- load l; ret (Some pk)
           | None => ret None
           end) s = Ok (parentOf s parent, s)) as Hl.
  { destruct parent as [l|]; [|reflexivity]. simpl in *.
    destruct (heap s !! l) as [pk|] eqn:Hpk.
    - rewrite (bind_eq _ _ _ _ _ (load_eq l s pk Hpk)). reflexivity.
    - specialize (Hpar eq_refl). discriminate. }
  rewrite (bind_eq _ _ _ _ _ Hl). rewrite Hv. reflexivity.
Qed.

Lemma isStandard_iff b :
  isStandard b = true <->
  build.Goroot b = true /\ build.ImportPath b <> EmptyString
  /\ Contains (build.ImportPath b) "." = false.
Proof.
  unfold isStandard. rewrite !andb_true_iff, !negb_true_iff, String.eqb_neq.
  tauto.
Qed.

Lemma pop_push path (k : list string) : pop (push path k) = k.
Proof.
  unfold pop, push. rewrite length_app. simpl.
  replace (length k + 1 - 1) with (length k) by lia.
  apply take_app_length.
Qed.

Lemma loadImport_body_cache_hit env rec path srcDir parent importPos s
    eff searched c l pk :
  (parentOf s parent = None -> parent = None) ->
  vendoredImportPath env (parentOf s parent) path (isDirCache s)
  = Ok (eff, searched, c) ->
  packageCache s !! eff = Some l -> heap s !! l = Some pk ->
  loadImport_body env rec path srcDir parent importPos s
  = Ok (l, {| packageCache := packageCache s; isDirCache := c;
              heap := <[l := reusePackage pk (stk s)]> (heap s);
              stk := stk s |}).
Proof.
  intros Hpar Hv Hc Hl. unfold loadImport_body.
  rewrite (bind_eq _ _ _ _ _ (vendoredImportPathM_eq env parent path s
                                eff searched c Hpar Hv)).
  cbn [fst snd setIsDirCache packageCache]. rewrite Hc.
  unfold stk_copy.
  rewrite (bind_eq _ _ _ _ _ (eq_refl : (fun s0 : State => Ok (stk s0, s0))
                                          (setIsDirCache c s) = _)).
  rewrite (bind_eq _ _ _ _ _ (modify_eq l _ (setIsDirCache c s) pk Hl)).
  reflexivity.
Qed.

Lemma loadImport_cache_hit env fuel path srcDir parent importPos s
    eff searched c l pk :
  (parentOf s parent = None -> parent = None) ->
  vendoredImportPath env (parentOf s parent) path (isDirCache s)
  = Ok (eff, searched, c) ->
  packageCache s !! eff = Some l -> heap s !! l = Some pk ->
  loadImport env (S fuel) path srcDir parent importPos s
  = Ok (l, {| packageCache := packageCache s; isDirCache := c;
              heap := <[l := reusePackage pk (push path (stk s))]> (heap s);
              stk := stk s |}).
Proof.
  intros Hpar Hv Hc Hl. cbn [loadImport]. unfold stk_push.
  rewrite (bind_eq _ _ _ _ _ (eq_refl : (fun s0 : State =>
                                Ok (tt, setStk (push path (stk s0)) s0)) s = _)).
  rewrite (bind_eq _ _ _ _ _
             (loadImport_body_cache_hit env (loadImport env fuel) path srcDir
                parent importPos (setStk (push path (stk s)) s)
                eff searched c l pk Hpar Hv Hc Hl)).
  unfold stk_pop, bind, ret, setStk.
  cbn [res_bind packageCache isDirCache heap stk].
  rewrite pop_push. reflexivity.
Qed.

(** ** Finding a package in the cache again *)

Lemma setError_reusePackage (o : option PackageError) (p : Package)
    (stk : importStack) :
  setError o (reusePackage p stk) = setError o p.
Proof.
  destruct p as [bp std err ld ds]. unfold reusePackage. simpl.
  destruct ld, err as [e|]; simpl;
    try (destruct (negb (isImportCycle e) && shorterThan stk (ImportStack e)));
    reflexivity.
Qed.

Lemma reuseAll_setError (later : list importStack) (p : Package) :
  reuseAll p later = setError (Error (reuseAll p later)) p.
Proof.
  revert p. induction later as [|stk later IH]; intros p.
  - destruct p; reflexivity.
  - unfold reuseAll in *. simpl. rewrite IH at 1.
    apply setError_reusePackage.
Qed.

(** C5.  When a cached package with an error [e] is found again with the
    stack [cur]: if the error is not an import cycle, the package is left
    as it is but for the stack of its error, which becomes [cur], exactly
    when [cur] is smaller in the order of the specification, which is a
    strict total order; after any further re-encounters [later] the stack
    of the error is a least one among all stacks seen, and nothing else has
    changed; if the error is an import cycle, the package is left as it
    is.  In [loadImport], a path whose package [p] is in the cache is such
    a re-encounter, with the import stack and the path on top of it. *)
Theorem reusePackage_shortest_stack (p : Package) (e : PackageError)
    (cur : importStack) (later : list importStack) :
  Error p = Some e ->
  let withStack (t : list string) : Package :=
    {| Package_ := Package_ p; Standard := Standard p;
       Error := Some {| ImportStack := t; Pos := Pos e; Err := Err e;
                        isImportCycle := isImportCycle e; hard := hard e |};
       loadedDeps := loadedDeps p; deps := deps p |} in
  (forall s t, shorterThan s t = true <-> stack_lt s t)
  /\ (forall s, ~ stack_lt s s)
  /\ (forall s t u, stack_lt s t -> stack_lt t u -> stack_lt s u)
  /\ (forall s t, s = t \/ stack_lt s t \/ stack_lt t s)
  /\ (isImportCycle e = false ->
        (stack_lt cur (ImportStack e) -> reusePackage p cur = withStack cur)
        /\ (~ stack_lt cur (ImportStack e) -> reusePackage p cur = p)
        /\ exists t, reuseAll p later = withStack t
             /\ t ∈ ImportStack e :: later
             /\ forall u, u ∈ ImportStack e :: later -> ~ stack_lt u t)
  /\ (isImportCycle e = true ->
        reusePackage p cur = p /\ reuseAll p later = p)
  /\ (forall env fuel path srcDir parent importPos s eff searched c l,
        (parentOf s parent = None -> parent = None) ->
        vendoredImportPath env (parentOf s parent) path (isDirCache s)
        = Ok (eff, searched, c) ->
        packageCache s !! eff = Some l -> heap s !! l = Some p ->
        loadImport env (S fuel) path srcDir parent importPos s
        = Ok (l, {| packageCache := packageCache s; isDirCache := c;
                    heap := <[l := reusePackage p (stk s ++ [path])]> (heap s);
                    stk := stk s |})).
Proof.
  intros He withStack.
  split; [apply shorterThan_stack_lt|].
  split; [apply stack_lt_irrefl|].
  split; [apply stack_lt_trans|].
  split; [apply stack_lt_total|].
  split; [|split].
  - intros Hc. rewrite (reusePackage_error p e cur He), Hc. simpl.
    split; [|split].
    + intros H. apply shorterThan_stack_lt in H. rewrite H. reflexivity.
    + intros H. destruct (shorterThan cur (ImportStack e)) eqn:Hs;
        [|reflexivity].
      apply shorterThan_stack_lt in Hs. contradiction.
    + destruct (reuseAll_minimal later p e He Hc) as (t & Ht & Hin & Hmin).
      exists t. split; [|auto].
      rewrite (reuseAll_setError later p), Ht. reflexivity.
  - intros Hc. split.
    + rewrite (reusePackage_error p e cur He), Hc. reflexivity.
    + apply (reuseAll_cycle later p e He Hc).
  - intros env fuel path srcDir parent importPos s eff searched c l
      Hpar Hv Hcache Hl.
    apply (loadImport_cache_hit env fuel path srcDir parent importPos s
             eff searched c l p Hpar Hv Hcache Hl).
Qed.

Lemma reusePackage_shortest_stack_witness :
  let e := mkError ["p"; "q"; "d"] "cannot find package" in
  let p := setError (Some e) newPackage in
  let withStack (t : list string) : Package :=
    {| Package_ := None; Standard := false;
       Error := Some {| ImportStack := t; Pos := EmptyString;
                        Err := "cannot find package";
                        isImportCycle := false; hard := false |};
       loadedDeps := false; deps := [] |} in
  Error p = Some e
  /\ reusePackage p ["p"; "d"] = withStack ["p"; "d"]
  /\ reusePackage p ["p"; "r"; "d"] = p
  /\ exists t, reuseAll p [["p"; "r"; "d"]; ["p"; "d"]; ["x"; "d"]]
               = withStack t
       /\ t ∈ ImportStack e :: [["p"; "r"; "d"]; ["p"; "d"]; ["x"; "d"]]
       /\ forall u,
            u ∈ ImportStack e :: [["p"; "r"; "d"]; ["p"; "d"]; ["x"; "d"]] ->
            ~ stack_lt u t.
Proof.
  intros e p withStack. split; [reflexivity|].
  destruct (reusePackage_shortest_stack p e ["p"; "d"]
              [["p"; "r"; "d"]; ["p"; "d"]; ["x"; "d"]] eq_refl)
    as (Hiff & _ & _ & _ & Hnc & _).
  destruct (Hnc eq_refl) as (Hlt & _ & Hall).
  split; [apply Hlt, Hiff; reflexivity|].
  split; [reflexivity|].
  exact Hall.
Defined.

(** ** Collisions of file names *)



(** ** Collisions of import paths *)


Lemma setHeap_setHeap h h' s : setHeap h (setHeap h' s) = setHeap h s.
Proof. reflexivity. Qed.










(** ** The aggregator *)

#[export] Instance byImportPath_total h : Total (byImportPath h).
Proof. intros a b. unfold byImportPath. apply string_le_total. Qed.

#[export] Instance byImportPath_trans h : Transitive (byImportPath h).
Proof. intros a b c. unfold byImportPath. apply string_le_trans. Qed.

Lemma externalDeps_spec env s ds :
  forall acc,
  forallb (validDep (heap s)) ds = true ->
  externalDeps env ds acc s
  = Ok (acc ++ List.filter (external env (heap s)) ds, s).
Proof.
  induction ds as [|d ds IH]; intros acc Hv; simpl.
  - unfold ret. rewrite app_nil_r. reflexivity.
  - simpl in Hv. apply andb_true_iff in Hv as [Hd Hv].
    unfold validDep in Hd.
    destruct (heap s !! d) as [pkd|] eqn:Hl; [|discriminate].
    destruct (Package_ pkd) as [b|] eqn:Hb; [|discriminate].
    rewrite (bind_eq _ _ _ _ _ (loadBuild_eq d s pkd b Hl Hb)).
    unfold external at 1, dirOf. rewrite Hl, Hb.
    destruct (inCWD env (build.Dir b)); simpl.
    + apply IH. exact Hv.
    + rewrite (IH _ Hv), <- app_assoc. reflexivity.
Qed.

Lemma dependencies_loop_spec env s roots :
  forall acc,
  validRoots (heap s) roots = true ->
  dependencies_loop env roots acc s
  = Ok (acc ++ List.filter (external env (heap s))
                 (concat (map (depsAt (heap s)) roots)), s).
Proof.
  induction roots as [|p roots IH]; intros acc Hv; simpl.
  - unfold ret. rewrite app_nil_r. reflexivity.
  - simpl in Hv. apply andb_true_iff in Hv as [Hp Hv].
    destruct (heap s !! p) as [pk|] eqn:Hl; [|discriminate].
    rewrite (bind_eq _ _ _ _ _ (load_eq p s pk Hl)).
    rewrite (bind_eq _ _ _ _ _ (externalDeps_spec env s (deps pk) acc Hp)).
    rewrite (IH _ Hv). unfold depsAt at 2. rewrite Hl.
    rewrite List.filter_app, app_assoc. reflexivity.
Qed.

(** C2, as amended.  The aggregated list holds, for every root and every
    dependency of that root whose directory is not in the working
    directory, one entry, and no other entry; it is sorted by import path.
    A dependency of several roots has several entries. *)
Theorem dependencies_sorted_external env roots s :
  validRoots (heap s) roots = true ->
  exists ds,
    dependencies env roots s = Ok (ds, s)
    /\ ds ≡ₚ List.filter (external env (heap s))
               (concat (map (depsAt (heap s)) roots))
    /\ StronglySorted (byImportPath (heap s)) ds.
Proof.
  intros Hv. unfold dependencies.
  rewrite (bind_eq _ _ _ _ _ (dependencies_loop_spec env s roots [] Hv)).
  eexists. split; [reflexivity|]. split.
  - apply merge_sort_Permutation.
  - apply StronglySorted_merge_sort; apply _.
Qed.

Lemma dependencies_sorted_external_witness :
  let env := Fixture.twoRootsEnv in
  let s := Fixture.twoRootsState in
  validRoots (heap s) [0; 2] = true
  /\ exists ds,
       dependencies env [0; 2] s = Ok (ds, s)
       /\ ds ≡ₚ List.filter (external env (heap s))
                  (concat (map (depsAt (heap s)) [0; 2]))
       /\ StronglySorted (byImportPath (heap s)) ds.
Proof.
  intros env s. split; [vm_compute; reflexivity|].
  apply (dependencies_sorted_external env [0; 2] s).
  vm_compute. reflexivity.
Defined.

(** C2, as stated, fails for two roots with a common dependency: the
    dependency [d] of the roots [p/a] and [p/b] is listed twice. *)
Lemma dependencies_duplicates_counterexample :
  match resolve Fixture.twoRootsEnv 3 ["p/a"; "p/b"] initState with
  | Ok ((roots, ds), s) =>
      Fixture.names s roots = ["p/a"; "p/b"]
      /\ Fixture.names s ds = ["d"; "d"]
      /\ ~ NoDup (Fixture.names s ds)
  | _ => False
  end.
Proof.
  vm_compute. split; [reflexivity|]. split; [reflexivity|].
  intros H. apply NoDup_cons in H as [H _]. apply H. apply list_elem_of_here.
Qed.

(** ** Import cycles *)

Lemma reusePackage_loading (p : Package) (stk : importStack) :
  loadedDeps p = false -> Error p = None -> reusePackage p stk = p.
Proof. intros Hl He. unfold reusePackage. rewrite Hl, He. reflexivity. Qed.

Lemma reusePackage_loaded (p : Package) (stk : importStack) :
  loadedDeps p = true -> Error p = None ->
  reusePackage p stk = setError (Some (cycleError stk)) p.
Proof. intros Hl He. unfold reusePackage. rewrite Hl, He. reflexivity. Qed.

(** C1 does not hold of the code: [reusePackage] tests [p.loadedDeps]
    where a package that is still being loaded has it unset.  On the cycle
    [p -> q -> p] the loader returns with [p] among the dependencies of
    [p] and [q], and neither has an error; on the diamond of [r], [a], [b]
    and [d], which has no cycle, the second import of the loaded package
    [d] gives it the error of an import cycle, with the stack of that
    import. *)
Theorem reusePackage_cycle_inverted :
  match packages Fixture.cycleEnv 3 ["p"] initState with
  | Ok (roots, s) =>
      Fixture.names s roots = ["p"]
      /\ Fixture.names s (depsAt (heap s) 0) = ["p"; "q"]
      /\ Fixture.names s (depsAt (heap s) 1) = ["p"]
      /\ errorOf (heap s) 0 = None /\ errorOf (heap s) 1 = None
  | _ => False
  end
  /\ match packages Fixture.diamondEnv 3 ["r"] initState with
     | Ok (roots, s) =>
         Fixture.names s roots = ["r"]
         /\ Fixture.names s (depsAt (heap s) 0) = ["a"; "b"; "d"]
         /\ Fixture.names s [2] = ["d"]
         /\ errorOf (heap s) 2 = Some (cycleError ["r"; "b"; "d"])
     | _ => False
     end.
Proof. split; vm_compute; repeat split; reflexivity. Qed.

(** ** The frame of the loader *)

Lemma frame_refl pk : frame pk pk.
Proof. split; auto. Qed.

Lemma frame_trans pk1 pk2 pk3 : frame pk1 pk2 -> frame pk2 pk3 -> frame pk1 pk3.
Proof.
  intros [H1 H2 H3] [H4 H5 H6]. split; [congruence|congruence|auto].
Qed.

Lemma ext_refl s : ext s s.
Proof.
  split; [reflexivity|reflexivity|].
  intros l pk H. exists pk. split; [exact H|apply frame_refl].
Qed.

Lemma ext_trans s1 s2 s3 : ext s1 s2 -> ext s2 s3 -> ext s1 s3.
Proof.
  intros [H1 H2 H3] [H4 H5 H6]. split.
  - congruence.
  - etrans; eassumption.
  - intros l pk Hl. destruct (H3 l pk Hl) as (pk2 & Hl2 & Hf2).
    destruct (H6 l pk2 Hl2) as (pk3 & Hl3 & Hf3).
    exists pk3. split; [exact Hl3|]. eapply frame_trans; eassumption.
Qed.

Lemma isStandard_static b b' : static b = static b' -> isStandard b = isStandard b'.
Proof.
  unfold static, isStandard. intros H. injection H as _ _ Hip _ Hg.
  rewrite Hip, Hg. reflexivity.
Qed.

Lemma wf_package_frame pk pk' :
  wf_package pk -> frame pk pk' -> Standard pk = false -> wf_package pk'.
Proof.
  intros Hwf [Hb Hs He] Hstd b' Hb'. rewrite Hb' in Hb.
  destruct (Package_ pk) as [b|] eqn:Hpk; [|discriminate].
  simpl in Hb. assert (static b' = static b) as Hst by congruence.
  destruct (Hwf b Hpk) as [Hw _]. split.
  - rewrite Hs, Hw. symmetry. apply isStandard_static. exact Hst.
  - intros Habs. congruence.
Qed.

Lemma wf_insert s p pk' :
  wf s -> wf_package pk' -> wf (setHeap (<[p := pk']> (heap s)) s).
Proof.
  intros Hwf Hpk l pk Hl. simpl in Hl.
  apply list_lookup_insert_Some in Hl as [(-> & -> & _)|[_ Hl]];
    [exact Hpk|eapply Hwf; exact Hl].
Qed.

Lemma ext_insert s p pk pk' :
  heap s !! p = Some pk -> frame pk pk' ->
  ext s (setHeap (<[p := pk']> (heap s)) s).
Proof.
  intros Hp Hf. split; [reflexivity|reflexivity|].
  intros l q Hl. simpl. destruct (decide (p = l)) as [->|Hn].
  - exists pk'. split.
    + apply list_lookup_insert_eq. eapply lookup_lt_Some. exact Hl.
    + assert (q = pk) as -> by congruence. exact Hf.
  - exists q. split; [|apply frame_refl].
    rewrite list_lookup_insert_ne by exact Hn. exact Hl.
Qed.

Lemma setHeap_id s : setHeap (heap s) s = s.
Proof. destruct s; reflexivity. Qed.

(** ** Computations that are local to a package *)

Lemma local_pure {A} p (m : M A) :
  (forall s a s', m s = Ok (a, s') -> s' = s) -> local p m.
Proof.
  intros Hm s pk a s' Hp H. apply Hm in H. subst s'.
  exists pk. split; [|apply frame_refl].
  rewrite list_insert_id by exact Hp. symmetry. apply setHeap_id.
Qed.

Lemma local_ret {A} p (a : A) : local p (ret a).
Proof. apply local_pure. intros s b s' H. injection H as _ <-. reflexivity. Qed.

Lemma local_load p q : local p (load q).
Proof.
  apply local_pure. intros s a s' H. unfold load in H.
  destruct (heap s !! q); [|discriminate]. injection H as _ <-. reflexivity.
Qed.

Lemma local_lift {A} p (r : Res A) : local p (lift r).
Proof.
  apply local_pure. intros s a s' H. unfold lift in H.
  destruct r; simpl in H; try discriminate. injection H as _ <-. reflexivity.
Qed.

Lemma local_stk_copy p : local p stk_copy.
Proof. apply local_pure. intros s a s' H. injection H as _ <-. reflexivity. Qed.

Lemma local_bind {A B} p (m : M A) (k : A -> M B) :
  local p m -> (forall a, local p (k a)) -> local p (bind m k).
Proof.
  intros Hm Hk s pk b s' Hp H.
  apply bind_Ok in H as (a & s1 & H1 & H2).
  destruct (Hm s pk a s1 Hp H1) as (pk1 & -> & Hf1).
  assert (heap (setHeap (<[p := pk1]> (heap s)) s) !! p = Some pk1) as Hp1.
  { simpl. apply list_lookup_insert_eq. eapply lookup_lt_Some. exact Hp. }
  destruct (Hk a _ pk1 b s' Hp1 H2) as (pk2 & -> & Hf2).
  exists pk2. split; [|eapply frame_trans; eassumption].
  unfold setHeap. simpl. rewrite list_insert_insert_eq. reflexivity.
Qed.

Lemma local_loadBuild p q : local p (loadBuild q).
Proof.
  unfold loadBuild. apply local_bind; [apply local_load|].
  intros a. apply local_lift.
Qed.

Lemma local_modify p (f : Package -> Package) :
  (forall pk, frame pk (f pk)) -> local p (modify p f).
Proof.
  intros Hf s pk a s' Hp H. unfold modify in H. rewrite Hp in H.
  injection H as _ <-. exists (f pk). split; [reflexivity|apply Hf].
Qed.

Lemma frame_setError e pk : e <> None -> frame pk (setError e pk).
Proof. intros He. split; simpl; auto. Qed.

Lemma frame_setErrorPos f pk : frame pk (setError (option_map f (Error pk)) pk).
Proof.
  split; simpl; auto. destruct (Error pk); simpl; [discriminate|auto].
Qed.

Lemma frame_setLoadedDeps b pk : frame pk (setLoadedDeps b pk).
Proof. split; simpl; auto. Qed.

Lemma frame_setDeps d pk : frame pk (setDeps d pk).
Proof. split; simpl; auto. Qed.

Lemma local_recordImportError env p msg path :
  local p (recordImportError env p msg path).
Proof.
  unfold recordImportError.
  apply local_bind; [apply local_stk_copy|]. intros stack.
  apply local_bind.
  { apply local_modify. intros pk. apply frame_setError. discriminate. }
  intros _. apply local_bind; [apply local_loadBuild|]. intros b.
  destruct (default [] (build.ImportPos b !! path)); [apply local_ret|].
  apply local_modify. intros pk. apply frame_setErrorPos.
Qed.

Lemma local_depsLoop p depsMap depPaths :
  forall acc, local p (depsLoop p depsMap depPaths acc).
Proof.
  induction depPaths as [|dep depPaths IH]; intros acc; simpl.
  - apply local_ret.
  - destruct (depsMap !! dep) as [p1|].
    + apply local_bind.
      { apply local_modify. intros pk. apply frame_setDeps. }
      intros _. apply local_bind; [apply local_load|]. intros pk1. apply IH.
    + intros s pk a s' _ H. discriminate.
Qed.

Lemma local_finishDeps env p depsMap : local p (finishDeps env p depsMap).
Proof.
  unfold finishDeps. apply local_bind.
  { apply local_modify. intros pk. apply frame_setLoadedDeps. }
  intros _. apply local_bind; [apply local_depsLoop|]. intros depErrors.
  destruct (length depErrors =? 0); [|apply local_ret].
  apply local_bind; [apply local_lift|]. intros dd.
  destruct (negb _); [|apply local_ret].
  apply local_bind; [apply local_stk_copy|]. intros stack.
  apply local_modify. intros pk. apply frame_setError. discriminate.
Qed.

(** A local computation on a package outside of the standard library keeps
    the invariants. *)
Lemma local_ok {A} p (m : M A) s pk a s' :
  local p m -> heap s !! p = Some pk -> Standard pk = false -> wf s ->
  m s = Ok (a, s') ->
  wf s' /\ ext s s' /\ isDirCache s' = isDirCache s
  /\ exists pk', heap s' !! p = Some pk' /\ frame pk pk' /\ Standard pk' = false.
Proof.
  intros Hm Hp Hstd Hwf H. destruct (Hm s pk a s' Hp H) as (pk' & -> & Hf).
  split; [|split; [|split]].
  - apply wf_insert; [exact Hwf|].
    eapply wf_package_frame; [eapply Hwf; exact Hp|exact Hf|exact Hstd].
  - eapply ext_insert; eassumption.
  - reflexivity.
  - exists pk'. split; [|split; [exact Hf|]].
    + simpl. apply list_lookup_insert_eq. eapply lookup_lt_Some. exact Hp.
    + rewrite (frame_Standard _ _ Hf). exact Hstd.
Qed.

(** ** The memo table of [isDir] does not matter *)

Lemma vendorWalk_same env ip path dir lr n :
  forall searched c1 c2, coherent env c1 -> coherent env c2 ->
  match vendorWalk env ip path dir lr n searched c1 with
  | Ok (r, c1') =>
      coherent env c1'
      /\ exists c2', vendorWalk env ip path dir lr n searched c2 = Ok (r, c2')
  | Panic m => vendorWalk env ip path dir lr n searched c2 = Panic m
  | Exit e => vendorWalk env ip path dir lr n searched c2 = Exit e
  | OutOfFuel => vendorWalk env ip path dir lr n searched c2 = OutOfFuel
  end.
Proof.
  induction n as [|n IH]; intros searched c1 c2 H1 H2; simpl.
  - split; [exact H1|]. eauto.
  - destruct ((lr + n <? String.length dir)
              && negb (byteIs (lr + n) dir (Separator env))); [apply IH; auto|].
    destruct (isDir_coherent env (filepath_Join env (upto (lr + n) dir) "vendor")
                c1 H1) as (c1a & -> & H1a).
    destruct (isDir_coherent env (filepath_Join env (upto (lr + n) dir) "vendor")
                c2 H2) as (c2a & -> & H2a).
    destruct (os_Stat_IsDir env _); simpl; [|apply IH; auto].
    destruct (isDir_coherent env
                (filepath_Join env (upto (lr + n) dir) ("vendor/" +:+ path))
                c1a H1a) as (c1b & -> & H1b).
    destruct (isDir_coherent env
                (filepath_Join env (upto (lr + n) dir) ("vendor/" +:+ path))
                c2a H2a) as (c2b & -> & H2b).
    destruct (os_Stat_IsDir env _); [|apply IH; auto].
    destruct (_ =? _); [split; eauto|].
    destruct (_ <? _); [reflexivity|split; eauto].
Qed.

Lemma vendoredImportPath_same env parent path c1 c2 :
  coherent env c1 -> coherent env c2 ->
  match vendoredImportPath env parent path c1 with
  | Ok (r, c1') =>
      coherent env c1'
      /\ exists c2', vendoredImportPath env parent path c2 = Ok (r, c2')
  | Panic m => vendoredImportPath env parent path c2 = Panic m
  | Exit e => vendoredImportPath env parent path c2 = Exit e
  | OutOfFuel => vendoredImportPath env parent path c2 = OutOfFuel
  end.
Proof.
  intros H1 H2. unfold vendoredImportPath.
  destruct parent as [pk|]; [|split; eauto].
  destruct (existsb _ _); [split; eauto|].
  destruct (buildOf pk) as [b| | |]; simpl; try reflexivity.
  destruct (_ || _); [reflexivity|].
  destruct (negb _); [split; eauto|].
  apply vendorWalk_same; assumption.
Qed.

Lemma vendoredImportPath_effective env pk b path c eff sr c' :
  Package_ pk = Some b -> coherent env c ->
  vendoredImportPath env (Some pk) path c = Ok (eff, sr, c') ->
  effectivePath env b path = Ok (eff, sr) /\ coherent env c'.
Proof.
  intros Hb Hc H.
  assert (vendoredImportPath env (Some (setBuild b newPackage)) path c
          = Ok (eff, sr, c')) as H'.
  { rewrite <- H. unfold vendoredImportPath, buildOf. simpl. rewrite Hb.
    reflexivity. }
  pose proof (vendoredImportPath_same env (Some (setBuild b newPackage)) path
                c ∅ Hc (coherent_empty env)) as Hs.
  rewrite H' in Hs. destruct Hs as (Hc' & c2 & H2).
  split; [|exact Hc']. unfold effectivePath. rewrite H2. reflexivity.
Qed.

Lemma effectivePath_static env b b' path :
  static b = static b' -> effectivePath env b path = effectivePath env b' path.
Proof.
  unfold static. intros H. injection H as Hd Hr Hi _ _.
  unfold effectivePath, vendoredImportPath, buildOf. simpl.
  rewrite Hd, Hr, Hi. reflexivity.
Qed.

(** ** The invariants of the loader *)

Lemma update_ok s p pk pk' :
  heap s !! p = Some pk -> Standard pk = false -> wf s -> frame pk pk' ->
  wf (setHeap (<[p := pk']> (heap s)) s)
  /\ ext s (setHeap (<[p := pk']> (heap s)) s)
  /\ heap (setHeap (<[p := pk']> (heap s)) s) !! p = Some pk'
  /\ Standard pk' = false.
Proof.
  intros Hp Hstd Hwf Hf. split; [|split; [|split]].
  - apply wf_insert; [exact Hwf|].
    eapply wf_package_frame; [eapply Hwf; exact Hp|exact Hf|exact Hstd].
  - eapply ext_insert; eassumption.
  - simpl. apply list_lookup_insert_eq. eapply lookup_lt_Some. exact Hp.
  - rewrite (frame_Standard _ _ Hf). exact Hstd.
Qed.

Lemma load_inv p s pk s' :
  load p s = Ok (pk, s') -> s' = s /\ heap s !! p = Some pk.
Proof.
  unfold load. destruct (heap s !! p); [|discriminate].
  intros H. injection H as -> ->. auto.
Qed.

Lemma loadBuild_inv p s b s' :
  loadBuild p s = Ok (b, s') ->
  s' = s /\ exists pk, heap s !! p = Some pk /\ Package_ pk = Some b.
Proof.
  unfold loadBuild. intros H. apply bind_Ok in H as (pk & s1 & H1 & H2).
  apply load_inv in H1 as [-> Hp]. unfold lift, buildOf in H2.
  destruct (Package_ pk) eqn:Hb; [|discriminate]. simpl in H2.
  injection H2 as -> ->. eauto.
Qed.

Lemma mergeDeps_inv ds :
  forall depsMap s m s', mergeDeps ds depsMap s = Ok (m, s') -> s' = s.
Proof.
  induction ds as [|d ds IH]; intros depsMap s m s' H; simpl in H.
  - injection H as _ <-. reflexivity.
  - apply bind_Ok in H as (b & s1 & H1 & H2).
    apply loadBuild_inv in H1 as [-> _]. eapply IH. exact H2.
Qed.

Lemma recordImportError_hasError env p msg path s pk s' :
  heap s !! p = Some pk ->
  recordImportError env p msg path s = Ok (tt, s') ->
  hasError (heap s') p = true.
Proof.
  intros Hp H. unfold recordImportError in H.
  apply bind_Ok in H as (stack & s1 & H1 & H). injection H1 as <- <-.
  apply bind_Ok in H as ([] & s2 & H2 & H).
  rewrite (modify_eq p _ s pk Hp) in H2. injection H2 as <-.
  apply bind_Ok in H as (b & s3 & H3 & H).
  apply loadBuild_inv in H3 as [-> _].
  assert (heap (setHeap (<[p := setError (Some (mkError (stk s) msg)) pk]> (heap s)) s)
            !! p = Some (setError (Some (mkError (stk s) msg)) pk)) as Hp2.
  { simpl. apply list_lookup_insert_eq. eapply lookup_lt_Some. exact Hp. }
  destruct (default [] (build.ImportPos b !! path)) as [|pos0 ?].
  - injection H as <-. unfold hasError, errorOf. rewrite Hp2. reflexivity.
  - rewrite (modify_eq p _ _ _ Hp2) in H. injection H as <-.
    unfold hasError, errorOf. simpl.
    rewrite list_lookup_insert_eq; [reflexivity|].
    rewrite length_insert. eapply lookup_lt_Some. exact Hp.
Qed.

Lemma hasError_ext s s' p :
  ext s s' -> hasError (heap s) p = true -> hasError (heap s') p = true.
Proof.
  intros [_ _ Hf]. unfold hasError, errorOf.
  destruct (heap s !! p) as [pk|] eqn:Hp; [|discriminate].
  destruct (Hf p pk Hp) as (pk' & -> & [_ _ He]).
  destruct (Error pk); [|discriminate]. intros _.
  destruct (Error pk'); [reflexivity|]. exfalso. apply He; [discriminate|reflexivity].
Qed.

Lemma frame_static pk pk' b :
  frame pk pk' -> Package_ pk = Some b ->
  exists b', Package_ pk' = Some b' /\ static b' = static b.
Proof.
  intros [Hb _ _] Hpk. rewrite Hpk in Hb.
  destruct (Package_ pk') as [b'|]; [|discriminate].
  exists b'. split; [reflexivity|]. simpl in Hb. congruence.
Qed.

Lemma resolvedFor_ext s s' p l :
  ext s s' -> resolvedFor (heap s) p l -> resolvedFor (heap s') p l.
Proof.
  intros Hext (pk1 & b1 & Hl & Hb & Hmain).
  destruct (ext_frame _ _ Hext l pk1 Hl) as (pk1' & Hl' & Hf).
  destruct (frame_static pk1 pk1' b1 Hf Hb) as (b1' & Hb' & Hst).
  exists pk1', b1'. split; [exact Hl'|]. split; [exact Hb'|].
  intros Hn. eapply hasError_ext; [exact Hext|]. apply Hmain.
  unfold static in Hst. congruence.
Qed.

Lemma attempted_static env b b' l p s :
  static b = static b' -> attempted env b l p s -> attempted env b' l p s.
Proof.
  intros Hs H pre x post Hl Hloc Hx.
  destruct (H pre x post Hl Hloc Hx) as (eff & sr & v & He & Hc).
  exists eff, sr, v. split; [|exact Hc].
  rewrite <- (effectivePath_static env b b' x Hs). exact He.
Qed.

Lemma attempted_weaken env b l p s s' :
  ext s s' -> attempted env b l p s -> attempted env b l p s'.
Proof.
  intros Hs H pre x post Hl Hloc Hx.
  destruct (H pre x post Hl Hloc Hx) as (eff & sr & v & He & Hc & Hr).
  exists eff, sr, v. split; [exact He|]. split.
  - eapply lookup_weaken; [exact Hc|apply (ext_cache _ _ Hs)].
  - eapply resolvedFor_ext; eassumption.
Qed.

Lemma importLoop_ok env rec (Hrec : loader_ok env rec) p :
  forall importPaths i depsMap s r s' pk b,
  wf s -> coherent env (isDirCache s) ->
  heap s !! p = Some pk -> Package_ pk = Some b -> Standard pk = false ->
  importLoop env rec p i importPaths depsMap s = Ok (r, s') ->
  wf s' /\ coherent env (isDirCache s') /\ ext s s'
  /\ (exists pk', heap s' !! p = Some pk' /\ Standard pk' = false)
  /\ attempted env b importPaths p s'
  /\ stopped (heap s') p importPaths r.
Proof.
  induction importPaths as [|path rest IH];
    intros i depsMap s r s' pk b Hwf Hcoh Hp Hb Hstd H.
  - simpl in H. injection H as <- <-.
    split; [exact Hwf|]. split; [exact Hcoh|]. split; [apply ext_refl|].
    split; [eauto|]. split.
    + intros pre x post Hl. destruct pre; discriminate.
    + intros pre x post Hl. destruct pre; discriminate.
  - simpl in H. destruct (String.eqb_spec path "C") as [->|HnC].
    { destruct (IH _ _ _ _ _ _ _ Hwf Hcoh Hp Hb Hstd H)
        as (Hwf' & Hcoh' & Hext & Hp' & Hatt & Hstop).
      split; [exact Hwf'|]. split; [exact Hcoh'|]. split; [exact Hext|].
      split; [exact Hp'|]. split.
      - intros pre x post Hl Hloc Hx. destruct pre as [|z pre].
        + simpl in Hl. injection Hl as <- <-. contradiction.
        + simpl in Hl. injection Hl as <- ->.
          apply (Hatt pre x post eq_refl); [|exact Hx].
          intros z Hz. apply Hloc. apply list_elem_of_further. exact Hz.
      - intros pre x post Hl Hloc Hx. destruct pre as [|z pre].
        + simpl in Hl. injection Hl as <- <-. discriminate.
        + simpl in Hl. injection Hl as <- ->.
          apply (Hstop pre x post eq_refl); [|exact Hx].
          intros z Hz. apply Hloc. apply list_elem_of_further. exact Hz. }
    destruct (build.IsLocalImport path) eqn:Hlocal.
    { apply bind_Ok in H as ([] & s1 & H1 & H). injection H as <- <-.
      destruct (local_ok p _ s pk tt s1 (local_recordImportError env p _ path)
                  Hp Hstd Hwf H1) as (Hwf1 & Hext1 & Hdc & pk1 & Hp1 & _ & Hstd1).
      split; [exact Hwf1|]. split; [rewrite Hdc; exact Hcoh|].
      split; [exact Hext1|]. split; [eauto|]. split.
      - intros pre x post Hl Hloc Hx. destruct pre as [|z pre].
        + simpl in Hl. injection Hl as <- <-.
          rewrite Hloc in Hlocal; [discriminate|apply list_elem_of_here].
        + simpl in Hl. injection Hl as <- ->.
          rewrite Hloc in Hlocal; [discriminate|apply list_elem_of_here].
      - intros pre x post Hl Hloc Hx. split; [reflexivity|].
        exact (recordImportError_hasError env p _ path s pk _ Hp H1). }
    apply bind_Ok in H as (b0 & s0 & H0 & H).
    apply loadBuild_inv in H0 as (-> & pk0 & Hp0 & Hb0).
    assert (pk0 = pk) as -> by congruence. assert (b0 = b) as -> by congruence.
    apply bind_Ok in H as (p1 & s1 & Hcall & H).
    destruct (Hrec _ _ _ _ _ _ _ Hwf Hcoh Hcall)
      as (Hwf1 & Hcoh1 & Hext1 & eff & sr & c & Hvend & Hcache1).
    simpl in Hvend. rewrite Hp in Hvend.
    destruct (vendoredImportPath_effective env pk b path _ eff sr c Hb Hcoh Hvend)
      as [Heff _].
    destruct (ext_frame _ _ Hext1 p pk Hp) as (pk1 & Hp1 & Hf1).
    assert (Standard pk1 = false) as Hstd1
      by (rewrite (frame_Standard _ _ Hf1); exact Hstd).
    apply bind_Ok in H as (b1 & s1' & Hl1 & H).
    apply loadBuild_inv in Hl1 as (-> & pkd & Hpd & Hbd).
    apply bind_Ok in H as ([] & s2 & Hrecerr & H).
    assert (build.Name b1 = "main" -> hasError (heap s2) p = true) as Hmain.
    { intros Hn. rewrite Hn in Hrecerr. simpl in Hrecerr.
      exact (recordImportError_hasError env p _ path s1 pk1 _ Hp1 Hrecerr). }
    assert (local p (if String.eqb (build.Name b1) "main"
                     then recordImportError env p
                            ("import " +:+ Quote env path
                             +:+ " is a program, not an importable package") path
                     else ret tt)) as Hloc2
      by (destruct (String.eqb _ _); [apply local_recordImportError|apply local_ret]).
    destruct (local_ok p _ s1 pk1 tt s2 Hloc2 Hp1 Hstd1 Hwf1 Hrecerr)
      as (Hwf2 & Hext2 & Hdc2 & pk2 & Hp2 & Hf2 & Hstd2).
    apply bind_Ok in H as (b1' & s2' & Hl2 & H).
    apply loadBuild_inv in Hl2 as (-> & _).
    apply bind_Ok in H as (b2 & s2' & Hl2 & H).
    apply loadBuild_inv in Hl2 as (-> & pk2' & Hp2' & Hb2).
    assert (pk2' = pk2) as -> by congruence.
    apply bind_Ok in H as ([] & s3 & Hmod & H).
    assert (exists pk3, heap s3 !! p = Some pk3 /\ frame pk2 pk3
                        /\ Standard pk3 = false /\ wf s3 /\ ext s2 s3
                        /\ isDirCache s3 = isDirCache s2)
      as (pk3 & Hp3 & Hf3 & Hstd3 & Hwf3 & Hext3 & Hdc3).
    { destruct (i <? length (build.Imports b2)).
      - rewrite (modify_eq p _ s2 pk2 Hp2) in Hmod. injection Hmod as <-.
        assert (frame pk2 (setBuild (build.setImport i (build.ImportPath b1') b2) pk2))
          as Hfr by (split; simpl; [rewrite Hb2; reflexivity|reflexivity|auto]).
        destruct (update_ok s2 p pk2 _ Hp2 Hstd2 Hwf2 Hfr) as (Hw & He & Hl & Hs).
        eexists. split; [exact Hl|]. split; [exact Hfr|]. split; [exact Hs|].
        split; [exact Hw|]. split; [exact He|reflexivity].
      - injection Hmod as <-. exists pk2. split; [exact Hp2|].
        split; [apply frame_refl|]. split; [exact Hstd2|].
        split; [exact Hwf2|]. split; [apply ext_refl|reflexivity]. }
    destruct (frame_static pk pk1 b Hf1 Hb) as (bb1 & Hbb1 & Hst1).
    destruct (frame_static pk1 pk2 bb1 Hf2 Hbb1) as (bb2 & Hbb2 & Hst2).
    destruct (frame_static pk2 pk3 bb2 Hf3 Hbb2) as (bb3 & Hbb3 & Hst3).
    assert (static bb3 = static b) as Hst by congruence.
    assert (coherent env (isDirCache s3)) as Hcoh3
      by (rewrite Hdc3, Hdc2; exact Hcoh1).
    apply bind_Ok in H as (pk1' & s3' & Hl3 & H).
    apply load_inv in Hl3 as (-> & _).
    assert (exists m, importLoop env rec p (S i) rest m s3 = Ok (r, s'))
      as [m Hrest].
    { destruct (Standard pk1'); [eauto|].
      apply bind_Ok in H as (m & s3' & Hm & H).
      apply mergeDeps_inv in Hm as ->. eauto. }
    destruct (IH _ _ _ _ _ _ _ Hwf3 Hcoh3 Hp3 Hbb3 Hstd3 Hrest)
      as (Hwf' & Hcoh' & Hext' & Hp' & Hatt & Hstop).
    assert (ext s s') as Hext.
    { eapply ext_trans; [exact Hext1|]. eapply ext_trans; [exact Hext2|].
      eapply ext_trans; [exact Hext3|exact Hext']. }
    split; [exact Hwf'|]. split; [exact Hcoh'|]. split; [exact Hext|].
    split; [exact Hp'|]. split.
    + intros pre x post Hl Hloc Hx. destruct pre as [|z pre].
      * simpl in Hl. injection Hl as <- <-.
        assert (ext s2 s') as Hext2' by (eapply ext_trans; eassumption).
        exists eff, sr, p1. split; [exact Heff|]. split.
        -- eapply lookup_weaken; [exact Hcache1|].
           etrans; [apply (ext_cache _ _ Hext2)|apply (ext_cache _ _ Hext2')].
        -- apply (resolvedFor_ext s2 s' p p1 Hext2').
           destruct (ext_frame _ _ Hext2 p1 pkd Hpd) as (pkd' & Hpd' & Hfd).
           destruct (frame_static pkd pkd' b1 Hfd Hbd) as (bd' & Hbd' & Hstd').
           exists pkd', bd'. split; [exact Hpd'|]. split; [exact Hbd'|].
           intros Hn. apply Hmain. unfold static in Hstd'. congruence.
      * simpl in Hl. injection Hl as <- ->.
        apply (attempted_static env bb3 b _ _ _ Hst Hatt pre x post eq_refl);
          [|exact Hx].
        intros z Hz. apply Hloc. apply list_elem_of_further. exact Hz.
    + intros pre x post Hl Hloc Hx. destruct pre as [|z pre].
      * simpl in Hl. injection Hl as <- <-. congruence.
      * simpl in Hl. injection Hl as <- ->.
        apply (Hstop pre x post eq_refl); [|exact Hx].
        intros z Hz. apply Hloc. apply list_elem_of_further. exact Hz.
Qed.

Lemma loadDeps_ok env rec (Hrec : loader_ok env rec) p err s s' pk b :
  wf s -> coherent env (isDirCache s) ->
  heap s !! p = Some pk -> Package_ pk = Some b -> Standard pk = false ->
  loadDeps env rec p err s = Ok (tt, s') ->
  wf s' /\ coherent env (isDirCache s') /\ ext s s'
  /\ (exists pk', heap s' !! p = Some pk' /\ Standard pk' = false)
  /\ forall y, err = None -> foldDup env (allFiles b) = Ok (EmptyString, y) ->
       let importPaths :=
         build.Imports b ++ build.TestImports b ++ build.XTestImports b in
       attempted env b importPaths p s'
       /\ forall pre x post, importPaths = pre ++ x :: post ->
            (forall z, z ∈ pre -> build.IsLocalImport z = false) ->
            build.IsLocalImport x = true ->
            hasError (heap s') p = true.
Proof.
  intros Hwf Hcoh Hp Hb Hstd H. unfold loadDeps in H.
  destruct err as [msg|].
  { assert (local p (run stack <- stk_copy;
                     modify p (setError (Some (mkError stack msg))))) as Hloc.
    { apply local_bind; [apply local_stk_copy|]. intros stack.
      apply local_modify. intros q. apply frame_setError. discriminate. }
    destruct (local_ok p _ s pk tt s' Hloc Hp Hstd Hwf H)
      as (Hwf' & Hext & Hdc & pk' & Hp' & _ & Hstd').
    split; [exact Hwf'|]. split; [rewrite Hdc; exact Hcoh|].
    split; [exact Hext|]. split; [eauto|]. intros y Hy. discriminate. }
  apply bind_Ok in H as (b0 & s0 & H0 & H).
  apply loadBuild_inv in H0 as (-> & pk0 & Hp0 & Hb0).
  assert (pk0 = pk) as -> by congruence. assert (b0 = b) as -> by congruence.
  apply bind_Ok in H as (ff & s0 & Hff & H).
  unfold lift in Hff. destruct (foldDup env (allFiles b)) as [ff'| | |] eqn:Hdup;
    simpl in Hff; try discriminate. injection Hff as <- <-.
  destruct (negb (String.eqb (fst ff') EmptyString)) eqn:Hcol.
  { assert (local p (run stack <- stk_copy;
                     modify p (setError (Some (mkError stack
                       ("case-insensitive file name collision: "
                        +:+ Quote env (fst ff') +:+ " and "
                        +:+ Quote env (snd ff'))))))) as Hloc.
    { apply local_bind; [apply local_stk_copy|]. intros stack.
      apply local_modify. intros q. apply frame_setError. discriminate. }
    destruct (local_ok p _ s pk tt s' Hloc Hp Hstd Hwf H)
      as (Hwf' & Hext & Hdc & pk' & Hp' & _ & Hstd').
    split; [exact Hwf'|]. split; [rewrite Hdc; exact Hcoh|].
    split; [exact Hext|]. split; [eauto|]. intros y _ Hy.
    injection Hy as ->. simpl in Hcol. discriminate. }
  apply bind_Ok in H as (r & s1 & Hloop & H).
  destruct (importLoop_ok env rec Hrec p _ _ _ _ _ _ pk b Hwf Hcoh Hp Hb Hstd Hloop)
    as (Hwf1 & Hcoh1 & Hext1 & (pk1 & Hp1 & Hstd1) & Hatt & Hstop).
  destruct r as [depsMap|].
  - destruct (local_ok p _ s1 pk1 tt s' (local_finishDeps env p depsMap)
                Hp1 Hstd1 Hwf1 H) as (Hwf' & Hext' & Hdc & pk' & Hp' & _ & Hstd').
    split; [exact Hwf'|]. split; [rewrite Hdc; exact Hcoh1|].
    split; [eapply ext_trans; eassumption|]. split; [eauto|].
    intros y _ _. split.
    + eapply attempted_weaken; [exact Hext'|exact Hatt].
    + intros pre x post Hl Hloc Hx.
      destruct (Hstop pre x post Hl Hloc Hx) as [Habs _]. discriminate.
  - injection H as <-.
    split; [exact Hwf1|]. split; [exact Hcoh1|]. split; [exact Hext1|].
    split; [eauto|]. intros y _ _. split; [exact Hatt|].
    intros pre x post Hl Hloc Hx.
    destruct (Hstop pre x post Hl Hloc Hx) as [_ He]. exact He.
Qed.

Lemma frame_reusePackage pk stack : frame pk (reusePackage pk stack).
Proof.
  unfold reusePackage.
  destruct (loadedDeps pk), (Error pk) as [e|] eqn:He; simpl; try rewrite He;
    try (destruct (negb (isImportCycle e) && shorterThan stack (ImportStack e)));
    split; simpl; auto; try discriminate; try congruence.
Qed.

Lemma reusePackage_Package_ pk stack :
  Package_ (reusePackage pk stack) = Package_ pk.
Proof.
  pose proof (frame_build _ _ (frame_reusePackage pk stack)) as Hf.
  unfold reusePackage in *.
  destruct (loadedDeps pk); destruct (Error pk) as [e|] eqn:He; cbn in *;
    rewrite ?He in *; cbn in *;
    try (destruct (negb (isImportCycle e) && shorterThan stack (ImportStack e)));
    reflexivity.
Qed.

Lemma wf_package_reusePackage pk stack :
  wf_package pk -> wf_package (reusePackage pk stack).
Proof.
  intros Hwf. destruct (Standard pk) eqn:Hstd.
  - intros b Hb. rewrite reusePackage_Package_ in Hb.
    destruct (Hwf b Hb) as [H1 H2]. destruct (H2 Hstd) as (Hd & Hl & He).
    rewrite (reusePackage_loading pk stack Hl He). split; [exact H1|auto].
  - eapply wf_package_frame; [exact Hwf|apply frame_reusePackage|exact Hstd].
Qed.

Lemma vendoredImportPathM_inv env parent path s eff sr s1 :
  vendoredImportPathM env parent path s = Ok ((eff, sr), s1) ->
  exists c, vendoredImportPath env (parentOf s parent) path (isDirCache s)
            = Ok (eff, sr, c)
            /\ s1 = setIsDirCache c s.
Proof.
  unfold vendoredImportPathM. intros H.
  apply bind_Ok in H as (pp & s0 & H0 & H).
  assert (s0 = s /\ pp = parentOf s parent) as [-> ->].
  { destruct parent as [l|]; simpl in *.
    - apply bind_Ok in H0 as (pk & s0' & Hl & Hr).
      apply load_inv in Hl as [-> Hl]. injection Hr as <- <-. auto.
    - injection H0 as <- <-. auto. }
  destruct (vendoredImportPath env (parentOf s parent) path (isDirCache s))
    as [[[f sr'] c]| | |]; simpl in H; try discriminate.
  injection H as <- <- <-. eauto.
Qed.

Lemma coherent_vendoredImportPath env parent path c eff sr c' :
  coherent env c ->
  vendoredImportPath env parent path c = Ok (eff, sr, c') -> coherent env c'.
Proof.
  intros Hc H.
  pose proof (vendoredImportPath_same env parent path c c Hc Hc) as Hs.
  rewrite H in Hs. tauto.
Qed.

Lemma wf_package_copyBuild bp : wf_package (copyBuild bp newPackage).
Proof.
  intros b Hb. simpl in Hb. injection Hb as <-. simpl.
  split; [reflexivity|]. auto.
Qed.

Lemma loadImport_body_ok env rec (Hrec : loader_ok env rec)
    path srcDir parent importPos s l s' :
  wf s -> coherent env (isDirCache s) ->
  loadImport_body env rec path srcDir parent importPos s = Ok (l, s') ->
  wf s' /\ coherent env (isDirCache s') /\ ext s s'
  /\ exists eff searched c,
       vendoredImportPath env (parentOf s parent) path (isDirCache s)
       = Ok (eff, searched, c)
       /\ packageCache s' !! eff = Some l.
Proof.
  intros Hwf Hcoh H. unfold loadImport_body in H.
  apply bind_Ok in H as ([eff sr] & s1 & Hv & H).
  apply vendoredImportPathM_inv in Hv as (c & Hv & ->).
  pose proof (coherent_vendoredImportPath env _ path _ eff sr c Hcoh Hv) as Hc1.
  cbn [fst snd] in H.
  set (s1 := setIsDirCache c s) in *.
  assert (wf s1) as Hwf1 by exact Hwf.
  assert (ext s s1) as Hext1.
  { split; [reflexivity|reflexivity|].
    intros q pk Hq. exists pk. split; [exact Hq|apply frame_refl]. }
  assert (coherent env (isDirCache s1)) as Hcoh1 by exact Hc1.
  clearbody s1. clear Hc1. rename Hcoh1 into Hc1.
  destruct (packageCache s1 !! eff) as [p|] eqn:Hhit.
  - apply bind_Ok in H as (stack & s2 & Hs & H). injection Hs as <- <-.
    apply bind_Ok in H as ([] & s2 & Hm & H). injection H as <- <-.
    unfold modify in Hm. destruct (heap s1 !! p) as [pk|] eqn:Hp; [|discriminate].
    injection Hm as <-.
    split; [|split; [|split]].
    + apply wf_insert; [exact Hwf1|].
      apply wf_package_reusePackage. eapply Hwf1. exact Hp.
    + exact Hc1.
    + eapply ext_trans; [exact Hext1|].
      eapply ext_insert; [exact Hp|apply frame_reusePackage].
    + exists eff, sr, c. split; [exact Hv|exact Hhit].
  - apply bind_Ok in H as (p & s2 & Ha & H). injection Ha as <- <-.
    apply bind_Ok in H as ([] & s3 & Hi & H). injection Hi as <-.
    destruct (build_Import env eff srcDir) as [bp0 err0].
    set (bp := if negb (String.eqb (gobin env) EmptyString)
               then build.setBinDir (gobin env) (build.setImportPath eff bp0)
               else build.setImportPath eff bp0) in *.
    match type of H with
    | context [loadDeps env rec _ ?e] => set (err := e) in *
    end.
    apply bind_Ok in H as ([] & s4 & Hm & H).
    set (p := length (heap s1)) in *.
    assert (s4 = setHeap (heap s1 ++ [copyBuild bp newPackage])
                   (setPackageCache (<[eff := p]> (packageCache s1)) s1)) as ->.
    { unfold modify in Hm. simpl in Hm.
      rewrite lookup_app_r in Hm by (unfold p; lia).
      replace (p - length (heap s1)) with 0 in Hm by (unfold p; lia).
      simpl in Hm. injection Hm as <-. unfold setHeap. simpl. f_equal.
      unfold p. rewrite insert_app_r_alt by lia.
      replace (length (heap s1) - length (heap s1)) with 0 by lia. reflexivity. }
    set (s4 := setHeap (heap s1 ++ [copyBuild bp newPackage])
                 (setPackageCache (<[eff := p]> (packageCache s1)) s1)) in *.
    assert (heap s4 !! p = Some (copyBuild bp newPackage)) as Hp4.
    { simpl. rewrite lookup_app_r by (unfold p; lia).
      replace (p - length (heap s1)) with 0 by (unfold p; lia). reflexivity. }
    assert (wf s4) as Hwf4.
    { intros q pk Hq. simpl in Hq. apply lookup_app_Some in Hq as [Hq|[_ Hq]].
      - eapply Hwf1. exact Hq.
      - destruct (q - length (heap s1)); simpl in Hq; [|discriminate].
        injection Hq as <-. apply wf_package_copyBuild. }
    assert (ext s1 s4) as Hext4.
    { split; [reflexivity| |].
      - simpl. apply insert_subseteq. exact Hhit.
      - intros q pk Hq. exists pk. split; [|apply frame_refl].
        simpl. apply lookup_app_l_Some. exact Hq. }
    assert (packageCache s4 !! eff = Some p) as Hc4
      by (simpl; apply lookup_insert_eq).
    apply bind_Ok in H as (pk4 & s4' & Hl4 & H).
    apply load_inv in Hl4 as [-> Hl4].
    assert (pk4 = copyBuild bp newPackage) as -> by congruence.
    destruct (Standard (copyBuild bp newPackage)) eqn:Hstd.
    + injection H as <- <-.
      split; [exact Hwf4|]. split; [exact Hc1|].
      split; [eapply ext_trans; eassumption|].
      exists eff, sr, c. split; [exact Hv|exact Hc4].
    + apply bind_Ok in H as ([] & s5 & Hld & H).
      destruct (loadDeps_ok env rec Hrec p err s4 s5 _ bp Hwf4 Hc1 Hp4 eq_refl
                  Hstd Hld) as (Hwf5 & Hcoh5 & Hext5 & (pk5 & Hp5 & Hstd5) & _).
      apply bind_Ok in H as (pk5' & s5' & Hl5 & H).
      apply load_inv in Hl5 as [-> Hl5].
      assert (pk5' = pk5) as -> by congruence.
      assert (exists s6, s' = s6 /\ l = p /\ wf s6 /\ ext s5 s6
                         /\ isDirCache s6 = isDirCache s5)
        as (s6 & -> & -> & Hwf6 & Hext6 & Hdc6).
      { destruct (Error pk5) as [e|] eqn:He, importPos as [|pos ?].
        - injection H as <- <-. exists s5.
          split; [reflexivity|]. split; [reflexivity|]. split; [exact Hwf5|].
          split; [apply ext_refl|reflexivity].
        - apply bind_Ok in H as ([] & s6 & Hm6 & H). injection H as <- <-.
          rewrite (modify_eq p _ s5 pk5 Hp5) in Hm6. injection Hm6 as <-.
          eexists. split; [reflexivity|]. split; [reflexivity|].
          split; [|split; [|reflexivity]].
          + apply wf_insert; [exact Hwf5|].
            eapply wf_package_frame;
              [eapply Hwf5; exact Hp5|apply frame_setError; discriminate
              |exact Hstd5].
          + eapply ext_insert; [exact Hp5|apply frame_setError; discriminate].
        - injection H as <- <-. exists s5.
          split; [reflexivity|]. split; [reflexivity|]. split; [exact Hwf5|].
          split; [apply ext_refl|reflexivity].
        - injection H as <- <-. exists s5.
          split; [reflexivity|]. split; [reflexivity|]. split; [exact Hwf5|].
          split; [apply ext_refl|reflexivity]. }
      split; [exact Hwf6|]. split; [rewrite Hdc6; exact Hcoh5|].
      split.
      { eapply ext_trans; [exact Hext1|]. eapply ext_trans; [exact Hext4|].
        eapply ext_trans; [exact Hext5|exact Hext6]. }
      exists eff, sr, c. split; [exact Hv|].
      eapply lookup_weaken; [exact Hc4|].
      etrans; [apply (ext_cache _ _ Hext5)|apply (ext_cache _ _ Hext6)].
Qed.

Lemma loadImport_ok env fuel : loader_ok env (loadImport env fuel).
Proof.
  induction fuel as [|fuel IH];
    intros path srcDir parent importPos s l s' Hwf Hcoh H; [discriminate|].
  simpl in H.
  apply bind_Ok in H as ([] & s0 & Hpush & H). injection Hpush as <-.
  apply bind_Ok in H as (p & s1 & Hbody & H).
  apply bind_Ok in H as ([] & s2 & Hpop & H). injection Hpop as <-.
  injection H as <- <-.
  destruct (loadImport_body_ok env _ IH path srcDir parent importPos
              (setStk (push path (stk s)) s) p s1 Hwf Hcoh Hbody)
    as (Hwf1 & Hcoh1 & Hext1 & eff & sr & c & Hv & Hc).
  split; [exact Hwf1|]. split; [exact Hcoh1|]. split.
  - destruct Hext1 as [Hs Hca Hf]. split.
    + simpl. rewrite Hs. simpl. apply pop_push.
    + exact Hca.
    + exact Hf.
  - exists eff, sr, c. split; [exact Hv|exact Hc].
Qed.

(** ** Sibling imports *)

Lemma checkLoaded_spec pkgs :
  forall ok s, (forall l, l ∈ pkgs -> l < length (heap s)) ->
  checkLoaded pkgs ok s
  = Ok (ok && forallb (fun l => negb (hasError (heap s) l
                                      || standardAt (heap s) l)) pkgs, s).
Proof.
  induction pkgs as [|l pkgs IH]; intros ok s Hv; simpl.
  - rewrite andb_true_r. reflexivity.
  - destruct (lookup_lt_is_Some_2 (heap s) l) as [pk Hpk];
      [apply Hv; apply list_elem_of_here|].
    rewrite (bind_eq _ _ _ _ _ (load_eq l s pk Hpk)).
    rewrite IH by (intros l' Hl'; apply Hv; apply list_elem_of_further; exact Hl').
    unfold hasError, errorOf, standardAt. rewrite Hpk.
    destruct (Error pk), (Standard pk), ok; reflexivity.
Qed.

Lemma recordImportError_eq env p msg path s pk b :
  heap s !! p = Some pk -> Package_ pk = Some b ->
  recordImportError env p msg path s
  = Ok (tt, setHeap (<[p := setError (Some (importError env b (stk s) msg path)) pk]>
                       (heap s)) s).
Proof.
  intros Hp Hb. unfold recordImportError.
  rewrite (bind_eq _ _ _ _ _ (eq_refl : stk_copy s = Ok (stk s, s))).
  rewrite (bind_eq _ _ _ _ _ (modify_eq p _ s pk Hp)).
  set (s1 := setHeap _ s).
  assert (heap s1 !! p = Some (setError (Some (mkError (stk s) msg)) pk)) as Hp1.
  { simpl. apply list_lookup_insert_eq. eapply lookup_lt_Some. exact Hp. }
  rewrite (bind_eq _ _ _ _ _ (loadBuild_eq p s1 _ b Hp1 Hb)).
  unfold importError.
  destruct (default [] (build.ImportPos b !! path)) as [|pos0 l].
  - reflexivity.
  - rewrite (modify_eq p _ s1 _ Hp1). unfold s1. simpl.
    rewrite list_insert_insert_eq. reflexivity.
Qed.

(** The loop over a list is the loop over its first part followed by the
    loop over the rest. *)
Lemma importLoop_app env rec p (pre rest : list string) :
  forall i m s,
  importLoop env rec p i (pre ++ rest) m s
  = match importLoop env rec p i pre m s with
    | Ok (Some m', s1) => importLoop env rec p (i + length pre) rest m' s1
    | Ok (None, s1) => Ok (None, s1)
    | Panic e => Panic e
    | Exit c => Exit c
    | OutOfFuel => OutOfFuel
    end.
Proof.
  induction pre as [|x pre IH]; intros i m s.
  - simpl. rewrite Nat.add_0_r. reflexivity.
  - cbn [app importLoop length].
    replace (i + S (length pre)) with (S i + length pre) by lia.
    destruct (String.eqb x "C"); [apply IH|].
    destruct (build.IsLocalImport x).
    { unfold bind. destruct (recordImportError env p _ x s) as [[[] s1]| | |];
        reflexivity. }
    unfold bind.
    destruct (loadBuild p s) as [[b s0]| | |]; cbn [res_bind]; try reflexivity.
    destruct (rec x (build.Dir b) (Some p) _ s0) as [[p1 s1]| | |];
      cbn [res_bind]; try reflexivity.
    destruct (loadBuild p1 s1) as [[b1 s2]| | |]; cbn [res_bind]; try reflexivity.
    destruct ((if String.eqb (build.Name b1) "main"
               then recordImportError env p _ x else ret tt) s2)
      as [[[] s3]| | |]; cbn [res_bind]; try reflexivity.
    destruct (loadBuild p1 s3) as [[b1' s4]| | |]; cbn [res_bind]; try reflexivity.
    destruct (loadBuild p s4) as [[b' s5]| | |]; cbn [res_bind]; try reflexivity.
    destruct ((if i <? length (build.Imports b')
               then modify p _ else ret tt) s5)
      as [[[] s6]| | |]; cbn [res_bind]; try reflexivity.
    destruct (load p1 s6) as [[pk1 s7]| | |]; cbn [res_bind]; try reflexivity.
    destruct (Standard pk1); [apply IH|].
    destruct (mergeDeps (deps pk1) _ s7) as [[m' s8]| | |]; cbn [res_bind];
      try reflexivity.
    apply IH.
Qed.

Lemma mergeDeps_eq (ds : list loc) :
  forall m s, forallb (validDep (heap s)) ds = true ->
  exists m', mergeDeps ds m s = Ok (m', s).
Proof.
  induction ds as [|d ds IH]; intros m s Hv; simpl; [eauto|].
  simpl in Hv. apply andb_true_iff in Hv as [Hd Hv]. unfold validDep in Hd.
  destruct (heap s !! d) as [pkd|] eqn:Hl; [|discriminate].
  destruct (Package_ pkd) as [b|] eqn:Hb; [|discriminate].
  rewrite (bind_eq _ _ _ _ _ (loadBuild_eq d s pkd b Hl Hb)).
  apply IH. exact Hv.
Qed.

Lemma validDep_insert (h : list Package) (p : loc) (pk pk' : Package) (d : loc) :
  h !! p = Some pk -> is_Some (Package_ pk) -> is_Some (Package_ pk') ->
  validDep (<[p := pk']> h) d = validDep h d.
Proof.
  intros Hp [b Hb] [b' Hb']. unfold validDep.
  destruct (decide (p = d)) as [->|Hn].
  - rewrite list_lookup_insert_eq by (eapply lookup_lt_Some; exact Hp).
    rewrite Hp, Hb, Hb'. reflexivity.
  - rewrite list_lookup_insert_ne by exact Hn. reflexivity.
Qed.

(** One turn of the loop for an import that is neither "C" nor local, when
    the loader returns a package for it: the loop goes on, and only the
    package at [p] has changed since the loader returned. *)
Lemma importLoop_step env (rec : Loader) p i x rest m s1 pk1 b1 p1 s2
    pkp bp pkd bd :
  x <> "C" -> build.IsLocalImport x = false ->
  heap s1 !! p = Some pk1 -> Package_ pk1 = Some b1 ->
  rec x (build.Dir b1) (Some p) (default [] (build.ImportPos b1 !! x)) s1
  = Ok (p1, s2) ->
  heap s2 !! p = Some pkp -> Package_ pkp = Some bp ->
  heap s2 !! p1 = Some pkd -> Package_ pkd = Some bd ->
  forallb (validDep (heap s2)) (deps pkd) = true ->
  exists m' pk3,
    importLoop env rec p i (x :: rest) m s1
    = importLoop env rec p (S i) rest m' (setHeap (<[p := pk3]> (heap s2)) s2)
    /\ is_Some (Package_ pk3)
    /\ Standard pk3 = Standard pkp
    /\ loadedDeps pk3 = loadedDeps pkp /\ deps pk3 = deps pkp
    /\ (build.Name bd = "main" -> Error pk3 <> None)
    /\ (Error pkp <> None -> Error pk3 <> None).
Proof.
  intros HxC Hloc Hp1 Hb1 Hcall Hp2 Hbp Hd Hbd Hv.
  cbn [importLoop].
  rewrite (proj2 (String.eqb_neq x "C") HxC), Hloc.
  rewrite (bind_eq _ _ _ _ _ (loadBuild_eq p s1 pk1 b1 Hp1 Hb1)).
  rewrite (bind_eq _ _ _ _ _ Hcall).
  rewrite (bind_eq _ _ _ _ _ (loadBuild_eq p1 s2 pkd bd Hd Hbd)).
  pose proof (lookup_lt_Some _ _ _ Hp2) as Hlt.
  (* the error for a program *)
  assert (exists pkA,
            (if String.eqb (build.Name bd) "main"
             then recordImportError env p
                    ("import " +:+ Quote env x
                     +:+ " is a program, not an importable package") x
             else ret tt) s2
            = Ok (tt, setHeap (<[p := pkA]> (heap s2)) s2)
            /\ Package_ pkA = Some bp /\ Standard pkA = Standard pkp
            /\ loadedDeps pkA = loadedDeps pkp /\ deps pkA = deps pkp
            /\ (build.Name bd = "main" -> Error pkA <> None)
            /\ (Error pkp <> None -> Error pkA <> None))
    as (pkA & HA & HbA & HsA & HlA & HdA & HmA & HeA).
  { destruct (String.eqb_spec (build.Name bd) "main") as [Hn|Hn].
    - eexists. split; [apply (recordImportError_eq env p _ x s2 pkp bp Hp2 Hbp)|].
      simpl. repeat split; auto; try discriminate.
    - exists pkp. split.
      + rewrite list_insert_id by exact Hp2. rewrite setHeap_id. reflexivity.
      + repeat split; auto; try contradiction. }
  rewrite (bind_eq _ _ _ _ _ HA).
  set (sA := setHeap (<[p := pkA]> (heap s2)) s2).
  assert (heap sA !! p = Some pkA) as HpA
    by (simpl; apply list_lookup_insert_eq; exact Hlt).
  assert (exists pkd', heap sA !! p1 = Some pkd' /\ Package_ pkd' = Some bd)
    as (pkd' & Hd' & Hbd').
  { destruct (decide (p = p1)) as [<-|Hn].
    - exists pkA. split; [exact HpA|]. congruence.
    - exists pkd. split; [|exact Hbd]. simpl.
      rewrite list_lookup_insert_ne by exact Hn. exact Hd. }
  rewrite (bind_eq _ _ _ _ _ (loadBuild_eq p1 sA pkd' bd Hd' Hbd')).
  rewrite (bind_eq _ _ _ _ _ (loadBuild_eq p sA pkA bp HpA HbA)).
  (* the import path is rewritten *)
  assert (exists pkB,
            (if i <? length (build.Imports bp)
             then modify p (fun pk =>
                    setBuild (build.setImport i (build.ImportPath bd) bp) pk)
             else ret tt) sA
            = Ok (tt, setHeap (<[p := pkB]> (heap s2)) s2)
            /\ is_Some (Package_ pkB) /\ Standard pkB = Standard pkp
            /\ loadedDeps pkB = loadedDeps pkp /\ deps pkB = deps pkp
            /\ Error pkB = Error pkA)
    as (pkB & HB & HbB & HsB & HlB & HdB & HeB).
  { destruct (i <? length (build.Imports bp)).
    - eexists. split.
      + rewrite (modify_eq p _ sA pkA HpA). unfold sA. simpl.
        rewrite list_insert_insert_eq. reflexivity.
      + simpl. repeat split; eauto.
    - exists pkA. split; [reflexivity|]. repeat split; eauto. }
  rewrite (bind_eq _ _ _ _ _ HB).
  set (sB := setHeap (<[p := pkB]> (heap s2)) s2).
  assert (exists pkd2, heap sB !! p1 = Some pkd2
                       /\ Standard pkd2 = Standard pkd /\ deps pkd2 = deps pkd)
    as (pkd2 & Hd2 & Hsd2 & Hdd2).
  { destruct (decide (p = p1)) as [<-|Hn].
    - exists pkB. split; [simpl; apply list_lookup_insert_eq; exact Hlt|].
      assert (pkd = pkp) as -> by congruence. auto.
    - exists pkd. split; [|auto]. simpl.
      rewrite list_lookup_insert_ne by exact Hn. exact Hd. }
  rewrite (bind_eq _ _ _ _ _ (load_eq p1 sB pkd2 Hd2)).
  assert (Error pkp <> None -> Error pkB <> None) as HeB'
    by (rewrite HeB; exact HeA).
  assert (build.Name bd = "main" -> Error pkB <> None) as HmB
    by (rewrite HeB; exact HmA).
  destruct (Standard pkd2).
  - exists m, pkB. split; [reflexivity|]. repeat split; auto.
  - destruct (mergeDeps_eq (deps pkd2) (<[build.ImportPath bd := p1]> m) sB)
      as [m' Hm'].
    { rewrite Hdd2. apply forallb_forall. intros d Hin.
      rewrite forallb_forall in Hv. simpl.
      rewrite (validDep_insert (heap s2) p pkp pkB d Hp2) by eauto.
      apply Hv. exact Hin. }
    rewrite (bind_eq _ _ _ _ _ Hm').
    exists m', pkB. split; [reflexivity|]. repeat split; auto.
Qed.

(** A path that is not in the cache and for which [go/build] reports an
    error. *)
Lemma loadImport_failure_eq env (fuel : nat) (path srcDir : string)
    (parent : option loc) (importPos : list Position) (s : State)
    (eff : string) (searched : list string) (c : gmap string bool)
    (bp : build.Package) (text : string) :
  (parentOf s parent = None -> parent = None) ->
  vendoredImportPath env (parentOf s parent) path (isDirCache s)
  = Ok (eff, searched, c) ->
  packageCache s !! eff = None ->
  build_Import env eff srcDir = (bp, Some text) ->
  build.Goroot bp && negb (String.eqb eff EmptyString)
  && negb (Contains eff ".") = false ->
  exists b',
    loadImport env (S fuel) path srcDir parent importPos s
    = Ok (length (heap s),
          {| packageCache := <[eff := length (heap s)]> (packageCache s);
             isDirCache := c;
             heap := heap s ++
               [{| Package_ := Some b'; Standard := false;
                   Error :=
                     Some {| ImportStack := stk s ++ [path];
                             Pos := match importPos with
                                    | pos :: _ =>
                                        Position_String env
                                          {| Filename := shortPath env (Filename pos);
                                             Offset := Offset pos;
                                             Line := Line pos;
                                             Column := Column pos |}
                                    | [] => EmptyString
                                    end;
                             Err := if 0 <? length searched
                                    then addVendorSearch text searched
                                    else text;
                             isImportCycle := false; hard := false |};
                   loadedDeps := false; deps := [] |}];
             stk := stk s |})
    /\ build.ImportPath b' = eff
    /\ build.Dir b' = build.Dir bp
    /\ build.Imports b' = build.Imports bp.
Proof.
  intros Hpar Hv Hmiss Himp Hnstd.
  set (b' := if negb (String.eqb (gobin env) EmptyString)
             then build.setBinDir (gobin env) (build.setImportPath eff bp)
             else build.setImportPath eff bp).
  assert (build.ImportPath b' = eff /\ build.Goroot b' = build.Goroot bp
          /\ build.Dir b' = build.Dir bp
          /\ build.Imports b' = build.Imports bp)
    as (Hip & Hgo' & Hdir & Hi1).
  { unfold b'. destruct (negb (String.eqb (gobin env) EmptyString));
      repeat split; reflexivity. }
  exists b'. split; [|auto].
  cbn [loadImport]. unfold bind at 1. cbn [stk_push res_bind].
  set (s0 := setStk (push path (stk s)) s).
  assert (vendoredImportPathM env parent path s0
          = Ok ((eff, searched), setIsDirCache c s0)) as Hvm
    by (apply vendoredImportPathM_eq; [exact Hpar|exact Hv]).
  unfold bind at 1. unfold loadImport_body.
  rewrite (bind_eq _ _ _ _ _ Hvm). cbn [fst snd].
  replace (packageCache (setIsDirCache c s0) !! eff) with (@None nat)
    by (symmetry; exact Hmiss).
  unfold bind at 1. cbn [alloc res_bind]. unfold bind at 1. cbn [res_bind].
  rewrite Himp. fold b'.
  unfold bind at 1, modify. cbn [heap setHeap setPackageCache setIsDirCache].
  replace (heap s0) with (heap s) by reflexivity.
  rewrite lookup_app_r by lia. rewrite Nat.sub_diag. cbn [lookup list_lookup res_bind].
  unfold bind at 1, load. cbn [heap setHeap].
  rewrite insert_app_r_alt by lia. rewrite Nat.sub_diag.
  cbn [insert list_insert].
  rewrite lookup_app_r by lia. rewrite Nat.sub_diag. cbn [lookup list_lookup res_bind].
  assert (Standard (copyBuild b' newPackage) = false) as Hstd.
  { simpl. rewrite Hgo', Hip. exact Hnstd. }
  rewrite Hstd.
  set (msg := if 0 <? length searched
              then addVendorSearch text searched else text).
  replace (if 0 <? length searched
           then Some (addVendorSearch text searched) else Some text)
    with (Some msg) by (unfold msg; destruct (0 <? length searched); reflexivity).
  cbv iota beta.
  unfold bind at 1. unfold loadDeps. unfold bind at 1. cbn [stk_copy res_bind].
  unfold modify. cbn [heap setHeap].
  rewrite lookup_app_r by lia. rewrite Nat.sub_diag. cbn [lookup list_lookup res_bind].
  unfold bind at 1, load. cbn [heap setHeap].
  rewrite insert_app_r_alt by lia. rewrite Nat.sub_diag.
  cbn [insert list_insert].
  rewrite lookup_app_r by lia. rewrite Nat.sub_diag. cbn [lookup list_lookup res_bind].
  cbn [Error setError].
  assert (copyBuild b' newPackage
          = {| Package_ := Some b'; Standard := false; Error := None;
               loadedDeps := false; deps := [] |}) as Hcb.
  { unfold copyBuild in *.
    cbn [Standard Error loadedDeps deps newPackage] in *.
    rewrite Hstd. reflexivity. }
  rewrite Hcb.
  destruct importPos as [|pos importPos].
  - unfold ret. cbn [res_bind]. unfold bind, stk_pop, ret. cbn [res_bind].
    cbn [stk setHeap setPackageCache setIsDirCache setStk packageCache
         isDirCache heap].
    replace (stk s0) with (push path (stk s)) by reflexivity.
    replace (packageCache s0) with (packageCache s) by reflexivity.
    rewrite pop_push. reflexivity.
  - unfold bind at 1, modify. cbn [heap setHeap].
    rewrite lookup_app_r by lia. rewrite Nat.sub_diag.
    cbn [lookup list_lookup res_bind].
    rewrite insert_app_r_alt by lia. rewrite Nat.sub_diag.
    cbn [insert list_insert].
    unfold ret. cbn [res_bind]. unfold bind, stk_pop, ret. cbn [res_bind].
    cbn [stk setHeap setPackageCache setIsDirCache setStk packageCache
         isDirCache heap].
    replace (stk s0) with (push path (stk s)) by reflexivity.
    replace (packageCache s0) with (packageCache s) by reflexivity.
    rewrite pop_push. reflexivity.
Qed.

Lemma loadDeps_loop env (rec : Loader) p pk b s y :
  heap s !! p = Some pk -> Package_ pk = Some b ->
  foldDup env (allFiles b) = Ok (EmptyString, y) ->
  loadDeps env rec p None s
  = (run r <- importLoop env rec p 0
                (build.Imports b ++ build.TestImports b ++ build.XTestImports b)
                ∅;
     match r with
     | None => ret tt
     | Some depsMap => finishDeps env p depsMap
     end) s.
Proof.
  intros Hp Hb Hfiles. unfold loadDeps.
  rewrite (bind_eq _ _ _ _ _ (loadBuild_eq p s pk b Hp Hb)).
  assert (lift (foldDup env (allFiles b)) s = Ok ((EmptyString, y), s)) as Hl
    by (unfold lift; rewrite Hfiles; reflexivity).
  rewrite (bind_eq _ _ _ _ _ Hl). reflexivity.
Qed.

Lemma wf_singleton bp c d k :
  wf {| packageCache := c; isDirCache := d;
        heap := [copyBuild bp newPackage]; stk := k |}.
Proof.
  intros l pk H. destruct l as [|l]; simpl in H; [|discriminate].
  injection H as <-. apply wf_package_copyBuild.
Qed.

(** C4, as amended.  For a package [p] whose metadata was read and whose
    file names do not collide, and a loader that keeps the invariants of
    the state.  When the loop of [loadDeps] has run over the imports [pre]
    and reached the import [x], which is neither "C" nor local, then
    whatever package the loader returns for [x], with an error or without,
    [loadDeps] goes on with the imports after [x]: since the loader
    returned, only the package [p] has changed, and it has an error if the
    package returned is a program.  When the loop has reached a local
    import [x], [loadDeps] returns at once: the state is the one in which
    [x] was reached, but for the error of [p], which is now the error for
    the local import; the imports after [x] are not looked at and [p] is
    not finished.  When [loadDeps] has returned, every import that is not
    "C", with no local import before it or at it, has a package under its
    effective import path in the package cache, and [p] has an error if
    that package is a program or if there is a local import.  With
    [loadImport] itself as the loader, whatever its fuel: when the import
    [x] reached is not in the package cache and [go/build] reports an
    error for it, [loadDeps] goes on with the imports after [x], from a
    state in which the package of [x] is the one new package, is in the
    cache under its effective import path and has an error.  The loop of
    [main] leaves [ok] true exactly when no package of the list it is
    given has an error or is in the standard library. *)
Theorem loadDeps_attempts_siblings env (rec : Loader) p pk b s y :
  loader_ok env rec ->
  wf s -> coherent env (isDirCache s) ->
  heap s !! p = Some pk -> Package_ pk = Some b -> Standard pk = false ->
  foldDup env (allFiles b) = Ok (EmptyString, y) ->
  let importPaths :=
    build.Imports b ++ build.TestImports b ++ build.XTestImports b in
  let finish (r : option (gmap string loc)) : M unit :=
    match r with
    | None => ret tt
    | Some depsMap => finishDeps env p depsMap
    end in
  (forall pre x post m s1 pk1 b1 p1 s2 pkd bd,
     importPaths = pre ++ x :: post ->
     importLoop env rec p 0 pre ∅ s = Ok (Some m, s1) ->
     x <> "C" -> build.IsLocalImport x = false ->
     heap s1 !! p = Some pk1 -> Package_ pk1 = Some b1 ->
     rec x (build.Dir b1) (Some p) (default [] (build.ImportPos b1 !! x)) s1
     = Ok (p1, s2) ->
     heap s2 !! p1 = Some pkd -> Package_ pkd = Some bd ->
     forallb (validDep (heap s2)) (deps pkd) = true ->
     exists m' pk3,
       loadDeps env rec p None s
       = (run r <- importLoop env rec p (S (length pre)) post m'; finish r)
           (setHeap (<[p := pk3]> (heap s2)) s2)
       /\ (build.Name bd = "main" -> Error pk3 <> None))
  /\ (forall pre x post m s1 pk1 b1,
        importPaths = pre ++ x :: post ->
        importLoop env rec p 0 pre ∅ s = Ok (Some m, s1) ->
        x <> "C" -> build.IsLocalImport x = true ->
        heap s1 !! p = Some pk1 -> Package_ pk1 = Some b1 ->
        loadDeps env rec p None s
        = Ok (tt,
              setHeap
                (<[p := {| Package_ := Some b1; Standard := Standard pk1;
                           Error :=
                             Some {| ImportStack := stk s1;
                                     Pos := match default []
                                                    (build.ImportPos b1 !! x) with
                                            | pos0 :: _ => Position_String env pos0
                                            | [] => EmptyString
                                            end;
                                     Err := "local import " +:+ Quote env x
                                            +:+ " in non-local package";
                                     isImportCycle := false; hard := false |};
                           loadedDeps := loadedDeps pk1;
                           deps := deps pk1 |}]> (heap s1)) s1))
  /\ (forall s', loadDeps env rec p None s = Ok (tt, s') ->
        (forall pre x post, importPaths = pre ++ x :: post ->
           (forall z, z ∈ pre ++ [x] -> build.IsLocalImport z = false) ->
           x <> "C" ->
           exists eff searched l pk1 b1,
             effectivePath env b x = Ok (eff, searched)
             /\ packageCache s' !! eff = Some l
             /\ heap s' !! l = Some pk1 /\ Package_ pk1 = Some b1
             /\ (build.Name b1 = "main" -> hasError (heap s') p = true))
        /\ (forall pre x post, importPaths = pre ++ x :: post ->
              (forall z, z ∈ pre -> build.IsLocalImport z = false) ->
              build.IsLocalImport x = true ->
              hasError (heap s') p = true))
  /\ (forall fuel pre x post m s1 pk1 b1 eff searched c bp text,
        importPaths = pre ++ x :: post ->
        importLoop env (loadImport env (S fuel)) p 0 pre ∅ s
        = Ok (Some m, s1) ->
        x <> "C" -> build.IsLocalImport x = false ->
        heap s1 !! p = Some pk1 -> Package_ pk1 = Some b1 ->
        vendoredImportPath env (Some pk1) x (isDirCache s1)
        = Ok (eff, searched, c) ->
        packageCache s1 !! eff = None ->
        build_Import env eff (build.Dir b1) = (bp, Some text) ->
        build.Goroot bp && negb (String.eqb eff EmptyString)
        && negb (Contains eff ".") = false ->
        exists m' s3,
          loadDeps env (loadImport env (S fuel)) p None s
          = (run r <- importLoop env (loadImport env (S fuel)) p
                        (S (length pre)) post m';
             finish r) s3
          /\ packageCache s3 !! eff = Some (length (heap s1))
          /\ hasError (heap s3) (length (heap s1)) = true
          /\ length (heap s3) = S (length (heap s1)))
  /\ (forall pkgs st, (forall l, l ∈ pkgs -> l < length (heap st)) ->
        checkLoaded pkgs true st
        = Ok (forallb (fun l => negb (hasError (heap st) l
                                      || standardAt (heap st) l)) pkgs, st)).
Proof.
  intros Hrec Hwf Hcoh Hp Hb Hstd Hfiles importPaths finish.
  pose proof (loadDeps_loop env rec p pk b s y Hp Hb Hfiles) as Hloop.
  fold importPaths in Hloop.
  assert (forall rec0, loadDeps env rec0 p None s
                       = (run r <- importLoop env rec0 p 0 importPaths ∅;
                          finish r) s) as Hloop0
    by (intros rec0; apply (loadDeps_loop env rec0 p pk b s y Hp Hb Hfiles)).
  split; [|split; [|split; [|split]]].
  - intros pre x post m s1 pk1 b1 p1 s2 pkd bd Hsplit Hpre HxC Hloc
      Hp1 Hb1 Hcall Hd Hbd Hv.
    destruct (importLoop_ok env rec Hrec p pre 0 ∅ s (Some m) s1 pk b
                Hwf Hcoh Hp Hb Hstd Hpre)
      as (Hwf1 & Hcoh1 & _).
    destruct (Hrec _ _ _ _ _ _ _ Hwf1 Hcoh1 Hcall) as (_ & _ & Hext & _).
    destruct (ext_frame _ _ Hext p pk1 Hp1) as (pkp & Hp2 & Hf).
    destruct (frame_static pk1 pkp b1 Hf Hb1) as (bp & Hbp & _).
    destruct (importLoop_step env rec p (length pre) x post m s1 pk1 b1 p1 s2
                pkp bp pkd bd HxC Hloc Hp1 Hb1 Hcall Hp2 Hbp Hd Hbd Hv)
      as (m' & pk3 & Hstep & _ & _ & _ & _ & Hmain & _).
    exists m', pk3. split; [|exact Hmain].
    rewrite Hloop. unfold bind at 1. rewrite Hsplit, importLoop_app, Hpre.
    simpl "+". rewrite Hstep. reflexivity.
  - intros pre x post m s1 pk1 b1 Hsplit Hpre HxC Hloc Hp1 Hb1.
    rewrite Hloop. unfold bind at 1. rewrite Hsplit, importLoop_app, Hpre.
    cbn [importLoop]. rewrite (proj2 (String.eqb_neq x "C") HxC), Hloc.
    rewrite (bind_eq _ _ _ _ _
               (recordImportError_eq env p _ x s1 pk1 b1 Hp1 Hb1)).
    unfold ret, importError. cbn [res_bind finish].
    destruct pk1 as [bo std er ld ds]. simpl in Hb1. subst bo. reflexivity.
  - intros s' Hrun.
    destruct (loadDeps_ok env rec Hrec p None s s' pk b Hwf Hcoh Hp Hb Hstd Hrun)
      as (_ & _ & _ & _ & H).
    destruct (H y eq_refl Hfiles) as [Hatt Hstop].
    split; [|exact Hstop].
    intros pre x post Hl Hloc Hx.
    destruct (Hatt pre x post Hl Hloc Hx)
      as (eff & sr & l & He & Hc & pk1 & b1 & Hl1 & Hb1 & Hm).
    exists eff, sr, l, pk1, b1. auto.
  - intros fuel pre x post m s1 pk1 b1 eff searched c bp text Hsplit Hpre
      HxC Hloc Hp1 Hb1 Hvend Hmiss Himp Hnstd.
    pose proof (lookup_lt_Some _ _ _ Hp1) as Hlt.
    destruct (loadImport_failure_eq env fuel x (build.Dir b1) (Some p)
                (default [] (build.ImportPos b1 !! x)) s1 eff searched c bp text)
      as (b' & Hcall & _).
    { simpl. rewrite Hp1. discriminate. }
    { simpl. rewrite Hp1. exact Hvend. }
    { exact Hmiss. }
    { exact Himp. }
    { exact Hnstd. }
    match type of Hcall with
    | context [heap s1 ++ [?pk]] => set (pkd := pk) in Hcall
    end.
    match type of Hcall with
    | _ = Ok (_, ?st) => set (s2 := st) in Hcall
    end.
    assert (heap s2 !! p = Some pk1) as Hp2
      by (simpl; rewrite lookup_app_l by exact Hlt; exact Hp1).
    assert (heap s2 !! length (heap s1) = Some pkd) as Hd.
    { simpl. rewrite lookup_app_r by lia. rewrite Nat.sub_diag. reflexivity. }
    destruct (importLoop_step env (loadImport env (S fuel)) p (length pre) x post
                m s1 pk1 b1 (length (heap s1)) s2 pk1 b1 pkd b'
                HxC Hloc Hp1 Hb1 Hcall Hp2 Hb1 Hd eq_refl eq_refl)
      as (m' & pk3 & Hstep & _).
    exists m', (setHeap (<[p := pk3]> (heap s2)) s2).
    split; [|split; [|split]].
    + rewrite Hloop0. unfold bind at 1. rewrite Hsplit, importLoop_app, Hpre.
      simpl "+". rewrite Hstep. reflexivity.
    + simpl. apply lookup_insert_eq.
    + unfold hasError, errorOf. simpl.
      rewrite list_lookup_insert_ne by lia.
      rewrite lookup_app_r by lia. rewrite Nat.sub_diag. reflexivity.
    + simpl. rewrite length_insert, length_app. simpl. lia.
  - intros pkgs st Hv. apply (checkLoaded_spec pkgs true st Hv).
Qed.

Lemma loadDeps_attempts_siblings_witness :
  let env := Fixture.siblingEnv in
  let s := Fixture.siblingState in
  let s2 := Fixture.siblingCall in
  let env' := Fixture.localEnv in
  let t := Fixture.localState in
  (loader_ok env (loadImport env 2) /\ wf s /\ coherent env (isDirCache s)
   /\ loadImport env 2 "x" "/g/src/p" (Some 0) [] s = Ok (1, s2)
   /\ hasError (heap s2) 1 = true
   /\ loadDeps env (loadImport env 2) 0 None s = Ok (tt, Fixture.siblingResult)
   /\ Fixture.names Fixture.siblingResult [1; 2] = ["x"; "d"]
   /\ (exists m' pk3,
         loadDeps env (loadImport env 2) 0 None s
         = (run r <- importLoop env (loadImport env 2) 0 1 ["d"] m';
            match r with
            | None => ret tt
            | Some depsMap => finishDeps env 0 depsMap
            end) (setHeap (<[0 := pk3]> (heap s2)) s2))
   /\ vendoredImportPath env (heap s !! 0) "x" (isDirCache s)
      = Ok ("x", [], isDirCache s2)
   /\ packageCache s !! "x" = None
   /\ snd (build_Import env "x" "/g/src/p") <> None
   /\ exists m' s3,
        loadDeps env (loadImport env 2) 0 None s
        = (run r <- importLoop env (loadImport env 2) 0 1 ["d"] m';
           match r with
           | None => ret tt
           | Some depsMap => finishDeps env 0 depsMap
           end) s3
        /\ packageCache s3 !! "x" = Some 1
        /\ hasError (heap s3) 1 = true
        /\ length (heap s3) = 2)
  /\ (loader_ok env' (loadImport env' 2) /\ wf t /\ coherent env' (isDirCache t)
      /\ build.IsLocalImport "./x" = true
      /\ loadDeps env' (loadImport env' 2) 0 None t
         = Ok (tt,
               {| packageCache := {["p" := 0]}; isDirCache := ∅;
                  heap := [{| Package_ := Some Fixture.localPkg;
                              Standard := false;
                              Error :=
                                Some {| ImportStack := ["p"];
                                        Pos := EmptyString;
                                        Err := "local import " +:+ Quote env' "./x"
                                               +:+ " in non-local package";
                                        isImportCycle := false; hard := false |};
                              loadedDeps := false; deps := [] |}];
                  stk := ["p"] |})).
Proof.
  intros env s s2 env' t. split.
  - split; [apply loadImport_ok|]. split; [apply wf_singleton|].
    split; [apply coherent_empty|].
    split; [vm_compute; reflexivity|]. split; [vm_compute; reflexivity|].
    split; [vm_compute; reflexivity|]. split; [vm_compute; reflexivity|].
    destruct (loadDeps_attempts_siblings env (loadImport env 2) 0
                (copyBuild Fixture.siblingPkg newPackage) Fixture.siblingPkg
                s EmptyString (loadImport_ok env 2)
                (wf_singleton _ _ _ _) (coherent_empty env)
                eq_refl eq_refl eq_refl) as (Hgo & _ & _ & Hreal & _).
    { vm_compute. reflexivity. }
    split; [|split; [vm_compute; reflexivity|]; split; [reflexivity|];
             split; [vm_compute; discriminate|]].
    + destruct (Hgo [] "x" ["d"] ∅ s
                  (copyBuild Fixture.siblingPkg newPackage) Fixture.siblingPkg
                  1 s2 Fixture.siblingFailed
                  (build.setImportPath "x" (fst (Fixture.notFound "x"))))
        as (m' & pk3 & Hrun & _).
      * reflexivity.
      * reflexivity.
      * discriminate.
      * reflexivity.
      * reflexivity.
      * reflexivity.
      * vm_compute. reflexivity.
      * vm_compute. reflexivity.
      * vm_compute. reflexivity.
      * vm_compute. reflexivity.
      * exists m', pk3. exact Hrun.
    + apply (Hreal 1 [] "x" ["d"] ∅ s
               (copyBuild Fixture.siblingPkg newPackage) Fixture.siblingPkg
               "x" [] (isDirCache s2) (fst (Fixture.notFound "x"))
               (default EmptyString (snd (Fixture.notFound "x")))).
      * reflexivity.
      * reflexivity.
      * discriminate.
      * reflexivity.
      * reflexivity.
      * reflexivity.
      * vm_compute. reflexivity.
      * reflexivity.
      * reflexivity.
      * reflexivity.
  - split; [apply loadImport_ok|]. split; [apply wf_singleton|].
    split; [apply coherent_empty|]. split; [reflexivity|].
    destruct (loadDeps_attempts_siblings env' (loadImport env' 2) 0
                (copyBuild Fixture.localPkg newPackage) Fixture.localPkg
                t EmptyString (loadImport_ok env' 2)
                (wf_singleton _ _ _ _) (coherent_empty env')
                eq_refl eq_refl eq_refl) as (_ & Hlocal & _).
    { vm_compute. reflexivity. }
    rewrite (Hlocal [] "./x" ["d"] ∅ t
               (copyBuild Fixture.localPkg newPackage) Fixture.localPkg
               eq_refl eq_refl ltac:(discriminate) eq_refl eq_refl eq_refl).
    reflexivity.
Defined.

(** C4, as stated, fails in two ways.  A local import ends the loop: with
    the imports "./x" and "d", the loader returns with an error of [p] and
    without having looked at "d", which is not in the cache; [p] is the
    only package.  And a failure need not reach [main]: when [p] imports
    "d" and the directory p/vendor/d has no source files, the package
    p/vendor/d has an error, but it lies in the working directory, is left
    out of the aggregated dependencies, and the loop of [main] over the
    roots and the dependencies leaves [ok] true. *)
Lemma loadDeps_local_import_counterexample :
  (let env := Fixture.localEnv in
   build.IsLocalImport "./x" = true
   /\ effectivePath env (snd (Fixture.gopkg "p" "p" ["./x"; "d"])) "d"
      = Ok ("d", [])
   /\ match packages env 3 ["p"] initState with
      | Ok (roots, s) =>
          Fixture.names s roots = ["p"]
          /\ hasError (heap s) 0 = true
          /\ packageCache s !! "d" = None
          /\ length (heap s) = 1
      | _ => False
      end)
  /\ (let env := Fixture.emptyVendorEnv in
      match resolve env 3 ["p"] initState with
      | Ok (roots, ds, s) =>
          Fixture.names s roots = ["p"] /\ ds = []
          /\ packageCache s !! "p/vendor/d" = Some 1
          /\ hasError (heap s) 1 = true
          /\ option_map deps (heap s !! 0) = Some [1]
          /\ checkLoaded (roots ++ ds) true s = Ok (true, s)
      | _ => False
      end).
Proof.
  split.
  - split; [reflexivity|]. split; [vm_compute; reflexivity|].
    vm_compute. repeat split; reflexivity.
  - vm_compute. repeat split; reflexivity.
Qed.

(** ** The standard library *)

(** C9.  After a call of [loadImport], a package of the heap is standard
    exactly when it was found in the Go root and its import path is not
    empty and has no dot, and a standard package has no dependencies, is
    not marked as loaded and has no error.  A package that is not in the
    cache and turns out to be standard is returned at once: the call
    returns for any fuel, with the imports of the package as [go/build]
    gave them. *)
Theorem loadImport_standard env fuel path srcDir parent importPos s :
  wf s -> coherent env (isDirCache s) ->
  (forall l s',
     loadImport env fuel path srcDir parent importPos s = Ok (l, s') ->
     forall l' pk b, heap s' !! l' = Some pk -> Package_ pk = Some b ->
       (Standard pk = true <->
        build.Goroot b = true /\ build.ImportPath b <> EmptyString
        /\ Contains (build.ImportPath b) "." = false)
       /\ (Standard pk = true ->
           deps pk = [] /\ loadedDeps pk = false /\ Error pk = None))
  /\ (forall eff searched c bp err,
        (parentOf s parent = None -> parent = None) ->
        vendoredImportPath env (parentOf s parent) path (isDirCache s)
        = Ok (eff, searched, c) ->
        packageCache s !! eff = None ->
        build_Import env eff srcDir = (bp, err) ->
        build.Goroot bp = true -> eff <> EmptyString ->
        Contains eff "." = false ->
        exists b',
          loadImport env (S fuel) path srcDir parent importPos s
          = Ok (length (heap s),
                {| packageCache := <[eff := length (heap s)]> (packageCache s);
                   isDirCache := c;
                   heap := heap s ++ [{| Package_ := Some b'; Standard := true;
                                         Error := None; loadedDeps := false;
                                         deps := [] |}];
                   stk := stk s |})
          /\ build.ImportPath b' = eff
          /\ build.Imports b' = build.Imports bp
          /\ build.TestImports b' = build.TestImports bp
          /\ build.XTestImports b' = build.XTestImports bp).
Proof.
  intros Hwf Hcoh. split.
  - intros l s' H l' pk b Hl Hb.
    destruct (loadImport_ok env fuel _ _ _ _ _ _ _ Hwf Hcoh H) as (Hwf' & _).
    destruct (Hwf' l' pk Hl b Hb) as [Hs Hd]. split; [|exact Hd].
    rewrite Hs. apply isStandard_iff.
  - intros eff searched c bp err Hpar Hv Hmiss Himp Hgo Hne Hdot.
    set (b' := if negb (String.eqb (gobin env) EmptyString)
               then build.setBinDir (gobin env) (build.setImportPath eff bp)
               else build.setImportPath eff bp).
    assert (build.ImportPath b' = eff /\ build.Goroot b' = true
            /\ build.Imports b' = build.Imports bp
            /\ build.TestImports b' = build.TestImports bp
            /\ build.XTestImports b' = build.XTestImports bp)
      as (Hip & Hgo' & Hi1 & Hi2 & Hi3).
    { unfold b'. destruct (negb _); simpl; auto. }
    exists b'. split; [|auto].
    cbn [loadImport]. unfold bind at 1. cbn [stk_push res_bind].
    set (s0 := setStk (push path (stk s)) s).
    assert (vendoredImportPathM env parent path s0
            = Ok ((eff, searched), setIsDirCache c s0)) as Hvm
      by (apply vendoredImportPathM_eq; [exact Hpar|exact Hv]).
    unfold bind at 1. unfold loadImport_body.
    rewrite (bind_eq _ _ _ _ _ Hvm). cbn [fst snd].
    replace (packageCache (setIsDirCache c s0) !! eff) with (@None nat)
      by (symmetry; exact Hmiss).
    unfold bind at 1. cbn [alloc res_bind]. unfold bind at 1. cbn [res_bind].
    rewrite Himp. fold b'.
    unfold bind at 1, modify. cbn [heap setHeap setPackageCache setIsDirCache].
    replace (heap s0) with (heap s) by reflexivity.
    rewrite lookup_app_r by lia. rewrite Nat.sub_diag. cbn [lookup list_lookup res_bind].
    unfold bind at 1, load. cbn [heap setHeap].
    rewrite insert_app_r_alt by lia. rewrite Nat.sub_diag.
    cbn [insert list_insert].
    rewrite lookup_app_r by lia. rewrite Nat.sub_diag. cbn [lookup list_lookup res_bind].
    assert (Standard (copyBuild b' newPackage) = true) as Hstd.
    { simpl. rewrite Hgo', Hip. rewrite (proj2 (String.eqb_neq _ _) Hne), Hdot.
      reflexivity. }
    rewrite Hstd. unfold ret. cbn [res_bind]. unfold bind, stk_pop, ret.
    cbn [res_bind].
    cbn [stk setHeap setPackageCache setIsDirCache setStk packageCache
         isDirCache heap].
    replace (stk s0) with (push path (stk s)) by reflexivity.
    replace (packageCache s0) with (packageCache s) by reflexivity.
    rewrite pop_push.
    assert (copyBuild b' newPackage
            = {| Package_ := Some b'; Standard := true; Error := None;
                 loadedDeps := false; deps := [] |}) as ->.
    { unfold copyBuild in *.
      cbn [Standard Error loadedDeps deps newPackage] in *.
      rewrite Hstd. reflexivity. }
    reflexivity.
Qed.

Lemma wf_initState : wf initState.
Proof. intros l pk H. simpl in H. rewrite lookup_nil in H. discriminate. Qed.

Lemma loadImport_standard_witness :
  let env := Fixture.stdEnv in
  wf initState /\ coherent env (isDirCache initState)
  /\ exists b',
       loadImport env 1 "fmt" "/g/src/p" None [] initState
       = Ok (0, {| packageCache := {["fmt" := 0]}; isDirCache := ∅;
                   heap := [{| Package_ := Some b'; Standard := true;
                               Error := None; loadedDeps := false;
                               deps := [] |}];
                   stk := [] |})
       /\ build.ImportPath b' = "fmt"
       /\ build.Imports b' = ["os"].
Proof.
  intros env. split; [apply wf_initState|]. split; [apply coherent_empty|].
  destruct (loadImport_standard env 0 "fmt" "/g/src/p" None [] initState
              wf_initState (coherent_empty env)) as [_ H].
  destruct (H "fmt" [] ∅ (snd (Fixture.stdpkg "fmt" ["os"])) None)
    as (b' & Hrun & Hip & Himp & _).
  - reflexivity.
  - reflexivity.
  - reflexivity.
  - reflexivity.
  - reflexivity.
  - discriminate.
  - reflexivity.
  - exists b'. split; [exact Hrun|]. split; [exact Hip|exact Himp].
Defined.

(** * Further properties *)

(** ** The prefix test is an order *)

Lemma hasPathPrefix_length (s p : string) :
  hasPathPrefix s p = true -> String.length p <= String.length s.
Proof.
  unfold hasPathPrefix.
  destruct (Nat.eqb_spec (String.length s) (String.length p)); [lia|].
  destruct (Nat.ltb_spec (String.length p) (String.length s)); [lia|discriminate].
Qed.

Lemma hasPathPrefix_app (s p : string) :
  hasPathPrefix s p = true <->
  s = p \/ exists r, s = p +:+ r
                     /\ (lastIs p slash = true \/ exists r', r = String slash r').
Proof.
  rewrite hasPathPrefix_spec. unfold HasPrefix. split.
  - intros [->|[H|[Hl H]]]; [auto|right..].
    + apply prefix_app_iff in H as [r ->]. exists ("/" +:+ r).
      split; [apply app_string_assoc|]. right. exists r. reflexivity.
    + apply prefix_app_iff in H as [r ->]. exists r. auto.
  - intros [->|(r & -> & [Hl|[r' ->]])]; [auto|right..].
    + right. split; [exact Hl|]. apply prefix_app_iff. eauto.
    + left. apply prefix_app_iff. exists r'. symmetry. apply app_string_assoc.
Qed.

Lemma hasPathPrefix_refl (s : string) : hasPathPrefix s s = true.
Proof. apply hasPathPrefix_app. auto. Qed.

Lemma hasPathPrefix_antisym (s p : string) :
  hasPathPrefix s p = true -> hasPathPrefix p s = true -> s = p.
Proof.
  intros H1 H2.
  pose proof (hasPathPrefix_length _ _ H1) as L1.
  pose proof (hasPathPrefix_length _ _ H2) as L2.
  unfold hasPathPrefix in H1.
  destruct (Nat.eqb_spec (String.length s) (String.length p)); [|lia].
  apply String.eqb_eq. exact H1.
Qed.

Lemma hasPathPrefix_trans (s p q : string) :
  hasPathPrefix s p = true -> hasPathPrefix p q = true ->
  hasPathPrefix s q = true.
Proof.
  intros H1 H2. apply hasPathPrefix_app.
  apply hasPathPrefix_app in H1 as [->|(r & -> & H1)];
    [apply hasPathPrefix_app; exact H2|].
  apply hasPathPrefix_app in H2 as [->|(r2 & -> & H2)]; [right; eauto|].
  right. exists (r2 +:+ r). split; [apply app_string_assoc|].
  destruct H2 as [Hl|[r' ->]]; [auto|]. right. exists (r' +:+ r). reflexivity.
Qed.

(** X1.  The copier's test is reflexive, antisymmetric and transitive on import
    paths: it is a partial order, so what one copied path covers, every
    path that covers it covers as well. *)
Theorem hasPathPrefix_order :
  (forall s, hasPathPrefix s s = true)
  /\ (forall s p, hasPathPrefix s p = true -> hasPathPrefix p s = true -> s = p)
  /\ (forall s p q, hasPathPrefix s p = true -> hasPathPrefix p q = true ->
                    hasPathPrefix s q = true).
Proof.
  split; [exact hasPathPrefix_refl|].
  split; [exact hasPathPrefix_antisym|exact hasPathPrefix_trans].
Qed.

(** ** Lists of patterns *)

Lemma SplitColon_cons (s : string) : exists x r, SplitColon s = x :: r.
Proof.
  induction s as [|c s (x & r & IH)]; simpl; [eauto|].
  destruct (Ascii.eqb c ":"); [eauto|]. rewrite IH. eauto.
Qed.

Lemma Join_cons (x y : string) (r : list string) (sep : string) :
  Join (x :: y :: r) sep = x +:+ sep +:+ Join (y :: r) sep.
Proof. reflexivity. Qed.

Lemma Join_SplitColon (s : string) : Join (SplitColon s) ":" = s.
Proof.
  induction s as [|c s IH]; [reflexivity|]. simpl.
  destruct (Ascii.eqb_spec c ":") as [->|Hc].
  - destruct (SplitColon_cons s) as (x & r & Hs). rewrite Hs in *.
    rewrite Join_cons, IH. reflexivity.
  - destruct (SplitColon_cons s) as (x & r & Hs). rewrite Hs in *.
    destruct r as [|y r].
    + simpl in *. congruence.
    + rewrite Join_cons in *. rewrite app_string_cons. congruence.
Qed.

Lemma Contains_cons_ne (c d : ascii) (x : string) :
  c <> d ->
  Contains (String c x) (String d EmptyString)
  = Contains x (String d EmptyString).
Proof.
  intros Hc. cbn [Contains String.prefix].
  destruct (ascii_dec d c); [congruence|reflexivity].
Qed.

Lemma SplitColon_no_colon (s : string) :
  Forall (fun x => Contains x ":" = false) (SplitColon s).
Proof.
  induction s as [|c s IH]; simpl; [repeat constructor|].
  destruct (Ascii.eqb_spec c ":") as [->|Hc].
  - constructor; [reflexivity|exact IH].
  - destruct (SplitColon s) as [|x r].
    + constructor; [|constructor]. rewrite Contains_cons_ne by exact Hc.
      reflexivity.
    + apply Forall_cons in IH as [Hx Hr]. constructor; [|exact Hr].
      rewrite Contains_cons_ne by exact Hc. exact Hx.
Qed.

Lemma SplitColon_length (s : string) :
  length (SplitColon s)
  = S (length (List.filter (Ascii.eqb ":") (String.list_ascii_of_string s))).
Proof.
  induction s as [|c s IH]; [reflexivity|].
  cbn [SplitColon String.list_ascii_of_string List.filter].
  rewrite (Ascii.eqb_sym ":" c).
  destruct (Ascii.eqb c ":"); simpl; [congruence|].
  destruct (SplitColon s); simpl in *; congruence.
Qed.

(** X4.  The colon-separated list of the flag [-u] is split without loss:
    joining the patterns with colons gives the flag back, no pattern has a
    colon, the empty flag gives no pattern at all, and any other flag gives
    one pattern more than it has colons (so a colon at the start or end, or
    two in a row, give an empty pattern). *)
Theorem splitList_Join (u : string) :
  Join (splitList u) ":" = u
  /\ Forall (fun x => Contains x ":" = false) (splitList u)
  /\ (splitList u = [] <-> u = EmptyString)
  /\ (u <> EmptyString ->
      length (splitList u)
      = S (length (List.filter (Ascii.eqb ":") (String.list_ascii_of_string u)))).
Proof.
  unfold splitList. destruct (String.eqb_spec u EmptyString) as [->|Hu].
  - repeat split; auto. contradiction.
  - split; [apply Join_SplitColon|]. split; [apply SplitColon_no_colon|].
    split; [|intros _; apply SplitColon_length].
    destruct (SplitColon_cons u) as (x & r & ->). split; [discriminate|contradiction].
Qed.

Lemma splitList_Join_witness :
  "a/...::b" <> EmptyString
  /\ splitList "a/...::b" = ["a/..."; EmptyString; "b"]
  /\ length (splitList "a/...::b")
     = S (length (List.filter (Ascii.eqb ":") (String.list_ascii_of_string "a/...::b"))).
Proof.
  split; [discriminate|]. split; [reflexivity|].
  apply (splitList_Join "a/...::b"). discriminate.
Defined.

Lemma existsb_map {A B} (f : B -> bool) (g : A -> B) (l : list A) :
  existsb f (map g l) = existsb (fun x => f (g x)) l.
Proof. induction l as [|x l IH]; simpl; congruence. Qed.

(** X5.  With the flag [-u] set to [u], an import path is left to the
    unvendored package exactly when one of the patterns of [u] matches it:
    then [vendoredImportPath] returns it as it is, for every parent, and
    does not look at the file system.  The empty flag exempts nothing. *)
Theorem flagUPats_skips env (u path : string) :
  skipVendor env = flagUPats env u ->
  (existsb (fun match_ => match_ path) (skipVendor env) = true <->
   exists pat, pat ∈ splitList u /\ matchPattern env pat path = true)
  /\ (u = EmptyString ->
      existsb (fun match_ => match_ path) (skipVendor env) = false)
  /\ ((exists pat, pat ∈ splitList u /\ matchPattern env pat path = true) ->
      forall parent c,
        vendoredImportPath env parent path c = Ok (path, [], c)).
Proof.
  intros Hskip.
  assert (existsb (fun match_ => match_ path) (skipVendor env) = true <->
          exists pat, pat ∈ splitList u /\ matchPattern env pat path = true) as Hiff.
  { rewrite Hskip. unfold flagUPats. rewrite existsb_map, existsb_exists.
    split; intros (pat & Hin & Hm); exists pat; split; auto;
      apply list_elem_of_In; exact Hin. }
  split; [exact Hiff|]. split.
  - intros ->. rewrite Hskip. reflexivity.
  - intros Hex parent c. apply Hiff in Hex. unfold vendoredImportPath.
    destruct parent; [|reflexivity]. rewrite Hex. reflexivity.
Qed.

Lemma flagUPats_skips_witness :
  let env := Fixture.updateEnv in
  skipVendor env = flagUPats env "d"
  /\ vendoredImportPath env (Some Fixture.pkg_p) "d" ∅ = Ok ("d", [], ∅).
Proof.
  intros env. split; [reflexivity|].
  destruct (flagUPats_skips env "d" "d" eq_refl) as (_ & _ & H).
  apply H. exists "d". split; [apply list_elem_of_here|reflexivity].
Defined.

(** ** Messages *)

Lemma SplitAfterNewline_cons (s : string) :
  exists x r, SplitAfterNewline s = x :: r.
Proof.
  induction s as [|c s (x & r & IH)]; simpl; [eauto|].
  destruct (Ascii.eqb c newline); [eauto|]. rewrite IH. eauto.
Qed.

Lemma JoinEmpty_cons (x : string) (r : list string) :
  JoinEmpty (x :: r) = x +:+ JoinEmpty r.
Proof. reflexivity. Qed.

Lemma JoinEmpty_SplitAfterNewline (s : string) :
  JoinEmpty (SplitAfterNewline s) = s.
Proof.
  induction s as [|c s IH]; [reflexivity|]. cbn [SplitAfterNewline].
  destruct (Ascii.eqb c newline).
  - rewrite JoinEmpty_cons, IH. reflexivity.
  - destruct (SplitAfterNewline s) as [|x r].
    + cbn in IH. subst s. reflexivity.
    + rewrite JoinEmpty_cons in *. rewrite app_string_cons. congruence.
Qed.

Lemma JoinEmpty_app (a b : list string) :
  JoinEmpty (a ++ b) = JoinEmpty a +:+ JoinEmpty b.
Proof.
  induction a as [|x a IH]; [reflexivity|].
  rewrite <- app_comm_cons, !JoinEmpty_cons, IH.
  symmetry. apply app_string_assoc.
Qed.

Lemma lastIs_cons (c d : ascii) (x : string) :
  lastIs x d = true -> lastIs (String c x) d = true.
Proof.
  destruct x as [|e x]; [discriminate|]. unfold lastIs, byteIs.
  replace (String.length (String c (String e x)) - 1)
    with (S (String.length (String e x) - 1)) by (simpl; lia).
  auto.
Qed.

Lemma SplitAfterNewline_first (s : string) :
  exists first more,
    SplitAfterNewline s = first :: more
    /\ (forall i, S i < String.length first -> byteIs i first newline = false)
    /\ (more <> [] -> lastIs first newline = true).
Proof.
  induction s as [|c s (first & more & IH & Hin & Hlast)]; simpl.
  - exists EmptyString, []. split; [reflexivity|]. split; [|congruence].
    intros i Hi. simpl in Hi. lia.
  - destruct (Ascii.eqb_spec c newline) as [->|Hc].
    + eexists _, _. split; [reflexivity|]. split; [|reflexivity].
      intros i Hi. simpl in Hi. lia.
    + rewrite IH. exists (String c first), more.
      split; [reflexivity|]. split.
      * intros [|i] Hi.
        -- unfold byteIs. simpl. apply Ascii.eqb_neq. exact Hc.
        -- simpl in Hi. unfold byteIs. simpl. apply Hin. lia.
      * intros Hm. apply lastIs_cons. auto.
Qed.

(** X6.  The message of [go/build] about a package that is not found gets the
    vendor directories that were searched right after its first line, one
    line for each, and loses nothing: the text is its first line (up to and
    with the first newline) followed by the rest, and the result is that
    first line, the new lines and the rest.  A text without the two marks
    of that message is left as it is. *)
Theorem addVendorSearch_first_line (text : string) (dirs : list string) :
  exists first rest,
    text = first +:+ rest
    /\ (forall i, S i < String.length first -> byteIs i first newline = false)
    /\ (rest <> EmptyString -> lastIs first newline = true)
    /\ addVendorSearch text dirs
       = if Contains text ("cannot find package " +:+ dquote)
            && Contains text (dquote +:+ " in any of:" +:+ String newline tab)
         then first
              +:+ JoinEmpty (map (fun dir => tab +:+ dir +:+ " (vendor tree)"
                                               +:+ String newline EmptyString)
                               dirs)
              +:+ rest
         else text.
Proof.
  destruct (SplitAfterNewline_first text) as (first & more & Hs & Hin & Hlast).
  pose proof (JoinEmpty_SplitAfterNewline text) as Hj. rewrite Hs in Hj.
  exists first, (JoinEmpty more). split; [symmetry; exact Hj|].
  split; [exact Hin|]. split.
  - intros Hr. apply Hlast. intros ->. apply Hr. reflexivity.
  - unfold addVendorSearch. rewrite Hs.
    destruct (_ && _); [|reflexivity].
    rewrite !JoinEmpty_app. simpl. rewrite app_string_nil_r. reflexivity.
Qed.

(** X7.  The message of an error always has the text of the error in it.  When
    a package with an error is found in the cache again and the error is an
    import cycle or has a position, the message that [main] prints for it
    stays the same: the stack that [reusePackage] may replace is not part
    of the message of an error with a position. *)
Theorem reusePackage_message (p : Package) (e : PackageError)
    (stk : importStack) :
  Error p = Some e ->
  (exists pre post, PackageError_Error e = pre +:+ Err e +:+ post)
  /\ (isImportCycle e = true \/ Pos e <> EmptyString ->
      option_map PackageError_Error (Error (reusePackage p stk))
      = Some (PackageError_Error e)).
Proof.
  intros He. split.
  - unfold PackageError_Error. destruct (isImportCycle e).
    { exists EmptyString. eexists. reflexivity. }
    destruct (negb _).
    { exists (Pos e +:+ ": "), EmptyString.
      rewrite app_string_nil_r. symmetry. apply app_string_assoc. }
    destruct (_ =? _).
    { exists EmptyString, EmptyString. rewrite app_string_nil_r. reflexivity. }
    exists ("package " +:+ Join (ImportStack e) importsSep +:+ ": "), EmptyString.
    rewrite app_string_nil_r, !app_string_assoc. reflexivity.
  - intros Hor. rewrite (reusePackage_error p e stk He).
    destruct (isImportCycle e) eqn:Hc; simpl; [rewrite He; reflexivity|].
    destruct Hor as [Habs|Hpos]; [discriminate|].
    destruct (shorterThan stk (ImportStack e)); simpl; [|rewrite He; reflexivity].
    unfold PackageError_Error. simpl. rewrite Hc.
    destruct (String.eqb_spec (Pos e) EmptyString); [contradiction|reflexivity].
Qed.

Lemma reusePackage_message_witness :
  let e := setErrorPos "p.go:1:8" (mkError ["p"; "q"; "d"] "cannot find package") in
  let p := setError (Some e) newPackage in
  Error p = Some e
  /\ PackageError_Error e = "p.go:1:8: cannot find package"
  /\ Error (reusePackage p ["p"; "d"]) = Some (setErrorStack ["p"; "d"] e)
  /\ option_map PackageError_Error (Error (reusePackage p ["p"; "d"]))
     = Some (PackageError_Error e).
Proof.
  intros e p. split; [reflexivity|]. split; [reflexivity|].
  split; [reflexivity|].
  apply (reusePackage_message p e ["p"; "d"] eq_refl).
  right. discriminate.
Defined.

(** ** What is copied *)

Lemma string_compare_app (p r : string) :
  String.compare p (p +:+ r) <> Gt.
Proof.
  induction p as [|c p IH]; simpl.
  - destruct r; discriminate.
  - rewrite ascii_compare_refl. exact IH.
Qed.

Lemma hasPathPrefix_leb (s p : string) :
  hasPathPrefix s p = true -> String.leb p s = true.
Proof.
  intros H. apply hasPathPrefix_app in H as [->|(r & -> & _)].
  - unfold String.leb. rewrite string_compare_refl. reflexivity.
  - unfold String.leb. pose proof (string_compare_app p r).
    destruct (String.compare p (p +:+ r)); congruence.
Qed.

Lemma lift_eq {A} (r : Res A) (a : A) (s : State) :
  r = Ok a -> lift r s = Ok (a, s).
Proof. intros ->. reflexivity. Qed.

Lemma lift_inv {A} (r : Res A) (a : A) (s s' : State) :
  lift r s = Ok (a, s') -> r = Ok a /\ s' = s.
Proof.
  unfold lift. destruct r; simpl; try discriminate.
  intros H. injection H as -> ->. auto.
Qed.

Lemma copyLoop_inv (ds : list loc) :
  forall seen copied s r s',
  copyLoop ds seen copied s = Ok (r, s') ->
  s' = s /\ forallb (validDep (heap s)) ds = true.
Proof.
  induction ds as [|d ds IH]; intros seen copied s r s' H; simpl in H.
  - injection H as _ <-. auto.
  - apply bind_Ok in H as (pk & s1 & H1 & H).
    apply load_inv in H1 as [-> Hd].
    apply bind_Ok in H as (sn & s1 & H1 & H).
    apply lift_inv in H1 as [Hsn ->].
    assert (is_Some (Package_ pk)) as [b Hb].
    { destruct sn.
      - destruct seen as [|x seen]; [discriminate|]. simpl in Hsn.
        unfold buildOf in Hsn. destruct (Package_ pk); [eauto|discriminate].
      - apply bind_Ok in H as (b & s1 & H1 & H).
        apply lift_inv in H1 as [H1 ->]. unfold buildOf in H1.
        destruct (Package_ pk); [eauto|discriminate]. }
    assert (exists seen' copied', copyLoop ds seen' copied' s = Ok (r, s'))
      as (seen' & copied' & Hrest).
    { destruct sn; [eauto|].
      apply bind_Ok in H as (b' & s1 & H1 & H).
      apply lift_inv in H1 as [H1 ->]. eauto. }
    destruct (IH _ _ _ _ _ Hrest) as [-> Hv]. split; [reflexivity|].
    simpl. unfold validDep at 1. rewrite Hd, Hb. exact Hv.
Qed.

(** The paths of [copied], in turn, are the paths seen. *)
Lemma copyLoop_spec (s : State) (ds : list loc) :
  forall seen copied,
  forallb (validDep (heap s)) ds = true ->
  exists more,
    copyLoop ds seen copied s = Ok (copied ++ more, s)
    /\ sublist more ds
    /\ (forall d, d ∈ ds ->
          existsb (hasPathPrefix (importPathOf (heap s) d))
            (seen ++ map (importPathOf (heap s)) more) = true)
    /\ (forall m1 c m2, more = m1 ++ c :: m2 ->
          existsb (hasPathPrefix (importPathOf (heap s) c))
            (seen ++ map (importPathOf (heap s)) m1) = false).
Proof.
  induction ds as [|d ds IH]; intros seen copied Hv; simpl.
  - exists []. rewrite app_nil_r. split; [reflexivity|].
    split; [constructor|]. split.
    + intros d Hd. apply elem_of_nil in Hd. contradiction.
    + intros m1 c m2 Hm. destruct m1; discriminate.
  - simpl in Hv. apply andb_true_iff in Hv as [Hd Hv]. unfold validDep in Hd.
    destruct (heap s !! d) as [pk|] eqn:Hl; [|discriminate].
    destruct (Package_ pk) as [b|] eqn:Hb; [|discriminate].
    assert (importPathOf (heap s) d = build.ImportPath b) as Hpath
      by (unfold importPathOf; rewrite Hl, Hb; reflexivity).
    rewrite (bind_eq _ _ _ _ _ (load_eq d s pk Hl)).
    rewrite (bind_eq _ _ _ _ _ (lift_eq _ _ s (isSeen_spec pk b seen Hb))).
    destruct (existsb (hasPathPrefix (build.ImportPath b)) seen) eqn:Hseen.
    + destruct (IH seen copied Hv) as (more & Hrun & Hsub & Hcov & Hfresh).
      exists more. split; [exact Hrun|]. split; [apply sublist_cons; exact Hsub|].
      split; [|exact Hfresh].
      intros d' Hd'. apply elem_of_cons in Hd' as [->|Hd']; [|auto].
      rewrite existsb_app, Hpath, Hseen. reflexivity.
    + assert (lift (buildOf pk) s = Ok (b, s)) as Hbo
        by (unfold lift, buildOf; rewrite Hb; reflexivity).
      rewrite (bind_eq _ _ _ _ _ Hbo).
      destruct (IH (seen ++ [build.ImportPath b]) (copied ++ [d]) Hv)
        as (more & Hrun & Hsub & Hcov & Hfresh).
      exists (d :: more). split.
      { rewrite Hrun, <- app_assoc. reflexivity. }
      split; [apply sublist_skip; exact Hsub|]. split.
      * intros d' Hd'. cbn [map]. rewrite Hpath.
        apply elem_of_cons in Hd' as [->|Hd'].
        -- rewrite Hpath, existsb_app. cbn [existsb].
           rewrite hasPathPrefix_refl, orb_true_r. reflexivity.
        -- specialize (Hcov d' Hd'). rewrite <- app_assoc in Hcov. exact Hcov.
      * intros m1 c m2 Hm. destruct m1 as [|c1 m1].
        -- simpl in Hm. injection Hm as <- <-. rewrite app_nil_r, Hpath.
           exact Hseen.
        -- simpl in Hm. injection Hm as <- ->. cbn [map]. rewrite Hpath.
           specialize (Hfresh m1 c m2 eq_refl).
           rewrite <- app_assoc in Hfresh. exact Hfresh.
Qed.

Lemma StronglySorted_sublist {A} (R : relation A) (l k : list A) :
  sublist l k -> StronglySorted R k -> StronglySorted R l.
Proof.
  induction 1 as [|x l k Hs IH|x l k Hs IH]; intros Hk.
  - constructor.
  - apply StronglySorted_cons in Hk as [Hx Hk].
    apply StronglySorted_cons. split; [|auto].
    rewrite Forall_forall in *. intros y Hy. apply Hx.
    eapply elem_of_sublist; eassumption.
  - apply StronglySorted_cons in Hk as [_ Hk]. auto.
Qed.

(** X2.  The last loop of [main] calls [copyDep] for a subsequence of the
    dependencies that covers all of them: every dependency has a copied
    package whose import path is equal to its own or a path prefix of it;
    and no copied package is covered by one copied before it.  When the
    dependencies are sorted by import path, as [dependencies] returns them,
    no copied package is covered by any other copied package, so that no
    directory is copied twice and a dependency listed twice is copied
    once. *)
Theorem copyLoop_cover (s : State) (ds : list loc) :
  forallb (validDep (heap s)) ds = true ->
  let path := importPathOf (heap s) in
  exists copied,
    copyLoop ds [] [] s = Ok (copied, s)
    /\ sublist copied ds
    /\ (forall d, d ∈ ds ->
          exists c, c ∈ copied /\ hasPathPrefix (path d) (path c) = true)
    /\ (forall i j ci cj, i < j ->
          copied !! i = Some ci -> copied !! j = Some cj ->
          hasPathPrefix (path cj) (path ci) = false)
    /\ (StronglySorted (byImportPath (heap s)) ds ->
        forall i j ci cj, i <> j ->
          copied !! i = Some ci -> copied !! j = Some cj ->
          hasPathPrefix (path ci) (path cj) = false).
Proof.
  intros Hv path.
  destruct (copyLoop_spec s ds [] [] Hv) as (copied & Hrun & Hsub & Hcov & Hfresh).
  exists copied. split; [exact Hrun|]. split; [exact Hsub|].
  assert (forall i j ci cj, i < j ->
            copied !! i = Some ci -> copied !! j = Some cj ->
            hasPathPrefix (path cj) (path ci) = false) as Hearlier.
  { intros i j ci cj Hij Hi Hj.
    specialize (Hfresh (take j copied) cj (drop (S j) copied)
                  (eq_sym (take_drop_middle _ _ _ Hj))).
    simpl in Hfresh.
    destruct (hasPathPrefix (path cj) (path ci)) eqn:Hp; [|reflexivity].
    assert (existsb (hasPathPrefix (importPathOf (heap s) cj))
              (map (importPathOf (heap s)) (take j copied)) = true) as Habs;
      [|congruence].
    apply existsb_exists. exists (path ci). split; [|exact Hp].
    apply in_map. apply list_elem_of_In. apply elem_of_take. eauto. }
  split; [|split; [exact Hearlier|]].
  - intros d Hd. specialize (Hcov d Hd). simpl in Hcov.
    apply existsb_exists in Hcov as (x & Hx & Hp).
    apply in_map_iff in Hx as (c & <- & Hc).
    exists c. split; [apply list_elem_of_In; exact Hc|exact Hp].
  - intros Hsorted.
    pose proof (StronglySorted_sublist _ _ _ Hsub Hsorted) as Hsc.
    assert (forall i j ci cj, i < j ->
              copied !! i = Some ci -> copied !! j = Some cj ->
              hasPathPrefix (path ci) (path cj) = false) as Hlater.
    { intros i j ci cj Hij Hi Hj.
      destruct (hasPathPrefix (path ci) (path cj)) eqn:Hp; [|reflexivity].
      rewrite <- (take_drop_middle _ _ _ Hj) in Hsc.
      assert (byImportPath (heap s) ci cj) as Hle.
      { eapply StronglySorted_app_1_elem_of; [exact Hsc| |apply list_elem_of_here].
        apply elem_of_take. eauto. }
      apply hasPathPrefix_leb in Hp.
      assert (path ci = path cj) as Heq
        by (apply (anti_symm string_le); [exact Hle|exact Hp]).
      specialize (Hearlier i j ci cj Hij Hi Hj).
      rewrite Heq, hasPathPrefix_refl in Hearlier. discriminate. }
    intros i j ci cj Hne Hi Hj.
    destruct (Nat.lt_total i j) as [Hlt|[->|Hlt]]; [eauto|contradiction|eauto].
Qed.

Lemma externalDeps_inv env (ds : list loc) :
  forall acc s r s',
  externalDeps env ds acc s = Ok (r, s') ->
  s' = s /\ forallb (validDep (heap s)) ds = true.
Proof.
  induction ds as [|d ds IH]; intros acc s r s' H; simpl in H.
  - injection H as _ <-. auto.
  - apply bind_Ok in H as (b & s1 & H1 & H).
    apply loadBuild_inv in H1 as (-> & pk & Hd & Hb).
    assert (exists acc', externalDeps env ds acc' s = Ok (r, s')) as [acc' H']
      by (destruct (inCWD env (build.Dir b)); eauto).
    destruct (IH _ _ _ _ H') as [-> Hv]. split; [reflexivity|].
    simpl. unfold validDep at 1. rewrite Hd, Hb. exact Hv.
Qed.

Lemma dependencies_loop_inv env (roots : list loc) :
  forall acc s r s',
  dependencies_loop env roots acc s = Ok (r, s') ->
  s' = s /\ validRoots (heap s) roots = true.
Proof.
  induction roots as [|p roots IH]; intros acc s r s' H; simpl in H.
  - injection H as _ <-. auto.
  - apply bind_Ok in H as (pk & s1 & H1 & H).
    apply load_inv in H1 as [-> Hp].
    apply bind_Ok in H as (acc' & s1 & H1 & H).
    apply externalDeps_inv in H1 as [-> Hv].
    destruct (IH _ _ _ _ H) as [-> Hr]. split; [reflexivity|].
    simpl. rewrite Hp, Hv. exact Hr.
Qed.

Lemma dependencies_inv env roots s ds s' :
  dependencies env roots s = Ok (ds, s') ->
  s' = s /\ validRoots (heap s) roots = true
  /\ ds ≡ₚ List.filter (external env (heap s))
             (concat (map (depsAt (heap s)) roots)).
Proof.
  intros H. unfold dependencies in H.
  apply bind_Ok in H as (acc & s1 & H1 & H).
  destruct (dependencies_loop_inv env roots [] s acc s1 H1) as [-> Hv].
  rewrite (dependencies_loop_spec env s roots [] Hv) in H1.
  injection H1 as <-. injection H as <- <-.
  split; [reflexivity|]. split; [exact Hv|]. apply merge_sort_Permutation.
Qed.

Lemma validRoots_deps (h : list Package) (roots : list loc) (d : loc) :
  validRoots h roots = true ->
  d ∈ concat (map (depsAt h) roots) ->
  validDep h d = true /\ exists r, r ∈ roots /\ d ∈ depsAt h r.
Proof.
  intros Hv Hd. apply list_elem_of_In, in_concat in Hd as (l & Hl & Hd). apply list_elem_of_In in Hl, Hd.
  apply list_elem_of_fmap in Hl as (r & -> & Hr).
  unfold validRoots in Hv. rewrite forallb_forall in Hv.
  specialize (Hv r (proj1 (list_elem_of_In _ _) Hr)). unfold depsAt in Hd.
  destruct (h !! r) as [pk|] eqn:Hl; [|discriminate].
  rewrite forallb_forall in Hv. split.
  - apply Hv. apply list_elem_of_In. exact Hd.
  - exists r. split; [exact Hr|]. unfold depsAt. rewrite Hl. exact Hd.
Qed.

Lemma validRoots_lt (h : list Package) (roots : list loc) (r : loc) :
  validRoots h roots = true -> r ∈ roots -> r < length h.
Proof.
  intros Hv Hr. unfold validRoots in Hv. rewrite forallb_forall in Hv.
  specialize (Hv r (proj1 (list_elem_of_In _ _) Hr)).
  destruct (h !! r) eqn:Hl; [|discriminate].
  eapply lookup_lt_Some. exact Hl.
Qed.

Lemma validDep_lt (h : list Package) (d : loc) :
  validDep h d = true -> d < length h.
Proof.
  unfold validDep. destruct (h !! d) eqn:Hl; [|discriminate].
  intros _. eapply lookup_lt_Some. exact Hl.
Qed.

(** X3.  When the roots are loaded and their dependencies aggregated, [main]
    either ends the process with status 1, which it does exactly when a
    root or an aggregated dependency has an error or is in the standard
    library, and then nothing is copied; or it goes on to copy, and every
    package it copies is an aggregated dependency: a dependency of a root
    that is not in the working directory, without an error and not in the
    standard library. *)
Theorem main_outcome env (fuel : nat) (args : list string) (s s1 s2 : State)
    (roots ds : list loc) :
  packages env fuel args s = Ok (roots, s1) ->
  dependencies env roots s1 = Ok (ds, s2) ->
  let bad l := hasError (heap s1) l || standardAt (heap s1) l in
  s2 = s1
  /\ (existsb bad (roots ++ ds) = true -> main env fuel args s = Exit 1)
  /\ (existsb bad (roots ++ ds) = false ->
      exists copied,
        main env fuel args s = Ok (copied, s1)
        /\ copyLoop ds [] [] s1 = Ok (copied, s1)
        /\ forall c, c ∈ copied ->
             c ∈ ds /\ bad c = false /\ external env (heap s1) c = true
             /\ exists r, r ∈ roots /\ c ∈ depsAt (heap s1) r).
Proof.
  intros Hpk Hdeps bad.
  destruct (dependencies_inv env roots s1 ds s2 Hdeps) as (-> & Hv & Hperm).
  split; [reflexivity|].
  assert (forall d, d ∈ ds ->
            validDep (heap s1) d = true /\ external env (heap s1) d = true
            /\ exists r, r ∈ roots /\ d ∈ depsAt (heap s1) r) as Hds.
  { intros d Hd. rewrite Hperm in Hd. apply list_elem_of_In in Hd.
    apply List.filter_In in Hd as [Hd Hext]. apply list_elem_of_In in Hd.
    destruct (validRoots_deps _ _ _ Hv Hd) as [Hvd Hr]. auto. }
  assert (forall l, l ∈ roots ++ ds -> l < length (heap s1)) as Hlt.
  { intros l Hl. apply elem_of_app in Hl as [Hl|Hl].
    - eapply validRoots_lt; eassumption.
    - apply validDep_lt. apply Hds. exact Hl. }
  assert (checkLoaded (roots ++ ds) true s1
          = Ok (negb (existsb bad (roots ++ ds)), s1)) as Hcheck.
  { rewrite (checkLoaded_spec _ true s1 Hlt). do 2 f_equal. simpl.
    clear. induction (roots ++ ds) as [|l k IH]; simpl; [reflexivity|].
    rewrite IH. fold (bad l). destruct (bad l); reflexivity. }
  assert (main env fuel args s
          = (if negb (negb (existsb bad (roots ++ ds)))
             then fun _ => Exit 1 else copyLoop ds [] []) s1) as Hmain.
  { unfold main. rewrite (bind_eq _ _ _ _ _ Hpk).
    rewrite (bind_eq _ _ _ _ _ Hdeps). rewrite (bind_eq _ _ _ _ _ Hcheck).
    reflexivity. }
  split.
  - intros Hbad. rewrite Hmain, Hbad. reflexivity.
  - intros Hbad. rewrite Hmain, Hbad. simpl.
    assert (forallb (validDep (heap s1)) ds = true) as Hvds.
    { apply forallb_forall. intros d Hd. apply Hds. apply list_elem_of_In.
      exact Hd. }
    destruct (copyLoop_spec s1 ds [] [] Hvds) as (copied & Hrun & Hsub & _).
    exists copied. split; [exact Hrun|]. split; [exact Hrun|].
    intros c Hc. pose proof (elem_of_sublist _ _ _ Hc Hsub) as Hcd.
    split; [exact Hcd|]. split.
    + destruct (bad c) eqn:Hb; [|reflexivity].
      assert (existsb bad (roots ++ ds) = true) as Habs; [|congruence].
      apply existsb_exists. exists c. split; [|exact Hb].
      apply list_elem_of_In. apply elem_of_app. right. exact Hcd.
    + destruct (Hds c Hcd) as (_ & He & Hr). auto.
Qed.

Lemma copyLoop_cover_witness :
  let s := Fixture.copyState in
  forallb (validDep (heap s)) [0; 1; 1; 2] = true
  /\ StronglySorted (byImportPath (heap s)) [0; 1; 1; 2]
  /\ copyLoop [0; 1; 1; 2] [] [] s = Ok ([0; 2], s)
  /\ exists copied,
       copyLoop [0; 1; 1; 2] [] [] s = Ok (copied, s)
       /\ forall i j ci cj, i <> j ->
            copied !! i = Some ci -> copied !! j = Some cj ->
            hasPathPrefix (importPathOf (heap s) ci) (importPathOf (heap s) cj)
            = false.
Proof.
  intros s.
  assert (StronglySorted (byImportPath (heap s)) [0; 1; 1; 2]) as Hsorted.
  { repeat constructor. }
  split; [reflexivity|]. split; [exact Hsorted|]. split; [reflexivity|].
  destruct (copyLoop_cover s [0; 1; 1; 2] eq_refl)
    as (copied & Hrun & _ & _ & _ & H).
  exists copied. split; [exact Hrun|]. exact (H Hsorted).
Defined.

Lemma main_outcome_witness :
  let env := Fixture.oneDepEnv in
  let s1 := Fixture.oneDepState in
  packages env 3 ["p"] initState = Ok ([0], s1)
  /\ dependencies env [0] s1 = Ok ([1], s1)
  /\ Fixture.names s1 [1] = ["d"]
  /\ exists copied,
       main env 3 ["p"] initState = Ok (copied, s1)
       /\ copyLoop [1] [] [] s1 = Ok (copied, s1)
       /\ copyLoop [1] [] [] s1 = Ok ([1], s1).
Proof.
  intros env s1.
  assert (packages env 3 ["p"] initState = Ok ([0], s1)) as Hpk
    by (vm_compute; reflexivity).
  assert (dependencies env [0] s1 = Ok ([1], s1)) as Hds
    by (vm_compute; reflexivity).
  split; [exact Hpk|]. split; [exact Hds|]. split; [vm_compute; reflexivity|].
  destruct (main_outcome env 3 ["p"] initState s1 s1 [0] [1]
              Hpk Hds) as (_ & _ & Hcopy).
  destruct Hcopy as (copied & Hmain & Hloop & _); [vm_compute; reflexivity|].
  exists copied. split; [exact Hmain|]. split; [exact Hloop|].
  vm_compute. reflexivity.
Defined.

(** ** More on the reuse of a package *)

(** X8.  Finding a package in the cache again changes nothing but its error; it
    never removes an error; a package that is still being loaded and has
    no error is left as it is; and doing it twice with the same stack is
    the same as doing it once. *)
Theorem reusePackage_idempotent (p : Package) (cur : importStack) :
  reusePackage (reusePackage p cur) cur = reusePackage p cur
  /\ reusePackage p cur
     = {| Package_ := Package_ p; Standard := Standard p;
          Error := Error (reusePackage p cur);
          loadedDeps := loadedDeps p; deps := deps p |}
  /\ (Error p <> None -> Error (reusePackage p cur) <> None)
  /\ (Error p = None -> loadedDeps p = false -> reusePackage p cur = p).
Proof.
  split; [|split; [|split]].
  - destruct p as [bp std err ld ds]. unfold reusePackage. simpl.
    destruct ld, err as [e|]; simpl; try reflexivity.
    + destruct (isImportCycle e) eqn:Hc; simpl; [rewrite Hc; reflexivity|].
      destruct (shorterThan cur (ImportStack e)) eqn:Hs; simpl.
      * rewrite Hc, shorterThan_irrefl. reflexivity.
      * rewrite Hc, Hs. reflexivity.
    + destruct (isImportCycle e) eqn:Hc; simpl; [rewrite Hc; reflexivity|].
      destruct (shorterThan cur (ImportStack e)) eqn:Hs; simpl.
      * rewrite Hc, shorterThan_irrefl. reflexivity.
      * rewrite Hc, Hs. reflexivity.
  - destruct p as [bp std err ld ds]. unfold reusePackage. simpl.
    destruct ld, err as [e|]; simpl;
      try (destruct (negb (isImportCycle e) && shorterThan cur (ImportStack e)));
      reflexivity.
  - apply frame_reusePackage.
  - intros He Hl. unfold reusePackage. rewrite Hl, He. reflexivity.
Qed.




(** ** The table of directories *)

(** X10.  The table does not change what [vendoredImportPath] returns: with any
    two tables that agree with the file system, the path found and the
    candidates searched are the same, and the table returned agrees with
    the file system again. *)
Theorem vendoredImportPath_memo env parent (path : string)
    (c1 c2 : gmap string bool) :
  coherent env c1 -> coherent env c2 ->
  match vendoredImportPath env parent path c1 with
  | Ok (found, searched, c1') =>
      coherent env c1'
      /\ exists c2', vendoredImportPath env parent path c2
                     = Ok (found, searched, c2')
  | Panic m => vendoredImportPath env parent path c2 = Panic m
  | Exit e => vendoredImportPath env parent path c2 = Exit e
  | OutOfFuel => vendoredImportPath env parent path c2 = OutOfFuel
  end.
Proof.
  intros H1 H2.
  pose proof (vendoredImportPath_same env parent path c1 c2 H1 H2) as H.
  destruct (vendoredImportPath env parent path c1)
    as [[[found searched] c1']| | |]; exact H.
Qed.

Lemma nestedEnv_expansion env :
  env = Fixture.nestedEnv ->
  exists c1', vendoredImportPath env (Some Fixture.pkg_ab) "d" ∅
              = Ok ("a/b/vendor/d", [], c1').
Proof. intros ->. eexists. vm_compute. reflexivity. Qed.

Lemma vendoredImportPath_memo_witness :
  let env := Fixture.nestedEnv in
  let c2 : gmap string bool := {["/g/src/a/b/vendor" := true]} in
  coherent env ∅ /\ coherent env c2
  /\ (exists c1', vendoredImportPath env (Some Fixture.pkg_ab) "d" ∅
                  = Ok ("a/b/vendor/d", [], c1'))
  /\ (exists c2', vendoredImportPath env (Some Fixture.pkg_ab) "d" c2
                  = Ok ("a/b/vendor/d", [], c2')).
Proof.
  intros env c2.
  assert (coherent env c2) as Hc2.
  { intros k v Hk. apply lookup_singleton_Some in Hk as [<- <-]. reflexivity. }
  split; [apply coherent_empty|]. split; [exact Hc2|].
  destruct (nestedEnv_expansion env eq_refl) as [c1' Hv].
  split; [exists c1'; exact Hv|].
  pose proof (vendoredImportPath_memo env (Some Fixture.pkg_ab) "d" ∅ c2
                (coherent_empty env) Hc2) as H.
  rewrite Hv in H. destruct H as (_ & c2' & H2). eauto.
Defined.

(** ** What a call of the loader keeps *)

(** X11.  When [loadImport] returns, the import stack is what it was before the
    call; every entry of the package cache is still there, with the same
    pointer; every package that was there is still there, with the same
    directory, root, import path, name and standard flag, and with an
    error if it had one; and the package returned is in the cache under
    the effective import path of the path that was asked for. *)
Theorem loadImport_keeps env (fuel : nat) (path srcDir : string)
    (parent : option loc) (importPos : list Position) (s : State)
    (l : loc) (s' : State) :
  wf s -> coherent env (isDirCache s) ->
  loadImport env fuel path srcDir parent importPos s = Ok (l, s') ->
  stk s' = stk s
  /\ (forall k v, packageCache s !! k = Some v -> packageCache s' !! k = Some v)
  /\ (forall q pk, heap s !! q = Some pk ->
        exists pk', heap s' !! q = Some pk'
          /\ option_map static (Package_ pk') = option_map static (Package_ pk)
          /\ Standard pk' = Standard pk
          /\ (Error pk <> None -> Error pk' <> None))
  /\ wf s' /\ coherent env (isDirCache s')
  /\ exists eff searched c,
       vendoredImportPath env (parentOf s parent) path (isDirCache s)
       = Ok (eff, searched, c)
       /\ packageCache s' !! eff = Some l.
Proof.
  intros Hwf Hcoh H.
  destruct (loadImport_ok env fuel _ _ _ _ _ _ _ Hwf Hcoh H)
    as (Hwf' & Hcoh' & [Hstk Hcache Hframe] & Hres).
  split; [exact Hstk|]. split.
  { intros k v Hk. eapply lookup_weaken; eassumption. }
  split.
  { intros q pk Hq. destruct (Hframe q pk Hq) as (pk' & Hq' & [Hb Hs He]).
    exists pk'. auto. }
  split; [exact Hwf'|]. split; [exact Hcoh'|]. exact Hres.
Qed.

Lemma loadImport_keeps_witness :
  let env := Fixture.siblingEnv in
  let s := Fixture.siblingState in
  let s' := Fixture.siblingCall in
  wf s /\ coherent env (isDirCache s)
  /\ loadImport env 2 "x" "/g/src/p" (Some 0) [] s = Ok (1, s')
  /\ stk s' = ["p"]
  /\ packageCache s' !! "x" = Some 1.
Proof.
  intros env s s'.
  assert (loadImport env 2 "x" "/g/src/p" (Some 0) [] s = Ok (1, s')) as Hrun
    by (vm_compute; reflexivity).
  split; [apply wf_singleton|]. split; [apply coherent_empty|].
  split; [exact Hrun|].
  destruct (loadImport_keeps env 2 "x" "/g/src/p" (Some 0) [] s 1 s'
              (wf_singleton _ _ _ _) (coherent_empty env) Hrun)
    as (Hstk & _ & _ & _ & _ & eff & searched & c & Hv & Hc).
  split; [exact Hstk|].
  assert (exists c0,
            vendoredImportPath env (parentOf s (Some 0)) "x" (isDirCache s)
            = Ok ("x", [], c0)) as [c0 Hx]
    by (eexists; vm_compute; reflexivity).
  rewrite Hx in Hv. injection Hv as <- _ _. exact Hc.
Defined.

(** ** The collision detector, again *)





(** The loop of [toFold] over [SimpleFold] ends after some steps upwards
    and one step that does not go up. *)
Lemma foldMin_iter env (Hb : SimpleFold_bounded env) :
  forall fuel r, Z.to_nat (MaxRune + 1 - r) < fuel ->
  exists k,
    foldMin env fuel r = Ok (Nat.iter (S k) (unicode_SimpleFold env) r)
    /\ (Nat.iter (S k) (unicode_SimpleFold env) r
        <= Nat.iter k (unicode_SimpleFold env) r)%Z
    /\ forall j, j < k ->
         (Nat.iter j (unicode_SimpleFold env) r
          < Nat.iter (S j) (unicode_SimpleFold env) r)%Z.
Proof.
  induction fuel as [|fuel IH]; intros r Hf; [lia|]. cbn [foldMin].
  destruct (Z.leb_spec (unicode_SimpleFold env r) r) as [Hle|Hgt].
  - exists 0. split; [reflexivity|]. split; [exact Hle|]. intros j Hj. lia.
  - destruct (IH (unicode_SimpleFold env r)) as (k & Hrun & Hlast & Hup).
    { pose proof (Hb r). lia. }
    assert (forall n, Nat.iter (S n) (unicode_SimpleFold env) r
                      = Nat.iter n (unicode_SimpleFold env)
                          (unicode_SimpleFold env r)) as Hshift
      by (intros n; apply Nat.iter_succ_r).
    exists (S k). split; [|split].
    + rewrite Hrun, (Hshift (S k)). reflexivity.
    + rewrite (Hshift (S k)), (Hshift k). exact Hlast.
    + intros [|j] Hj; [exact Hgt|].
      rewrite (Hshift (S j)), (Hshift j). apply Hup. lia.
Qed.

(** X13.  [toFold] always returns, provided [SimpleFold] never leaves the range
    of the runes from above: for every rune of the string, the loop over
    [SimpleFold] goes up some steps and ends with the first step that does
    not go up.  A string of ASCII bytes without upper-case letters is
    returned as it is. *)
Theorem toFold_terminates env (s : string) :
  SimpleFold_bounded env ->
  (exists f, toFold env s = Ok f)
  /\ (forallb (fun c => negb ((RuneSelf <=? N_of_ascii c)%N
                              || isUpperASCII (N_of_ascii c)))
        (String.list_ascii_of_string s) = true ->
      toFold env s = Ok s)
  /\ (forall r, exists k,
        foldMin env (S (Z.to_nat (MaxRune + 1 - r))) r
        = Ok (Nat.iter (S k) (unicode_SimpleFold env) r)
        /\ (Nat.iter (S k) (unicode_SimpleFold env) r
            <= Nat.iter k (unicode_SimpleFold env) r)%Z
        /\ forall j, j < k ->
             (Nat.iter j (unicode_SimpleFold env) r
              < Nat.iter (S j) (unicode_SimpleFold env) r)%Z).
Proof.
  intros Hb. split; [apply toFold_total; exact Hb|]. split.
  - intros Hfast. unfold toFold. rewrite Hfast. reflexivity.
  - intros r. apply (foldMin_iter env Hb). lia.
Qed.

Lemma toFold_terminates_witness :
  let env := Fixture.caseEnv in
  SimpleFold_bounded env
  /\ toFold env "Foo.go" = Ok "foo.go"
  /\ toFold env "vendor/d" = Ok "vendor/d"
  /\ exists f, toFold env "Foo.go" = Ok f.
Proof.
  intros env. split; [apply asciiFold_bounded|].
  split; [vm_compute; reflexivity|]. split; [reflexivity|].
  apply (toFold_terminates env "Foo.go" (asciiFold_bounded _ _ _ _)).
Defined.

(** ** The arguments of the command *)

Lemma packages_loop_firstOccurrences env (fuel : nat) (args : list string) :
  forall seen (set : gmap string bool) pkgs s,
  (forall a, default false (set !! a) = true <-> a ∈ seen) ->
  packages_loop env fuel args set pkgs s
  = packages_loop env fuel (firstOccurrences seen args) set pkgs s.
Proof.
  induction args as [|a args IH]; intros seen set pkgs s Hset; [reflexivity|].
  cbn [packages_loop firstOccurrences].
  destruct (bool_decide_reflect (a ∈ seen)) as [Hin|Hin].
  - rewrite (proj2 (Hset a) Hin). apply IH. exact Hset.
  - cbn [packages_loop].
    destruct (default false (set !! a)) eqn:Hd;
      [exfalso; apply Hin, Hset; exact Hd|].
    unfold bind. destruct (loadPackage env fuel a s) as [[p s1]| | |];
      cbn [res_bind]; try reflexivity.
    apply IH. intros a'. rewrite elem_of_cons.
    destruct (decide (a = a')) as [<-|Hn].
    + rewrite lookup_insert_eq. simpl. tauto.
    + rewrite lookup_insert_ne by exact Hn. rewrite Hset.
      split; [auto|]. intros [Heq|H]; [congruence|exact H].
Qed.

Lemma firstOccurrences_spec (args : list string) :
  forall seen,
  NoDup (firstOccurrences seen args)
  /\ (forall a, a ∈ firstOccurrences seen args <-> a ∈ args /\ a ∉ seen)
  /\ sublist (firstOccurrences seen args) args.
Proof.
  induction args as [|a args IH]; intros seen; cbn [firstOccurrences].
  - split; [constructor|]. split; [|constructor].
    intros a. rewrite elem_of_nil. tauto.
  - destruct (bool_decide_reflect (a ∈ seen)) as [Hin|Hin].
    + destruct (IH seen) as (Hnd & Hiff & Hsub).
      split; [exact Hnd|]. split; [|apply sublist_cons; exact Hsub].
      intros a'. rewrite Hiff, elem_of_cons. split; [tauto|].
      intros [[->|H] Hn]; [contradiction|auto].
    + destruct (IH (a :: seen)) as (Hnd & Hiff & Hsub).
      split.
      { apply NoDup_cons. split; [|exact Hnd].
        rewrite Hiff. intros [_ Hn]. apply Hn. apply list_elem_of_here. }
      split; [|apply sublist_skip; exact Hsub].
      intros a'. rewrite !elem_of_cons, Hiff, elem_of_cons.
      destruct (decide (a' = a)) as [->|Hn]; [tauto|]. tauto.
Qed.

Lemma packages_loop_cons env (fuel : nat) (p : loc) (args : list string) :
  forall (set set' : gmap string bool) pkgs s,
  (forall x, x ∈ args -> default false (set !! x) = default false (set' !! x)) ->
  packages_loop env fuel args set (p :: pkgs) s
  = match packages_loop env fuel args set' pkgs s with
    | Ok (ps, s') => Ok (p :: ps, s')
    | Panic m => Panic m
    | Exit c => Exit c
    | OutOfFuel => OutOfFuel
    end.
Proof.
  induction args as [|x args IH]; intros set set' pkgs s Hag; [reflexivity|].
  cbn [packages_loop].
  rewrite <- (Hag x (list_elem_of_here _ _)).
  destruct (default false (set !! x)).
  - apply IH. intros z Hz. apply Hag. apply list_elem_of_further. exact Hz.
  - unfold bind.
    destruct (loadPackage env fuel x s) as [[q s1]| | |];
      cbn [res_bind]; try reflexivity.
    apply (IH (<[x := true]> set) (<[x := true]> set') (pkgs ++ [q])).
    intros z Hz. destruct (decide (x = z)) as [<-|Hn].
    + rewrite !lookup_insert_eq. reflexivity.
    + rewrite !lookup_insert_ne by exact Hn. apply Hag.
      apply list_elem_of_further. exact Hz.
Qed.

(** X14.  [packages] loads every argument once, at its first occurrence: it does
    on a list of arguments what it does on the list without the
    repetitions, which has the same arguments, each once, in the order of
    their first occurrences; and for such a list it calls [loadPackage] on
    one argument after the other. *)
Theorem packages_firstOccurrences env (fuel : nat) (args : list string) :
  (forall s, packages env fuel args s
             = packages env fuel (firstOccurrences [] args) s)
  /\ NoDup (firstOccurrences [] args)
  /\ (forall a, a ∈ firstOccurrences [] args <-> a ∈ args)
  /\ sublist (firstOccurrences [] args) args
  /\ (forall a rest s, a ∉ rest ->
        packages env fuel (a :: rest) s
        = (run p <- loadPackage env fuel a;
           run ps <- packages env fuel rest;
           ret (p :: ps)) s).
Proof.
  destruct (firstOccurrences_spec args []) as (Hnd & Hiff & Hsub).
  split; [|split; [exact Hnd|split; [|split; [exact Hsub|]]]].
  - intros s. unfold packages. apply packages_loop_firstOccurrences.
    intros a. rewrite lookup_empty, elem_of_nil. simpl. split; [discriminate|tauto].
  - intros a. rewrite Hiff. rewrite elem_of_nil. tauto.
  - intros a rest s Hn. unfold packages. cbn [packages_loop].
    rewrite lookup_empty. simpl.
    unfold bind at 1 2. destruct (loadPackage env fuel a s) as [[p s1]| | |];
      cbn [res_bind]; try reflexivity.
    rewrite (packages_loop_cons env fuel p rest (<[a := true]> ∅) ∅ [] s1).
    + unfold bind, ret.
      destruct (packages_loop env fuel rest ∅ [] s1) as [[ps s']| | |];
        reflexivity.
    + intros x Hx. rewrite lookup_insert_ne by (intros ->; contradiction).
      reflexivity.
Qed.

Lemma packages_firstOccurrences_witness :
  firstOccurrences [] ["p/a"; "p/b"; "p/a"] = ["p/a"; "p/b"]
  /\ packages Fixture.twoRootsEnv 3 ["p/a"; "p/b"; "p/a"] initState
     = packages Fixture.twoRootsEnv 3 ["p/a"; "p/b"] initState.
Proof.
  split; [reflexivity|].
  apply (packages_firstOccurrences Fixture.twoRootsEnv 3 ["p/a"; "p/b"; "p/a"]).
Defined.

(** ** A package that cannot be loaded *)

(** X15.  When [go/build] reports an error for a path that is not in the cache,
    and the package is not in the standard library, [loadImport] returns,
    for any fuel, a new package with that error and nothing else: the
    stack of the error is the import stack with the path on top, its text
    is the text of [go/build], with the vendor directories that were
    searched if there are any, and its position is the position of the
    first import statement, with the file name shortened; no import of the
    package is looked at. *)
Theorem loadImport_records_failure env (fuel : nat) (path srcDir : string)
    (parent : option loc) (importPos : list Position) (s : State)
    (eff : string) (searched : list string) (c : gmap string bool)
    (bp : build.Package) (text : string) :
  (parentOf s parent = None -> parent = None) ->
  vendoredImportPath env (parentOf s parent) path (isDirCache s)
  = Ok (eff, searched, c) ->
  packageCache s !! eff = None ->
  build_Import env eff srcDir = (bp, Some text) ->
  build.Goroot bp && negb (String.eqb eff EmptyString)
  && negb (Contains eff ".") = false ->
  exists b',
    loadImport env (S fuel) path srcDir parent importPos s
    = Ok (length (heap s),
          {| packageCache := <[eff := length (heap s)]> (packageCache s);
             isDirCache := c;
             heap := heap s ++
               [{| Package_ := Some b'; Standard := false;
                   Error :=
                     Some {| ImportStack := stk s ++ [path];
                             Pos := match importPos with
                                    | pos :: _ =>
                                        Position_String env
                                          {| Filename := shortPath env (Filename pos);
                                             Offset := Offset pos;
                                             Line := Line pos;
                                             Column := Column pos |}
                                    | [] => EmptyString
                                    end;
                             Err := if 0 <? length searched
                                    then addVendorSearch text searched
                                    else text;
                             isImportCycle := false; hard := false |};
                   loadedDeps := false; deps := [] |}];
             stk := stk s |})
    /\ build.ImportPath b' = eff
    /\ build.Dir b' = build.Dir bp
    /\ build.Imports b' = build.Imports bp.
Proof.
  intros Hpar Hv Hmiss Himp Hnstd.
  destruct (loadImport_failure_eq env fuel path srcDir parent importPos s
              eff searched c bp text Hpar Hv Hmiss Himp Hnstd)
    as (b' & Hrun & Hfacts).
  exists b'. split; [exact Hrun|exact Hfacts].
Qed.

Lemma loadImport_records_failure_witness :
  let env := Fixture.siblingEnv in
  let s := Fixture.siblingState in
  let text := default EmptyString (snd (Fixture.notFound "x")) in
  exists c b',
    loadImport env 1 "x" "/g/src/p" (Some 0) [] s
    = Ok (1,
          {| packageCache := <["x" := 1]> (packageCache s);
             isDirCache := c;
             heap := heap s ++
               [{| Package_ := Some b'; Standard := false;
                   Error :=
                     Some {| ImportStack := ["p"; "x"]; Pos := EmptyString;
                             Err := text;
                             isImportCycle := false; hard := false |};
                   loadedDeps := false; deps := [] |}];
             stk := ["p"] |}).
Proof.
  intros env s text.
  assert (exists c, vendoredImportPath env (parentOf s (Some 0)) "x"
                      (isDirCache s) = Ok ("x", [], c)) as [c Hv]
    by (eexists; vm_compute; reflexivity).
  destruct (loadImport_records_failure env 0 "x" "/g/src/p" (Some 0) [] s
              "x" [] c (fst (Fixture.notFound "x")) text)
    as (b' & Hrun & _).
  - discriminate.
  - exact Hv.
  - vm_compute. reflexivity.
  - vm_compute. reflexivity.
  - vm_compute. reflexivity.
  - exists c, b'. exact Hrun.
Defined.
